(** * Batch video processing: the per-file runner, the bounded scheduler
      and the result ledger of [batch_process.py]

    The asynchronous code of [VideoProcessor] is embedded as programs over a
    small command vocabulary: every interaction with the outside world
    (clock, file system, HTTP session, console, semaphore, shared counters)
    is one command whose reply is chosen by the environment.  A program is a
    well-founded tree of such commands, so each coroutine is total by
    construction; its behaviours are the traces it accepts. *)

From stdpp Require Import base option strings gmap list pretty.
From Equations Require Import Equations.
From Stdlib Require Import ZArith Lia.

Open Scope Z_scope.
Open Scope string_scope.
Open Scope list_scope.

(** ** Module constants *)

Definition API_URL : string := "https://api.topazlabs.com/video/".
Definition API_EXPRESS_URL : string := "https://api.topazlabs.com/video/express".
Definition INPUT_FOLDER : string := "input".
Definition OUTPUT_FOLDER : string := "output".
Definition LOG_FILE : string := "processing_log.json".

(** The two tunable constants of the module. *)
Record Config : Type := mkConfig {
  MAX_CONCURRENT_TASKS : Z;
  RETRY_LIMIT : Z
}.

(** Their values in the source. *)
Definition module_config : Config :=
  {| MAX_CONCURRENT_TASKS := 5; RETRY_LIMIT := 1 |}.

(** [Path(folder) / name] *)
Definition path_join (folder name : string) : string := folder +:+ "/" +:+ name.

(** ** Data *)

(** [str(e)] of a raised [Exception]. *)
Abbreviation exn := string (only parsing).

(** JSON values stored in the dictionaries of the ledger. *)
Inductive JVal : Type :=
| JNull
| JStr (s : string)
| JInt (n : Z).

#[global] Instance JVal_eq_dec : EqDecision JVal.
Proof. solve_decision. Defined.

(** A Python [dict] with string keys. *)
Abbreviation Dict := (gmap string JVal).

Definition jopt (o : option string) : JVal :=
  match o with
  | Some s => JStr s
  | None => JNull
  end.

(** Truthiness of an optional string: [None] and [""] are falsy. *)
Definition truthy (o : option string) : bool :=
  match o with
  | Some s => negb (bool_decide (s = ""))
  | None => false
  end.

(** Parsed body of the submission response: the two keys the runner reads,
    and the text that [str] gives for the whole body. *)
Record JobResponse : Type := mkJobResponse {
  requestId : option string;
  uploadUrls : list string;
  json_repr : string
}.

(** Parsed body of the status response: [status], [progress],
    [download.url] and [error]. *)
Record StatusResponse : Type := mkStatusResponse {
  sr_status : option string;
  sr_progress : option Z;
  sr_download_url : option string;
  sr_error : option string
}.

#[global] Instance JobResponse_eq_dec : EqDecision JobResponse.
Proof. solve_decision. Defined.
#[global] Instance StatusResponse_eq_dec : EqDecision StatusResponse.
Proof. solve_decision. Defined.

Definition show_opt (o : option string) : string := default "None" o.

(** Rendering of the response dictionaries inside messages: the submission
    response is shown whole, as [str] renders it. *)
Definition show_job (r : JobResponse) : string := json_repr r.

Definition show_status (r : StatusResponse) : string :=
  "{status: " +:+ show_opt (sr_status r) +:+
  ", progress: " +:+ from_option pretty "None" (sr_progress r) +:+
  ", download: " +:+ show_opt (sr_download_url r) +:+
  ", error: " +:+ show_opt (sr_error r) +:+ "}".

(** [self.log_data] *)
Record LogData : Type := mkLogData {
  start_time : string;
  end_time : option string;
  total_videos : Z;
  successful : Z;
  failed : Z;
  skipped : Z;
  results : list Dict
}.

#[global] Instance LogData_eq_dec : EqDecision LogData.
Proof. solve_decision. Defined.

Inductive Counter : Type := Successful | Failed | Skipped.

#[global] Instance Counter_eq_dec : EqDecision Counter.
Proof. solve_decision. Defined.

(** [self.log_data[c] += 1] *)
Definition incr (c : Counter) (ld : LogData) : LogData :=
  match c with
  | Successful =>
      mkLogData (start_time ld) (end_time ld) (total_videos ld)
        (successful ld + 1) (failed ld) (skipped ld) (results ld)
  | Failed =>
      mkLogData (start_time ld) (end_time ld) (total_videos ld)
        (successful ld) (failed ld + 1) (skipped ld) (results ld)
  | Skipped =>
      mkLogData (start_time ld) (end_time ld) (total_videos ld)
        (successful ld) (failed ld) (skipped ld + 1) (results ld)
  end.

Definition set_total_videos (n : Z) (ld : LogData) : LogData :=
  mkLogData (start_time ld) (end_time ld) n
    (successful ld) (failed ld) (skipped ld) (results ld).

Definition set_end_time (t : string) (ld : LogData) : LogData :=
  mkLogData (start_time ld) (Some t) (total_videos ld)
    (successful ld) (failed ld) (skipped ld) (results ld).

(** [self.log_data["results"].append(r)] *)
Definition append_result (r : Dict) (ld : LogData) : LogData :=
  mkLogData (start_time ld) (end_time ld) (total_videos ld)
    (successful ld) (failed ld) (skipped ld) (results ld ++ [r]).

(** ** Commands and programs *)

(** One constructor per interaction with the outside world; the index is the
    type of the reply.  A reply [inl e] is an exception raised by the call.
    [Print] and [SaveLog] are the writes to the console and to the ledger
    file when they are taken to succeed; [Emit] and [Dump] are the same two
    writes when their failure is observed. *)
Inductive Cmd : Type -> Type :=
| Now : Cmd string
| Uuid4 : Cmd string
| Exists (path : string) : Cmd bool
| Print (msg : string) : Cmd unit
| Sleep (secs : Z) : Cmd unit
| Post (url : string) : Cmd (exn + Z * JobResponse)
| ReadFile (path : string) : Cmd (exn + string)
| Put (url data : string) : Cmd (exn + Z)
| GetJson (url : string) : Cmd (exn + Z * StatusResponse)
| GetStream (url : string) : Cmd (exn + Z * list string)
| WriteFile (path : string) (chunks : list string) : Cmd (exn + unit)
| Rename (src dst : string) : Cmd (exn + unit)
| Incr (c : Counter) : Cmd unit
| Acquire : Cmd unit
| Release : Cmd unit
| SaveLog (path : string) (snapshot : LogData) : Cmd unit
| Emit (msg : string) : Cmd (exn + unit)
| Dump (path : string) (snapshot : LogData) : Cmd (exn + unit).

Inductive Prog (A : Type) : Type :=
| Ret (a : A)
| Vis {X : Type} (c : Cmd X) (k : X -> Prog A).

Arguments Ret {A} a.
Arguments Vis {A X} c k.

Fixpoint pbind {A B : Type} (p : Prog A) (f : A -> Prog B) : Prog B :=
  match p with
  | Ret a => f a
  | Vis c k => Vis c (fun x => pbind (k x) f)
  end.

(** The body of a [try] block that mutates the local dictionary [result]:
    state passing for the dictionary, a sum for the raised exception. *)
Definition M (A : Type) : Type := Dict -> Prog (Dict * (exn + A)).

Definition mret {A} (a : A) : M A := fun d => Ret (d, inr a).

Definition raise {A} (e : exn) : M A := fun d => Ret (d, inl e).

Definition mbind {A B} (m : M A) (f : A -> M B) : M B :=
  fun d => pbind (m d) (fun r =>
    match r.2 with
    | inl e => Ret (r.1, inl e)
    | inr a => f a r.1
    end).

Notation "'do' x <- m ; k" := (mbind m (fun x => k))
  (at level 10, x name, m at level 100, k at level 200,
   format "'[v' 'do'  x  <-  m ; '/' k ']'").

(** A command that cannot raise. *)
Definition call {X} (c : Cmd X) : M X := fun d => Vis c (fun x => Ret (d, inr x)).

(** [await] of a coroutine that returns or raises. *)
Definition await {A} (p : Prog (exn + A)) : M A :=
  fun d => pbind p (fun r => Ret (d, r)).

(** [await] of a coroutine that cannot raise, or a plain call. *)
Definition lift {A} (p : Prog A) : M A :=
  fun d => pbind p (fun a => Ret (d, inr a)).

(** [result[key] = v] *)
Definition set_item (key : string) (v : JVal) : M unit :=
  fun d => Ret (<[key := v]> d, inr tt).

(** ** The remote client *)

Definition is_already_processed (input_file : string) : Prog bool :=
  let output_file := path_join OUTPUT_FOLDER input_file in
  Vis (Exists output_file) Ret.

Definition submit_video_job : Prog (exn + JobResponse) :=
  Vis (Post API_EXPRESS_URL) (fun response =>
    match response with
    | inl e => Ret (inl e)
    | inr (status, response_data) =>
        if bool_decide (status ≠ 200)
        then Ret (inl ("API error: " +:+ pretty status +:+ " - " +:+ show_job response_data))
        else Ret (inr response_data)
    end).

Definition upload_video (file_path upload_url : string) : Prog (exn + bool) :=
  Vis (ReadFile file_path) (fun f =>
    match f with
    | inl e => Ret (inl e)
    | inr video_data =>
        Vis (Put upload_url video_data) (fun response =>
          match response with
          | inl e => Ret (inl e)
          | inr status => Ret (inr (bool_decide (status ∈ [200; 201; 204])))
          end)
    end).

Definition check_job_status (request_id : string) : Prog (exn + StatusResponse) :=
  let url := API_URL +:+ request_id +:+ "/status" in
  Vis (GetJson url) (fun response =>
    match response with
    | inl e => Ret (inl e)
    | inr (status, body) =>
        if bool_decide (status ≠ 200)
        then Ret (inl ("Status check failed: " +:+ pretty status))
        else Ret (inr body)
    end).

Definition download_result (download_url temp_file : string) : Prog (exn + bool) :=
  Vis (GetStream download_url) (fun response =>
    match response with
    | inl e => Ret (inl e)
    | inr (status, chunks) =>
        if bool_decide (status ≠ 200)
        then Ret (inr false)
        else Vis (WriteFile temp_file chunks) (fun w =>
               match w with
               | inl e => Ret (inl e)
               | inr _ => Ret (inr true)
               end)
    end).

(** ** The per-file runner *)

Definition max_wait : Z := 3600.
Definition wait_interval : Z := 10.

Definition in_progress_statuses : list string :=
  ["requested"; "accepted"; "initializing"; "preprocessing"; "processing";
   "postprocessing"].

(** The [while elapsed < max_wait] loop of [process_single_video]; [mret tt]
    is the [return result] inside the loop. *)
Equations? poll_loop (input_file request_id : string) (elapsed : Z) : M unit
  by wf (Z.to_nat (max_wait - elapsed)) lt :=
poll_loop input_file request_id elapsed with decide (elapsed < max_wait) := {
  | left _ =>
      do _ <- call (Sleep wait_interval);
      let elapsed := elapsed + wait_interval in
      do status_response <- await (check_job_status request_id);
      let status := sr_status status_response in
      if bool_decide (status = Some "complete") then
        let download_url := sr_download_url status_response in
        if negb (truthy download_url) then
          raise "No download URL in completed response"
        else
          do temp_uuid <- call Uuid4;
          let temp_file := path_join OUTPUT_FOLDER (temp_uuid +:+ ".mp4") in
          let final_file := path_join OUTPUT_FOLDER input_file in
          do _ <- call (Print "Downloading result...");
          do ok <- await (download_result (default "" download_url) temp_file);
          if ok : bool then
            do _ <- await (Vis (Rename temp_file final_file) Ret);
            do _ <- set_item "status" (JStr "success");
            do _ <- call (Incr Successful);
            do _ <- call (Print ("Success: " +:+ input_file));
            mret tt
          else raise "Download failed"
      else if bool_decide (status = Some "failed") then
        let error_msg := default "Unknown error" (sr_error status_response) in
        do _ <- call (Print ("Full API response: " +:+ show_status status_response));
        raise ("Job failed: " +:+ error_msg)
      else if bool_decide (status ∈ (Some <$> in_progress_statuses)) then
        let progress := default 0 (sr_progress status_response) in
        do _ <- call (Print ("Progress: " +:+ pretty progress +:+ "% - Status: "
                             +:+ show_opt status));
        poll_loop input_file request_id elapsed
      else
        do _ <- call (Print ("Status: " +:+ show_opt status));
        poll_loop input_file request_id elapsed
  | right _ => raise ("Timeout after " +:+ pretty max_wait +:+ "s") }.
Proof. all: unfold max_wait, wait_interval in *; lia. Qed.

(** The body of the [try] block of [process_single_video]. *)
Definition try_body (input_file : string) : M unit :=
  do processed <- lift (is_already_processed input_file);
  if processed : bool then
    do _ <- set_item "status" (JStr "skipped");
    do _ <- set_item "error" (JStr "Already processed");
    do _ <- call (Incr Skipped);
    do _ <- call (Print ("Skipped: " +:+ input_file +:+ " (already processed)"));
    mret tt
  else
    do _ <- call (Print ("Processing: " +:+ input_file));
    do job_response <- await submit_video_job;
    let request_id := requestId job_response in
    let upload_urls := uploadUrls job_response in
    do _ <- set_item "request_id" (jopt request_id);
    if negb (truthy request_id) then
      raise "No request ID received from API"
    else
      match upload_urls with
      | [] => raise "No upload URLs received from API"
      | upload_url :: _ =>
          do _ <- call (Print ("Job created: " +:+ show_opt request_id));
          do _ <- call (Print "Uploading video...");
          do uploaded <- await (upload_video (path_join INPUT_FOLDER input_file) upload_url);
          if negb uploaded then
            raise "Video upload failed"
          else
            do _ <- call (Print "Upload complete, processing started");
            poll_loop input_file (default "" request_id) 0
      end.

(** The dictionary [result] as first built by [process_single_video]. *)
Definition initial_result (input_file : string) (retry_count : Z)
    (timestamp : string) : Dict :=
  <["filename" := JStr input_file]> (
  <["status" := JStr "unknown"]> (
  <["request_id" := JNull]> (
  <["error" := JNull]> (
  <["retry_count" := JInt retry_count]> (
  <["timestamp" := JStr timestamp]> ∅))))).

Section Runner.

Context (cfg : Config).

(** [process_single_video]: the [try] block, and the [except] handler that
    either starts over with [retry_count + 1] or settles the failure.  Every
    [print] goes through here, so that the run always returns its result;
    [Fallible.process_single_video] below is the same function when a
    [print] can raise. *)
Equations? process_single_video (input_file : string) (retry_count : Z) : Prog Dict
  by wf (Z.to_nat (RETRY_LIMIT cfg - retry_count)) lt :=
process_single_video input_file retry_count :=
  Vis Now (fun timestamp =>
    let result := initial_result input_file retry_count timestamp in
    pbind (try_body input_file result) (fun r =>
      let result := r.1 in
      match r.2 with
      | inr _ => Ret result
      | inl error_msg =>
          Vis (Print ("Error: " +:+ input_file +:+ " - " +:+ error_msg)) (fun _ =>
            match decide (retry_count < RETRY_LIMIT cfg) with
            | left _ =>
                Vis (Print ("Retrying (" +:+ pretty (retry_count + 1) +:+ "/"
                            +:+ pretty (RETRY_LIMIT cfg) +:+ ")...")) (fun _ =>
                Vis (Sleep 5) (fun _ =>
                process_single_video input_file (retry_count + 1)))
            | right _ =>
                let result := <["status" := JStr "failed"]> result in
                let result := <["error" := JStr error_msg]> result in
                Vis (Incr Failed) (fun _ => Ret result)
            end)
      end)).
Proof. lia. Qed.

(** [async with self.semaphore: return await self.process_single_video(f)];
    the task ends with the returned dictionary ([inr]), or with an exception
    that escaped it ([inl]). *)
Definition process_video_with_semaphore (input_file : string) : Prog (exn + Dict) :=
  Vis Acquire (fun _ =>
    pbind (process_single_video input_file 0) (fun result =>
      Vis Release (fun _ => Ret (inr result)))).

End Runner.

(** ** Traces *)

(** A command together with the reply it received. *)
Inductive Event : Type :=
| ENow (t : string)
| EUuid4 (u : string)
| EExists (path : string) (b : bool)
| EPrint (msg : string)
| ESleep (secs : Z)
| EPost (url : string) (r : exn + Z * JobResponse)
| EReadFile (path : string) (r : exn + string)
| EPut (url data : string) (r : exn + Z)
| EGetJson (url : string) (r : exn + Z * StatusResponse)
| EGetStream (url : string) (r : exn + Z * list string)
| EWriteFile (path : string) (chunks : list string) (r : exn + unit)
| ERename (src dst : string) (r : exn + unit)
| EIncr (c : Counter)
| EAcquire
| ERelease
| ESaveLog (path : string) (snapshot : LogData)
| EEmit (msg : string) (r : exn + unit)
| EDump (path : string) (snapshot : LogData) (r : exn + unit).

#[global] Instance Event_eq_dec : EqDecision Event.
Proof. solve_decision. Defined.

Definition ev {X} (c : Cmd X) : X -> Event :=
  match c in Cmd X return X -> Event with
  | Now => ENow
  | Uuid4 => EUuid4
  | Exists p => EExists p
  | Print m => fun _ => EPrint m
  | Sleep n => fun _ => ESleep n
  | Post u => EPost u
  | ReadFile p => EReadFile p
  | Put u d => EPut u d
  | GetJson u => EGetJson u
  | GetStream u => EGetStream u
  | WriteFile p ch => EWriteFile p ch
  | Rename a b => ERename a b
  | Incr c => fun _ => EIncr c
  | Acquire => fun _ => EAcquire
  | Release => fun _ => ERelease
  | SaveLog p s => fun _ => ESaveLog p s
  | Emit m => EEmit m
  | Dump p s => EDump p s
  end.

(** The reply that event [e] carries for command [c], when [e] is an event
    of that very command. *)
Definition reply_of {X} (c : Cmd X) (e : Event) : option X :=
  match c in Cmd X return option X with
  | Now => match e with ENow t => Some t | _ => None end
  | Uuid4 => match e with EUuid4 u => Some u | _ => None end
  | Exists p =>
      match e with
      | EExists p' b => if decide (p' = p) then Some b else None
      | _ => None
      end
  | Print m =>
      match e with
      | EPrint m' => if decide (m' = m) then Some tt else None
      | _ => None
      end
  | Sleep n =>
      match e with
      | ESleep n' => if decide (n' = n) then Some tt else None
      | _ => None
      end
  | Post u =>
      match e with
      | EPost u' r => if decide (u' = u) then Some r else None
      | _ => None
      end
  | ReadFile p =>
      match e with
      | EReadFile p' r => if decide (p' = p) then Some r else None
      | _ => None
      end
  | Put u d =>
      match e with
      | EPut u' d' r => if decide (u' = u ∧ d' = d) then Some r else None
      | _ => None
      end
  | GetJson u =>
      match e with
      | EGetJson u' r => if decide (u' = u) then Some r else None
      | _ => None
      end
  | GetStream u =>
      match e with
      | EGetStream u' r => if decide (u' = u) then Some r else None
      | _ => None
      end
  | WriteFile p ch =>
      match e with
      | EWriteFile p' ch' r => if decide (p' = p ∧ ch' = ch) then Some r else None
      | _ => None
      end
  | Rename a b =>
      match e with
      | ERename a' b' r => if decide (a' = a ∧ b' = b) then Some r else None
      | _ => None
      end
  | Incr c =>
      match e with
      | EIncr c' => if decide (c' = c) then Some tt else None
      | _ => None
      end
  | Acquire => match e with EAcquire => Some tt | _ => None end
  | Release => match e with ERelease => Some tt | _ => None end
  | SaveLog p s =>
      match e with
      | ESaveLog p' s' => if decide (p' = p ∧ s' = s) then Some tt else None
      | _ => None
      end
  | Emit m =>
      match e with
      | EEmit m' r => if decide (m' = m) then Some r else None
      | _ => None
      end
  | Dump p s =>
      match e with
      | EDump p' s' r => if decide (p' = p ∧ s' = s) then Some r else None
      | _ => None
      end
  end.

(** [replay p tr] follows [p] along the events of [tr]; it returns the
    result of [p] and the events left over, or [None] when [tr] is not a
    behaviour of [p]. *)
Fixpoint replay {A} (p : Prog A) (tr : list Event) : option (A * list Event) :=
  match p with
  | Ret a => Some (a, tr)
  | Vis c k =>
      match tr with
      | [] => None
      | e :: tr' =>
          match reply_of c e with
          | Some x => replay (k x) tr'
          | None => None
          end
      end
  end.

(** [tr] is a complete execution of [p] with result [a]. *)
Definition accepts {A} (p : Prog A) (tr : list Event) (a : A) : Prop :=
  replay p tr = Some (a, []).

(** The result of [p] when [tr] is exactly one of its executions. *)
Definition complete {A} (p : Prog A) (tr : list Event) : option A :=
  match replay p tr with
  | Some (a, []) => Some a
  | _ => None
  end.

(** An environment answers the [n]-th command of an execution. *)
Definition Env : Type := nat -> forall X, Cmd X -> X.

(** [execute env n p]: the result and the trace of [p] when the environment
    [env] answers, the first command being number [n]. *)
Fixpoint execute {A} (env : Env) (n : nat) (p : Prog A) : A * list Event :=
  match p with
  | Ret a => (a, [])
  | Vis c k =>
      let x := env n _ c in
      let r := execute env (S n) (k x) in
      (r.1, ev c x :: r.2)
  end.

(** Every command can be answered. *)
Definition default_reply {X} (c : Cmd X) : X :=
  match c in Cmd X return X with
  | Now | Uuid4 => ""
  | Exists _ => false
  | Print _ | Sleep _ | Incr _ | Acquire | Release | SaveLog _ _ => tt
  | Post _ => inl ""
  | ReadFile _ => inl ""
  | Put _ _ => inl ""
  | GetJson _ => inl ""
  | GetStream _ => inl ""
  | WriteFile _ _ => inl ""
  | Rename _ _ => inl ""
  | Emit _ => inl ""
  | Dump _ _ => inl ""
  end.

(** [always p Q]: every execution of [p], whatever the replies, satisfies
    [Q] (its trace and its result). *)
Fixpoint always {A} (p : Prog A) (Q : list Event -> A -> Prop) : Prop :=
  match p with
  | Ret a => Q [] a
  | Vis c k => forall x, always (k x) (fun tr a => Q (ev c x :: tr) a)
  end.

(** ** The scheduler *)

(** A coroutine scheduled on the event loop: what remains of its program,
    and the events it has performed so far. *)
Record Task : Type := mkTask {
  code : Prog (exn + Dict);
  hist : list Event
}.

(** The state shared by the tasks: the value of [self.semaphore] and
    [self.log_data]. *)
Record Pool : Type := mkPool {
  semaphore : Z;
  log_data : LogData;
  tasks : list Task
}.

(** What an event does to the shared state.  [acquire] goes through only
    while the semaphore is positive; otherwise the task stays blocked. *)
Definition effect (e : Event) (sem : Z) (ld : LogData) : option (Z * LogData) :=
  match e with
  | EAcquire => if decide (0 < sem) then Some (sem - 1, ld) else None
  | ERelease => Some (sem + 1, ld)
  | EIncr c => Some (sem, incr c ld)
  | _ => Some (sem, ld)
  end.

(** A task performs its next command, with the reply carried by [e]. *)
Definition advance (t : Task) (e : Event) : option Task :=
  match code t with
  | Ret _ => None
  | Vis c k =>
      match reply_of c e with
      | Some x => Some (mkTask (k x) (hist t ++ [e]))
      | None => None
      end
  end.

(** Task [i] of the pool moves. *)
Definition pool_step (i : nat) (e : Event) (pool : Pool) : option Pool :=
  match tasks pool !! i with
  | Some t =>
      match advance t e with
      | Some t' =>
          match effect e (semaphore pool) (log_data pool) with
          | Some (sem, ld) => Some (mkPool sem ld (<[i := t']> (tasks pool)))
          | None => None
          end
      | None => None
      end
  | None => None
  end.

(** An interleaving: which task moves, and with which event. *)
Fixpoint pool_run (sched : list (nat * Event)) (pool : Pool) : option Pool :=
  match sched with
  | [] => Some pool
  | (i, e) :: sched' =>
      match pool_step i e pool with
      | Some pool' => pool_run sched' pool'
      | None => None
      end
  end.

(** The value a finished task returned ([inr]) or the exception that
    escaped it ([inl]). *)
Definition outcome (t : Task) : option (exn + Dict) :=
  match code t with
  | Ret r => Some r
  | Vis _ _ => None
  end.

Definition spawn (p : Prog (exn + Dict)) : Task := mkTask p [].

(** [asyncio.gather] with [return_exceptions=True], under the interleaving
    [sched]: all tasks run to completion, and their outcomes come back in
    the order of the tasks. *)
Definition gather (coros : list (Prog (exn + Dict))) (sched : list (nat * Event))
    (sem : Z) (ld : LogData) : option (list (exn + Dict) * Pool) :=
  pool ← pool_run sched (mkPool sem ld (spawn <$> coros));
  rs ← mapM outcome (tasks pool);
  Some (rs, pool).

(** The stand-in record for a task that ended with an exception. *)
Definition unknown_result (e : exn) (timestamp : string) : Dict :=
  <["filename" := JStr "unknown"]> (
  <["status" := JStr "failed"]> (
  <["error" := JStr e]> (
  <["timestamp" := JStr timestamp]> ∅))).

(** The [for result in results] loop of [process_all_videos]. *)
Fixpoint collect (rs : list (exn + Dict)) (ld : LogData) : Prog LogData :=
  match rs with
  | [] => Ret ld
  | inl e :: rs' =>
      Vis Now (fun timestamp =>
        let ld := append_result (unknown_result e timestamp) ld in
        let ld := incr Failed ld in
        collect rs' ld)
  | inr result :: rs' => collect rs' (append_result result ld)
  end.

Fixpoint print_all (lines : list string) : Prog unit :=
  match lines with
  | [] => Ret tt
  | l :: lines' => Vis (Print l) (fun _ => print_all lines')
  end.

(** [save_log] when the write of the ledger file and the [print] go
    through; [Fallible.save_log] below is the same function when they can
    raise. *)
Definition save_log (ld : LogData) : Prog unit :=
  Vis (SaveLog LOG_FILE ld) (fun _ =>
  Vis (Print ("Log saved to: " +:+ LOG_FILE)) Ret).

Definition show_jval (v : option JVal) : string :=
  match v with
  | Some (JStr s) => s
  | Some (JInt n) => pretty n
  | Some JNull | None => "None"
  end.

Definition failed_lines (rs : list Dict) : list string :=
  (fun result : Dict =>
     "   - " +:+ show_jval (result !! "filename") +:+ ": "
     +:+ show_jval (result !! "error"))
  <$> filter (fun result : Dict => result !! "status" = Some (JStr "failed")) rs.

Definition print_summary (ld : LogData) : Prog unit :=
  pbind (print_all
    ["============================================================";
     "PROCESSING SUMMARY";
     "============================================================";
     "Total videos:     " +:+ pretty (total_videos ld);
     "Successful:    " +:+ pretty (successful ld);
     "Failed:        " +:+ pretty (failed ld);
     "Skipped:       " +:+ pretty (skipped ld);
     "============================================================"])
  (fun _ =>
    if bool_decide (failed ld > 0)
    then print_all ("Failed videos:" :: failed_lines (results ld))
    else Ret tt).

(** [self.log_data] as built by [__init__]. *)
Definition initial_log_data (now : string) : LogData :=
  mkLogData now None 0 0 0 0 [].

(** The events of one batch: those of the main coroutine before the tasks
    are gathered, the interleaving of the tasks, and those of the main
    coroutine afterwards. *)
Record BatchTrace : Type := mkBatchTrace {
  main_before : list Event;
  runners : list (nat * Event);
  main_after : list Event
}.

Section Batch.

Context (cfg : Config).

(** What [process_all_videos] does once the tasks are gathered. *)
Definition settle (rs : list (exn + Dict)) (ld : LogData) : Prog LogData :=
  pbind (collect rs ld) (fun ld =>
  Vis Now (fun t =>
    let ld := set_end_time t ld in
    pbind (save_log ld) (fun _ =>
    pbind (print_summary ld) (fun _ => Ret ld)))).

Definition announce (video_files : list string) : Prog unit :=
  print_all
    ["Found " +:+ pretty (length video_files) +:+ " video(s) to process";
     "Max concurrent tasks: " +:+ pretty (MAX_CONCURRENT_TASKS cfg);
     "Retry limit: " +:+ pretty (RETRY_LIMIT cfg);
     "------------------------------------------------------------"].

(** [process_all_videos] on the discovered files [video_files], from the
    ledger [ld], when every write to the console and to the ledger file goes
    through: the ledger the batch ends with when [tr] is one of its
    behaviours, [None] when it is not.  [Fallible.process_all_videos] below
    is the same function when these writes can raise. *)
Definition process_all_videos (video_files : list string) (ld : LogData)
    (tr : BatchTrace) : option LogData :=
  let ld := set_total_videos (Z.of_nat (length video_files)) ld in
  match video_files with
  | [] =>
      match complete (Vis (Print "No video files found in input folder") Ret)
              (main_before tr), runners tr, main_after tr with
      | Some _, [], [] => Some ld
      | _, _, _ => None
      end
  | _ :: _ =>
      match complete (announce video_files) (main_before tr) with
      | Some _ =>
          match gather (process_video_with_semaphore cfg <$> video_files)
                  (runners tr) (MAX_CONCURRENT_TASKS cfg) ld with
          | Some (rs, pool) => complete (settle rs (log_data pool)) (main_after tr)
          | None => None
          end
      | None => None
      end
  end.

End Batch.

(** ** Observations on traces *)

(** The events of the scheduler and of the main coroutine, which no runner
    performs by itself. *)
Definition is_runner_event (e : Event) : bool :=
  match e with
  | EAcquire | ERelease | ESaveLog _ _ => false
  | _ => true
  end.

(** The counter increments of a trace, in order. *)
Fixpoint incrs (tr : list Event) : list Counter :=
  match tr with
  | [] => []
  | EIncr c :: tr' => c :: incrs tr'
  | _ :: tr' => incrs tr'
  end.

(** The status that goes with each counter. *)
Definition status_of (c : Counter) : string :=
  match c with
  | Successful => "success"
  | Failed => "failed"
  | Skipped => "skipped"
  end.

Definition runner_events (tr : list Event) : Prop :=
  Forall (fun e => is_runner_event e = true) tr.

(** A successful pass through the polling loop counts one success and marks
    the result; a failed one counts nothing and leaves the result alone. *)
Definition poll_wf (d : Dict) (tr : list Event) (r : Dict * (exn + unit)) : Prop :=
  runner_events tr /\
  match r.2 with
  | inr _ => incrs tr = [Successful] /\ r.1 = <["status" := JStr "success"]> d
  | inl _ => incrs tr = [] /\ r.1 = d
  end.

(** What one attempt does to the counters and to the result. *)
Definition try_wf (d : Dict) (tr : list Event) (r : Dict * (exn + unit)) : Prop :=
  runner_events tr /\
  (forall key, key ≠ "status" -> key ≠ "error" -> key ≠ "request_id" ->
     r.1 !! key = d !! key) /\
  is_Some (r.1 !! "request_id") /\
  match r.2 with
  | inr _ =>
      exists c, (c = Successful \/ c = Skipped) /\ incrs tr = [c] /\
        r.1 !! "status" = Some (JStr (status_of c)) /\ is_Some (r.1 !! "error")
  | inl _ =>
      incrs tr = [] /\ r.1 !! "status" = d !! "status" /\ r.1 !! "error" = d !! "error"
  end.

(** What a whole run of [process_single_video] does: it performs runner
    events only, bumps exactly one counter, and returns a dictionary with
    the six keys, whose status is the one of that counter. *)
Definition run_wf (cfg : Config) (f : string) (rc : Z) (tr : list Event)
    (res : Dict) : Prop :=
  runner_events tr /\
  exists c k ts,
    incrs tr = [c] /\
    res !! "status" = Some (JStr (status_of c)) /\
    res !! "filename" = Some (JStr f) /\
    res !! "retry_count" = Some (JInt k) /\
    rc <= k <= Z.max rc (RETRY_LIMIT cfg) /\
    res !! "timestamp" = Some (JStr ts) /\
    is_Some (res !! "error") /\
    is_Some (res !! "request_id").

(** ** Observations on the pool *)

(** Slots of the semaphore that a history holds: acquisitions that were not
    followed by a release. *)
Fixpoint held (tr : list Event) : Z :=
  match tr with
  | [] => 0
  | EAcquire :: tr' => 1 + held tr'
  | ERelease :: tr' => held tr' - 1
  | _ :: tr' => held tr'
  end.

Fixpoint total {A} (f : A -> Z) (l : list A) : Z :=
  match l with
  | [] => 0
  | a :: l' => f a + total f l'
  end.

(** A task is in flight from the moment it has entered [async with
    self.semaphore] until it leaves it. *)
Definition in_flight (t : Task) : bool :=
  bool_decide (EAcquire ∈ hist t) && negb (bool_decide (ERelease ∈ hist t)).

Definition is_post (e : Event) : bool :=
  match e with
  | EPost _ _ => true
  | _ => false
  end.

(** A task has a remote submission in flight when it has submitted a job
    and has not finished yet. *)
Definition has_open_submission (t : Task) : bool :=
  existsb is_post (hist t) && negb (bool_decide (is_Some (outcome t))).

Definition counter (c : Counter) (ld : LogData) : Z :=
  match c with
  | Successful => successful ld
  | Failed => failed ld
  | Skipped => skipped ld
  end.

(** Occurrences of counter [c] among the increments of a trace. *)
Definition bumps (c : Counter) (tr : list Event) : Z :=
  Z.of_nat (length (filter (fun c' => c' = c) (incrs tr))).

(** The continuation of [process_video_with_semaphore] once the runner has
    returned: leave the [async with] block, return the result. *)
Definition release_then_return (result : Dict) : Prog (exn + Dict) :=
  Vis Release (fun _ => Ret (inr result)).

(** [q] is what remains of [p] after the events [h]. *)
Definition residual {A} (p : Prog A) (h : list Event) (q : Prog A) : Prop :=
  forall tr a, accepts q tr a -> accepts p (h ++ tr) a.

(** The three stages of a task made by [process_video_with_semaphore]:
    waiting for a slot, running the per-file sequence inside its slot, and
    finished after releasing the slot. *)
Inductive task_stage (cfg : Config) (f : string) (t : Task) : Prop :=
| stage_waiting :
    hist t = [] ->
    code t = process_video_with_semaphore cfg f ->
    task_stage cfg f t
| stage_running h q :
    hist t = EAcquire :: h ->
    code t = pbind q release_then_return ->
    residual (process_single_video cfg f 0) h q ->
    task_stage cfg f t
| stage_finished h result :
    hist t = EAcquire :: h ++ [ERelease] ->
    code t = Ret (inr result) ->
    accepts (process_single_video cfg f 0) h result ->
    task_stage cfg f t.

(** Number of elements of a list that satisfy a test. *)
Definition number {A} (P : A -> bool) (l : list A) : Z :=
  total (fun a => if P a then 1 else 0) l.

Definition has_status (s : string) (d : Dict) : bool :=
  bool_decide (d !! "status" = Some (JStr s)).

(** The pool that [gather] starts from. *)
Definition initial_pool (cfg : Config) (video_files : list string) (ld : LogData) : Pool :=
  mkPool (MAX_CONCURRENT_TASKS cfg) ld
    (spawn <$> (process_video_with_semaphore cfg <$> video_files)).

(** ** Sample inputs *)

Definition sample_files : list string := ["a.mp4"; "b.mp4"; "c.mp4"].

(** Two tasks have entered their slot; the first one has checked the output
    folder and submitted its job. *)
Definition sample_schedule : list (nat * Event) :=
  [(0%nat, EAcquire); (1%nat, EAcquire); (0%nat, ENow "t1");
   (0%nat, EExists "output/a.mp4" false); (0%nat, EPrint "Processing: a.mp4");
   (0%nat, EPost API_EXPRESS_URL (inr (200, mkJobResponse (Some "r1") ["u1"] "{'requestId': 'r1', 'uploadUrls': ['u1']}")))].

(** ** The ledger *)

Definition is_exception (r : exn + Dict) : bool :=
  match r with
  | inl _ => true
  | inr _ => false
  end.

(** The record that the ledger receives for one gathered outcome: the
    returned dictionary itself, or the stand-in for an exception. *)
Definition entry_of (r : exn + Dict) (d : Dict) : Prop :=
  match r with
  | inr result => d = result
  | inl e => exists timestamp, d = unknown_result e timestamp
  end.

Definition is_save (e : Event) : bool :=
  match e with
  | ESaveLog _ _ => true
  | _ => false
  end.

(** The ledger [ld'] is [ld] with the records [entries] appended and
    [n] more failures counted. *)
Definition extends (ld : LogData) (entries : list Dict) (n : Z) (ld' : LogData) : Prop :=
  results ld' = results ld ++ entries /\
  failed ld' = failed ld + n /\
  successful ld' = successful ld /\
  skipped ld' = skipped ld /\
  total_videos ld' = total_videos ld /\
  start_time ld' = start_time ld /\
  end_time ld' = end_time ld.

(** ** Running a batch in sequence *)

Definition tagged (i : nat) (tr : list Event) : list (nat * Event) :=
  (fun e => (i, e)) <$> tr.

(** The interleaving in which the tasks run one after the other, each
    answered by [env]. *)
Fixpoint sequential_schedule (cfg : Config) (env : Env) (i : nat)
    (video_files : list string) : list (nat * Event) :=
  match video_files with
  | [] => []
  | f :: fs =>
      tagged i (execute env 0 (process_video_with_semaphore cfg f)).2
      ++ sequential_schedule cfg env (S i) fs
  end.

Definition sequential_batch (cfg : Config) (env : Env) (video_files : list string)
    (ld : LogData) : BatchTrace :=
  match video_files with
  | [] => mkBatchTrace [EPrint "No video files found in input folder"] [] []
  | _ :: _ =>
      let sched := sequential_schedule cfg env 0 video_files in
      mkBatchTrace
        (execute env 0 (announce cfg video_files)).2
        sched
        match gather (process_video_with_semaphore cfg <$> video_files) sched
                (MAX_CONCURRENT_TASKS cfg)
                (set_total_videos (Z.of_nat (length video_files)) ld) with
        | Some (rs, pool) => (execute env 0 (settle rs (log_data pool))).2
        | None => []
        end
  end.

(** An environment in which the output of [c.mp4] is already there, the
    upload of [b.mp4] is refused, and everything else goes well. *)
Definition sample_env : Env := fun n X c =>
  match c in Cmd X return X with
  | Now => "2024-01-01T00:00:00"
  | Uuid4 => "0a1b2c"
  | Exists p => bool_decide (p = "output/c.mp4")
  | Post _ => inr (200, mkJobResponse (Some "req-1") ["https://upload"]
                       "{'requestId': 'req-1', 'uploadUrls': ['https://upload']}")
  | ReadFile p => inr (if bool_decide (p = "input/b.mp4") then "corrupt" else "video")
  | Put _ d => inr (if bool_decide (d = "corrupt") then 500 else 200)
  | GetJson _ =>
      inr (200, mkStatusResponse (Some "complete") (Some 100) (Some "https://download") None)
  | GetStream _ => inr (200, ["chunk"])
  | WriteFile _ _ => inr tt
  | Rename _ _ => inr tt
  | Print _ | Sleep _ | Incr _ | Acquire | Release | SaveLog _ _ => tt
  | Emit _ | Dump _ _ => inr tt
  end.

Definition sample_batch : BatchTrace :=
  Eval vm_compute in
    sequential_batch module_config sample_env sample_files (initial_log_data "t0").

(** What a sequence of events does to the semaphore and to the ledger. *)
Fixpoint effects (tr : list Event) (sem : Z) (ld : LogData) : option (Z * LogData) :=
  match tr with
  | [] => Some (sem, ld)
  | e :: tr' =>
      match effect e sem ld with
      | Some (sem', ld') => effects tr' sem' ld'
      | None => None
      end
  end.

(** ** Observations on a run of the per-file sequence *)



(** The result of an attempt that found the output already there. *)
Definition skipped_result (d : Dict) : Dict :=
  <["error" := JStr "Already processed"]> (<["status" := JStr "skipped"]> d).


(** [tr] is a complete attempt on [f], number [rc], begun at [ts]: the body
    of the [try] block ran over [tr] and ended with the dictionary [d],
    normally ([inr]) or by raising ([inl]). *)
Definition attempt (f : string) (rc : Z) (ts : string) (tr : list Event)
    (d : Dict) (r : exn + unit) : Prop :=
  accepts (try_body f (initial_result f rc ts)) tr (d, r).

Definition error_line (f e : string) : string := "Error: " +:+ f +:+ " - " +:+ e.

Definition retry_line (cfg : Config) (rc : Z) : string :=
  "Retrying (" +:+ pretty (rc + 1) +:+ "/" +:+ pretty (RETRY_LIMIT cfg) +:+ ")...".

(** The result of a run whose last attempt raised [e]. *)
Definition failed_result (d : Dict) (e : exn) : Dict :=
  <["error" := JStr e]> (<["status" := JStr "failed"]> d).

(** ** Sample runs *)

(** The run of [c.mp4], whose output is already there. *)
Definition skipped_run : list Event :=
  Eval vm_compute in
    (execute sample_env 0 (process_single_video module_config "c.mp4" 0)).2.





(** The replies to the submissions of a trace, in order. *)
Fixpoint posts (tr : list Event) : list (exn + Z * JobResponse) :=
  match tr with
  | [] => []
  | EPost _ r :: tr' => r :: posts tr'
  | _ :: tr' => posts tr'
  end.

(** The [requestId] that a submission brought back, if any. *)
Definition submitted_id (r : exn + Z * JobResponse) : option string :=
  match r with
  | inr (_, job_response) => requestId job_response
  | inl _ => None
  end.

Definition status_url (request_id : string) : string :=
  API_URL +:+ request_id +:+ "/status".

(** Every status poll of the trace asks for the job of the latest
    submission before it; [cur] is the [requestId] current when the trace
    starts. *)
Fixpoint polls_follow (cur : option string) (tr : list Event) : Prop :=
  match tr with
  | [] => True
  | EPost _ r :: tr' => polls_follow (submitted_id r) tr'
  | EGetJson url _ :: tr' => cur = Some (default "" cur) /\
                             url = status_url (default "" cur) /\
                             polls_follow cur tr'
  | _ :: tr' => polls_follow cur tr'
  end.

(** What an attempt submits: nothing when it skips the file, one job
    otherwise; when it succeeds, the job is the one whose [requestId] the
    result carries. *)
Definition try_submits (tr : list Event) (r : Dict * (exn + unit)) : Prop :=
  (forall cur, polls_follow cur tr) /\
  match r.2 with
  | inl _ => exists rp, posts tr = [rp]
  | inr _ =>
      (posts tr = [] /\ r.1 !! "status" = Some (JStr "skipped")) \/
      (exists job_response request_id,
         posts tr = [inr (200, job_response)] /\
         requestId job_response = Some request_id /\
         r.1 !! "request_id" = Some (JStr request_id) /\
         r.1 !! "status" = Some (JStr "success"))
  end.








(** ** Observations on the polling loop *)

Definition is_poll (e : Event) : bool :=
  match e with
  | EGetJson _ _ => true
  | _ => false
  end.

Definition sleep_secs (e : Event) : Z :=
  match e with
  | ESleep n => n
  | _ => 0
  end.

(** Time spent waiting in a trace. *)
Definition total_sleep (tr : list Event) : Z := total sleep_secs tr.

(** One status poll per wait of [wait_interval]: in the trace every wait
    lasts [wait_interval] and is followed at once by a poll, and every poll
    follows a wait. *)
Fixpoint wait_then_poll (tr : list Event) : Prop :=
  match tr with
  | [] => True
  | ESleep n :: EGetJson _ _ :: tr' => n = wait_interval /\ wait_then_poll tr'
  | ESleep _ :: _ => False
  | EGetJson _ _ :: _ => False
  | _ :: tr' => wait_then_poll tr'
  end.

(** A poll that observed no terminal status: the service answered 200 with
    a status other than complete and failed.  Other events observe
    nothing. *)
Definition pending (e : Event) : bool :=
  match e with
  | EGetJson _ (inr (code, body)) =>
      bool_decide (code = 200)
      && negb (bool_decide (sr_status body = Some "complete"))
      && negb (bool_decide (sr_status body = Some "failed"))
  | EGetJson _ (inl _) => false
  | _ => true
  end.

(** The events by which a result file comes into being: naming the
    temporary file, downloading, writing, renaming. *)
Definition finalizes (e : Event) : bool :=
  match e with
  | EUuid4 _ | EGetStream _ _ | EWriteFile _ _ _ | ERename _ _ _ => true
  | _ => false
  end.

Definition timeout_error : string := "Timeout after 3600s".

(** The loop started at [elapsed]: its waits and polls alternate, it never
    waits beyond [max_wait], and when no poll observes a terminal status it
    waits up to [max_wait] exactly and raises the timeout, without touching
    any result file. *)
Definition poll_bounds (elapsed : Z) (d : Dict) (tr : list Event)
    (r : Dict * (exn + unit)) : Prop :=
  wait_then_poll tr /\
  total_sleep tr = wait_interval * number is_poll tr /\
  (elapsed <= max_wait -> (wait_interval | max_wait - elapsed) ->
     elapsed + total_sleep tr <= max_wait /\
     (Forall (fun e => pending e = true) tr ->
        r = (d, inl timeout_error) /\
        elapsed + total_sleep tr = max_wait /\
        Forall (fun e => finalizes e = false) tr)).

(** An environment in which the job never leaves the processing state. *)
Definition stalled_env : Env := fun n X c =>
  match c in Cmd X return X with
  | Now => "2024-01-01T00:00:00"
  | Uuid4 => "0a1b2c"
  | Exists _ => false
  | Post _ => inr (200, mkJobResponse (Some "req-1") ["https://upload"]
                       "{'requestId': 'req-1', 'uploadUrls': ['https://upload']}")
  | ReadFile _ => inr "video"
  | Put _ _ => inr 200
  | GetJson _ => inr (200, mkStatusResponse (Some "processing") (Some 50) None None)
  | GetStream _ => inl "unreachable"
  | WriteFile _ _ => inr tt
  | Rename _ _ => inr tt
  | Print _ | Sleep _ | Incr _ | Acquire | Release | SaveLog _ _ => tt
  | Emit _ | Dump _ _ => inr tt
  end.



(** ** Observations on the completion of a job *)






(** A run of [a.mp4] in which the first poll is answered [complete]. *)
Definition complete_run : Dict * list Event :=
  Eval vm_compute in execute sample_env 0 (process_single_video module_config "a.mp4" 0).

(** ** Observations on the progress reported by a poll *)











(** ** Observations on the answers of the service *)












(** ** Observations on whole runs *)

(** The run of [a.mp4] when the job never leaves the processing state. *)
Definition stalled_run : Dict * list Event :=
  Eval vm_compute in
    execute stalled_env 0 (process_single_video module_config "a.mp4" 0).

(** What an attempt that returns leaves in the result: either the file was
    skipped, or it succeeded with the identifier of its job. *)
Definition try_fields (d : Dict) (r : Dict * (exn + unit)) : Prop :=
  match r.2 with
  | inr _ =>
      (r.1 !! "status" = Some (JStr "skipped") /\
       r.1 !! "error" = Some (JStr "Already processed") /\
       r.1 !! "request_id" = d !! "request_id") \/
      (r.1 !! "status" = Some (JStr "success") /\
       r.1 !! "error" = d !! "error" /\
       exists request_id, request_id <> "" /\
                          r.1 !! "request_id" = Some (JStr request_id))
  | inl _ => True
  end.

(** ** Observations on the scheduler *)

(** The module with a semaphore of no slot. *)
Definition no_slot_config : Config :=
  {| MAX_CONCURRENT_TASKS := 0; RETRY_LIMIT := 1 |}.

(** The interleaving of a batch over [c.mp4] alone, whose output is there. *)
Definition skip_schedule : list (nat * Event) :=
  (fun e => (0%nat, e)) <$> (EAcquire :: skipped_run ++ [ERelease]).

(** * The batch when the console and the ledger file can fail *)

(** The definitions above take every [print] and the write of the ledger to
    succeed.  Here the same functions are embedded again with these two
    writes as they are in the source: a [print] can raise, inside the [try]
    block (the exception is then handled like any other) and inside the
    [except] handler (the exception then leaves [process_single_video]), and
    so can the write of the ledger file. *)
Module Fallible.

(** [print(msg)] inside the [try] block *)
Definition say (msg : string) : M unit := await (Vis (Emit msg) Ret).

(** Sequencing outside of any [try] block: an exception ends the rest. *)
Definition and_then {A B} (p : Prog (exn + A)) (k : A -> Prog (exn + B)) : Prog (exn + B) :=
  pbind p (fun r =>
    match r with
    | inl e => Ret (inl e)
    | inr a => k a
    end).

(** The [while elapsed < max_wait] loop of [process_single_video]. *)
Equations? poll_loop (input_file request_id : string) (elapsed : Z) : M unit
  by wf (Z.to_nat (max_wait - elapsed)) lt :=
poll_loop input_file request_id elapsed with decide (elapsed < max_wait) := {
  | left _ =>
      do _ <- call (Sleep wait_interval);
      let elapsed := elapsed + wait_interval in
      do status_response <- await (check_job_status request_id);
      let status := sr_status status_response in
      if bool_decide (status = Some "complete") then
        let download_url := sr_download_url status_response in
        if negb (truthy download_url) then
          raise "No download URL in completed response"
        else
          do temp_uuid <- call Uuid4;
          let temp_file := path_join OUTPUT_FOLDER (temp_uuid +:+ ".mp4") in
          let final_file := path_join OUTPUT_FOLDER input_file in
          do _ <- say "Downloading result...";
          do ok <- await (download_result (default "" download_url) temp_file);
          if ok : bool then
            do _ <- await (Vis (Rename temp_file final_file) Ret);
            do _ <- set_item "status" (JStr "success");
            do _ <- call (Incr Successful);
            do _ <- say ("Success: " +:+ input_file);
            mret tt
          else raise "Download failed"
      else if bool_decide (status = Some "failed") then
        let error_msg := default "Unknown error" (sr_error status_response) in
        do _ <- say ("Full API response: " +:+ show_status status_response);
        raise ("Job failed: " +:+ error_msg)
      else if bool_decide (status ∈ (Some <$> in_progress_statuses)) then
        let progress := default 0 (sr_progress status_response) in
        do _ <- say ("Progress: " +:+ pretty progress +:+ "% - Status: "
                     +:+ show_opt status);
        poll_loop input_file request_id elapsed
      else
        do _ <- say ("Status: " +:+ show_opt status);
        poll_loop input_file request_id elapsed
  | right _ => raise ("Timeout after " +:+ pretty max_wait +:+ "s") }.
Proof. all: unfold max_wait, wait_interval in *; lia. Qed.

(** The body of the [try] block of [process_single_video]. *)
Definition try_body (input_file : string) : M unit :=
  do processed <- lift (is_already_processed input_file);
  if processed : bool then
    do _ <- set_item "status" (JStr "skipped");
    do _ <- set_item "error" (JStr "Already processed");
    do _ <- call (Incr Skipped);
    do _ <- say ("Skipped: " +:+ input_file +:+ " (already processed)");
    mret tt
  else
    do _ <- say ("Processing: " +:+ input_file);
    do job_response <- await submit_video_job;
    let request_id := requestId job_response in
    let upload_urls := uploadUrls job_response in
    do _ <- set_item "request_id" (jopt request_id);
    if negb (truthy request_id) then
      raise "No request ID received from API"
    else
      match upload_urls with
      | [] => raise "No upload URLs received from API"
      | upload_url :: _ =>
          do _ <- say ("Job created: " +:+ show_opt request_id);
          do _ <- say "Uploading video...";
          do uploaded <- await (upload_video (path_join INPUT_FOLDER input_file) upload_url);
          if negb uploaded then
            raise "Video upload failed"
          else
            do _ <- say "Upload complete, processing started";
            poll_loop input_file (default "" request_id) 0
      end.

Section Runner.

Context (cfg : Config).

(** [process_single_video]: it returns the result ([inr]), or ends with the
    exception that a [print] of the [except] handler raised ([inl]). *)
Equations? process_single_video (input_file : string) (retry_count : Z)
    : Prog (exn + Dict)
  by wf (Z.to_nat (RETRY_LIMIT cfg - retry_count)) lt :=
process_single_video input_file retry_count :=
  Vis Now (fun timestamp =>
    let result := initial_result input_file retry_count timestamp in
    pbind (try_body input_file result) (fun r =>
      let result := r.1 in
      match r.2 with
      | inr _ => Ret (inr result)
      | inl error_msg =>
          and_then (Vis (Emit ("Error: " +:+ input_file +:+ " - " +:+ error_msg)) Ret)
            (fun _ =>
               match decide (retry_count < RETRY_LIMIT cfg) with
               | left _ =>
                   and_then
                     (Vis (Emit ("Retrying (" +:+ pretty (retry_count + 1) +:+ "/"
                                 +:+ pretty (RETRY_LIMIT cfg) +:+ ")...")) Ret)
                     (fun _ =>
                        Vis (Sleep 5) (fun _ =>
                        process_single_video input_file (retry_count + 1)))
               | right _ =>
                   let result := <["status" := JStr "failed"]> result in
                   let result := <["error" := JStr error_msg]> result in
                   Vis (Incr Failed) (fun _ => Ret (inr result))
               end)
      end)).
Proof. lia. Qed.

(** [async with self.semaphore: return await self.process_single_video(f)]:
    the slot is given back whether the runner returns or raises. *)
Definition process_video_with_semaphore (input_file : string) : Prog (exn + Dict) :=
  Vis Acquire (fun _ =>
    pbind (process_single_video input_file 0) (fun outcome =>
      Vis Release (fun _ => Ret outcome))).

Fixpoint print_all (lines : list string) : Prog (exn + unit) :=
  match lines with
  | [] => Ret (inr tt)
  | l :: lines' => and_then (Vis (Emit l) Ret) (fun _ => print_all lines')
  end.

Definition save_log (ld : LogData) : Prog (exn + unit) :=
  and_then (Vis (Dump LOG_FILE ld) Ret) (fun _ =>
  Vis (Emit ("Log saved to: " +:+ LOG_FILE)) Ret).

(** The lines that [print_summary] always prints. *)
Definition summary_lines (ld : LogData) : list string :=
  ["============================================================";
   "PROCESSING SUMMARY";
   "============================================================";
   "Total videos:     " +:+ pretty (total_videos ld);
   "Successful:    " +:+ pretty (successful ld);
   "Failed:        " +:+ pretty (failed ld);
   "Skipped:       " +:+ pretty (skipped ld);
   "============================================================"].

Definition print_summary (ld : LogData) : Prog (exn + unit) :=
  and_then (print_all (summary_lines ld)) (fun _ =>
    if bool_decide (failed ld > 0)
    then print_all ("Failed videos:" :: failed_lines (results ld))
    else Ret (inr tt)).

(** What [process_all_videos] does once the tasks are gathered. *)
Definition settle (rs : list (exn + Dict)) (ld : LogData) : Prog (exn + LogData) :=
  pbind (collect rs ld) (fun ld =>
  Vis Now (fun t =>
    let ld := set_end_time t ld in
    and_then (save_log ld) (fun _ =>
    and_then (print_summary ld) (fun _ => Ret (inr ld))))).

Definition announce (video_files : list string) : Prog (exn + unit) :=
  print_all
    ["Found " +:+ pretty (length video_files) +:+ " video(s) to process";
     "Max concurrent tasks: " +:+ pretty (MAX_CONCURRENT_TASKS cfg);
     "Retry limit: " +:+ pretty (RETRY_LIMIT cfg);
     "------------------------------------------------------------"].

(** [process_all_videos] on the discovered files [video_files], from the
    ledger [ld]: when [tr] is one of its behaviours, the ledger it returns
    with ([inr]) or the exception that leaves it ([inl]); [None] when [tr]
    is not one of its behaviours. *)
Definition process_all_videos (video_files : list string) (ld : LogData)
    (tr : BatchTrace) : option (exn + LogData) :=
  let ld := set_total_videos (Z.of_nat (length video_files)) ld in
  match video_files with
  | [] =>
      match complete (Vis (Emit "No video files found in input folder") Ret)
              (main_before tr), runners tr, main_after tr with
      | Some (inr _), [], [] => Some (inr ld)
      | Some (inl e), [], [] => Some (inl e)
      | _, _, _ => None
      end
  | _ :: _ =>
      match complete (announce video_files) (main_before tr) with
      | Some (inr _) =>
          match gather (process_video_with_semaphore <$> video_files)
                  (runners tr) (MAX_CONCURRENT_TASKS cfg) ld with
          | Some (rs, pool) => complete (settle rs (log_data pool)) (main_after tr)
          | None => None
          end
      | Some (inl e) =>
          match runners tr, main_after tr with
          | [], [] => Some (inl e)
          | _, _ => None
          end
      | None => None
      end
  end.

End Runner.

End Fallible.

(** ** Observations on the batch with fallible writes *)

(** A task makes one move. *)
Definition tasks_step (ts' ts : list Task) : Prop :=
  exists i t e t', ts !! i = Some t /\ advance t e = Some t' /\ ts' = <[i := t']> ts.

(** The pool [pool'] is one move of some task after [pool]. *)
Definition pool_next (pool' pool : Pool) : Prop :=
  exists i e, pool_step i e pool = Some pool'.

(** The events that the runner of a file performs by itself: neither the
    semaphore nor the ledger file. *)
Definition is_inner (e : Event) : bool :=
  match e with
  | EAcquire | ERelease | ESaveLog _ _ | EDump _ _ _ => false
  | _ => true
  end.

(** The six fields of the result of a run on [f]. *)
Definition run_fields (f : string) (d : Dict) : Prop :=
  d !! "filename" = Some (JStr f) /\
  (exists s, d !! "status" = Some (JStr s)) /\
  is_Some (d !! "request_id") /\
  is_Some (d !! "error") /\
  (exists k, d !! "retry_count" = Some (JInt k)) /\
  (exists ts, d !! "timestamp" = Some (JStr ts)).

(** The stand-in record of a task that raised: no retry count, no request
    identifier. *)
Definition is_stand_in (d : Dict) : Prop :=
  exists e timestamp,
    d = unknown_result e timestamp /\
    d !! "retry_count" = None /\ d !! "request_id" = None.

(** What an attempt leaves of the dictionary [d] it started from: the keys
    other than status, error and request id are untouched, and these three
    stay present with a status that stays a string. *)
Definition attempt_keeps (d : Dict) (tr : list Event) (r : Dict * (exn + unit)) : Prop :=
  Forall (fun e => is_inner e = true) tr /\
  (forall key, key <> "status" -> key <> "error" -> key <> "request_id" ->
     r.1 !! key = d !! key) /\
  (is_Some (d !! "request_id") -> is_Some (r.1 !! "request_id")) /\
  (is_Some (d !! "error") -> is_Some (r.1 !! "error")) /\
  ((exists s, d !! "status" = Some (JStr s)) -> exists s, r.1 !! "status" = Some (JStr s)).

(** What a run on [f] does and returns. *)
Definition run_keeps (f : string) (tr : list Event) (r : exn + Dict) : Prop :=
  Forall (fun e => is_inner e = true) tr /\
  match r with
  | inr result => run_fields f result
  | inl _ => True
  end.

(** The continuation of [process_video_with_semaphore] once the runner has
    ended: leave the [async with] block with its outcome. *)
Definition release_outcome (outcome : exn + Dict) : Prog (exn + Dict) :=
  Vis Release (fun _ => Ret outcome).

(** The three stages of a task: waiting for a slot, inside its slot and
    somewhere in a run of [process_single_video], finished after giving the
    slot back, with what the run returned or raised. *)
Inductive io_stage (cfg : Config) (f : string) (t : Task) : Prop :=
| io_waiting :
    hist t = [] ->
    code t = Fallible.process_video_with_semaphore cfg f ->
    io_stage cfg f t
| io_running h q :
    hist t = EAcquire :: h ->
    code t = pbind q release_outcome ->
    residual (Fallible.process_single_video cfg f 0) h q ->
    io_stage cfg f t
| io_finished h r :
    hist t = EAcquire :: h ++ [ERelease] ->
    code t = Ret r ->
    accepts (Fallible.process_single_video cfg f 0) h r ->
    io_stage cfg f t.

(** The pool that [gather] starts from. *)
Definition io_pool (cfg : Config) (video_files : list string) (ld : LogData) : Pool :=
  mkPool (MAX_CONCURRENT_TASKS cfg) ld
    (spawn <$> (Fallible.process_video_with_semaphore cfg <$> video_files)).

(** Every task of the pool has ended. *)
Definition all_finished (pool : Pool) : Prop :=
  Forall (fun t => is_Some (outcome t)) (tasks pool).

(** The events of lines that were all printed. *)
Definition emitted (lines : list string) : list Event :=
  (fun l => EEmit l (inr tt)) <$> lines.

(** [tr] is a behaviour of printing [lines] one after the other: either all
    of them were printed, or the printing stopped at the first line whose
    [print] raised. *)
Definition printed (lines : list string) (tr : list Event) (r : exn + unit) : Prop :=
  (r = inr tt /\ tr = emitted lines) \/
  (exists pre l post e,
     lines = pre ++ l :: post /\ tr = emitted pre ++ [EEmit l (inl e)] /\ r = inl e).

(** Everything that [print_summary] prints for the ledger [ld]. *)
Definition report_lines (ld : LogData) : list string :=
  Fallible.summary_lines ld
  ++ (if bool_decide (failed ld > 0)
      then "Failed videos:" :: failed_lines (results ld)
      else []).

Definition announce_lines (cfg : Config) (video_files : list string) : list string :=
  ["Found " +:+ pretty (length video_files) +:+ " video(s) to process";
   "Max concurrent tasks: " +:+ pretty (MAX_CONCURRENT_TASKS cfg);
   "Retry limit: " +:+ pretty (RETRY_LIMIT cfg);
   "------------------------------------------------------------"].

(** What [process_all_videos] does over [tr] once the outcomes [rs] are
    gathered, from the ledger [ld]: one record per outcome, the end time,
    one write of the ledger, and then the report, unless the write raises;
    [out] is the ledger returned or the exception that ends it. *)
Definition settled (rs : list (exn + Dict)) (ld : LogData) (tr : list Event)
    (out : exn + LogData) : Prop :=
  exists entries ld1 ts stamps r rest,
    Forall2 entry_of rs entries /\
    extends ld entries (number is_exception rs) ld1 /\
    tr = (ENow <$> stamps)
         ++ ENow ts :: EDump LOG_FILE (set_end_time ts ld1) r :: rest /\
    Z.of_nat (length stamps) = number is_exception rs /\
    match r with
    | inl e => rest = [] /\ out = inl e
    | inr _ =>
        exists pr,
          printed (("Log saved to: " +:+ LOG_FILE) :: report_lines (set_end_time ts ld1))
            rest pr /\
          out = match pr with
                | inl e => inl e
                | inr _ => inr (set_end_time ts ld1)
                end
    end.

Definition is_dump (e : Event) : bool :=
  match e with
  | EDump _ _ _ => true
  | _ => false
  end.

(** Number of times the write of the ledger is attempted during a batch, by
    anyone. *)
Definition dumps (tr : BatchTrace) : Z :=
  number is_dump (main_before tr)
  + number (fun ie : nat * Event => is_dump ie.2) (runners tr)
  + number is_dump (main_after tr).

(** A write to the console or to the ledger file that raised is a failed
    write; every other event is fine. *)
Definition write_ok (e : Event) : bool :=
  match e with
  | EEmit _ (inl _) | EDump _ _ (inl _) => false
  | _ => true
  end.

Definition writes_ok (tr : list Event) : Prop := Forall (fun e => write_ok e = true) tr.

(** What one attempt does to the counters: when it returns, it has counted
    once, the counter of the status it leaves; when it raises, it has
    counted nothing unless a [print] failed under it. *)
Definition attempt_counts (tr : list Event) (r : Dict * (exn + unit)) : Prop :=
  match r.2 with
  | inr _ => exists c, incrs tr = [c] /\ r.1 !! "status" = Some (JStr (status_of c))
  | inl _ => writes_ok tr -> incrs tr = []
  end.

(** What a run does to the counters: when it returns, the last thing it
    counted is the status of its result, and it counted nothing before
    unless a [print] failed under it; it raises only when a [print] failed
    under it. *)
Definition run_counts (tr : list Event) (r : exn + Dict) : Prop :=
  match r with
  | inr result =>
      exists pre c,
        incrs tr = pre ++ [c] /\
        result !! "status" = Some (JStr (status_of c)) /\
        (writes_ok tr -> pre = [])
  | inl _ => ~ writes_ok tr
  end.

(** What the outcome [r] of a task contributes to the records of status
    [status_of c], when it is a returned result. *)
Definition counted (c : Counter) (r : exn + Dict) : Z :=
  match r with
  | inr result => if has_status (status_of c) result then 1 else 0
  | inl _ => 0
  end.

(** The record of the ledger for the file [f]: the result that a complete
    run of [process_single_video] on [f] returned, or the stand-in for the
    exception that such a run raised. *)
Definition record_of (cfg : Config) (f : string) (d : Dict) : Prop :=
  (exists h, accepts (Fallible.process_single_video cfg f 0) h (inr d)) \/
  (exists h e timestamp,
     accepts (Fallible.process_single_video cfg f 0) h (inl e) /\
     d = unknown_result e timestamp).

(** The ledger [ld'] of a batch over [files] that started at [now], once
    the outcomes of the interleaving [sched] are recorded. *)
Definition batch_ledger (cfg : Config) (files : list string) (now : string)
    (sched : list (nat * Event)) (ld' : LogData) : Prop :=
  Forall2 (record_of cfg) files (results ld') /\
  total_videos ld' = Z.of_nat (length files) /\
  start_time ld' = now /\
  (forall c, number (has_status (status_of c)) (results ld') <= counter c ld') /\
  Z.of_nat (length files) <= successful ld' + failed ld' + skipped ld' /\
  (Forall (fun ie : nat * Event => write_ok ie.2 = true) sched ->
   Forall2 (fun f d => exists h, accepts (Fallible.process_single_video cfg f 0) h (inr d))
     files (results ld') /\
   (forall c, counter c ld' = number (has_status (status_of c)) (results ld')) /\
   successful ld' + failed ld' + skipped ld' = Z.of_nat (length files)).

(** Task [i] of the pool can perform its next command, whatever the
    environment replies to it. *)
Definition enabled (i : nat) (pool : Pool) : Prop :=
  exists t X (c : Cmd X) (k : X -> Prog (exn + Dict)),
    tasks pool !! i = Some t /\ code t = Vis c k /\
    forall x : X, is_Some (pool_step i (ev c x) pool).

(** The batch whose tasks follow the interleaving [sched] and whose main
    coroutine announces the files without failure and ends with the events
    [after]. *)
Definition batch_over (cfg : Config) (video_files : list string)
    (sched : list (nat * Event)) (after : list Event) : BatchTrace :=
  mkBatchTrace (emitted (announce_lines cfg video_files)) sched after.

(** ** Sample batches with failing writes *)

(** The text of the exception that [print] raises for a file name that the
    console cannot encode. *)
Definition encode_error : exn := "surrogates not allowed".

(** One file, [a.mp4], whose output is already there, on a console that
    refuses the name of the file: the line that reports the skip raises
    after the skip was counted, and the line of the handler that reports
    this error raises as well, so the exception leaves the runner. *)
Definition refused_name_run : list Event :=
  [ENow "t1"; EExists "output/a.mp4" true; EIncr Skipped;
   EEmit "Skipped: a.mp4 (already processed)" (inl encode_error);
   EEmit "Error: a.mp4 - surrogates not allowed" (inl encode_error)].

Definition refused_name_ledger : LogData :=
  mkLogData "t0" (Some "t3") 1 0 1 1 [unknown_result encode_error "t2"].

Definition refused_name_batch : BatchTrace :=
  batch_over module_config ["a.mp4"]
    (tagged 0 (EAcquire :: refused_name_run ++ [ERelease]))
    ([ENow "t2"; ENow "t3"; EDump LOG_FILE refused_name_ledger (inr tt)]
     ++ emitted (("Log saved to: " +:+ LOG_FILE) :: report_lines refused_name_ledger)).

(** Two files: the run on [a.mp4] ends with the exception above, and the
    run on [b.mp4] cannot reach the service, in its first attempt and in its
    retry. *)
Definition unreachable_run : list Event :=
  [ENow "t1"; EExists "output/b.mp4" false; EEmit "Processing: b.mp4" (inr tt);
   EPost API_EXPRESS_URL (inl "Cannot connect to host");
   EEmit "Error: b.mp4 - Cannot connect to host" (inr tt);
   EEmit "Retrying (1/1)..." (inr tt); ESleep 5;
   ENow "t2"; EExists "output/b.mp4" false; EEmit "Processing: b.mp4" (inr tt);
   EPost API_EXPRESS_URL (inl "Cannot connect to host");
   EEmit "Error: b.mp4 - Cannot connect to host" (inr tt);
   EIncr Failed].

Definition unreachable_result : Dict :=
  <["error" := JStr "Cannot connect to host"]> (
  <["status" := JStr "failed"]> (initial_result "b.mp4" 1 "t2")).

Definition escaped_ledger : LogData :=
  mkLogData "t0" (Some "t4") 2 0 2 1
    [unknown_result encode_error "t3"; unreachable_result].

Definition escaped_schedule : list (nat * Event) :=
  [(0%nat, EAcquire); (1%nat, EAcquire)]
  ++ tagged 1 (take 7 unreachable_run)
  ++ tagged 0 (refused_name_run ++ [ERelease])
  ++ tagged 1 (drop 7 unreachable_run ++ [ERelease]).

Definition escaped_batch : BatchTrace :=
  batch_over module_config ["a.mp4"; "b.mp4"] escaped_schedule
    ([ENow "t3"; ENow "t4"; EDump LOG_FILE escaped_ledger (inr tt)]
     ++ emitted (("Log saved to: " +:+ LOG_FILE) :: report_lines escaped_ledger)).

(** One file, whose output is already there, and a disk on which the
    ledger cannot be written. *)
Definition full_disk_ledger : LogData :=
  mkLogData "t0" (Some "t2") 1 0 0 1
    [skipped_result (initial_result "a.mp4" 0 "t1")].

Definition full_disk_batch : BatchTrace :=
  batch_over module_config ["a.mp4"]
    (tagged 0 [EAcquire; ENow "t1"; EExists "output/a.mp4" true; EIncr Skipped;
               EEmit "Skipped: a.mp4 (already processed)" (inr tt); ERelease])
    [ENow "t2"; EDump LOG_FILE full_disk_ledger (inl "No space left on device")].

(** The batch that finds no file. *)
Definition no_file_batch : BatchTrace :=
  mkBatchTrace [EEmit "No video files found in input folder" (inr tt)] [] [].

(** The lines that were printed during a sequence of events. *)
Definition lines_of (tr : list Event) : list string :=
  omap (fun e => match e with EEmit l (inr _) => Some l | _ => None end) tr.



(** * Properties *)

(** ** Events and replies *)

Lemma reply_of_ev {X} (c : Cmd X) (x : X) : reply_of c (ev c x) = Some x.
Proof.
  destruct c; simpl; try destruct x; try reflexivity;
    try (rewrite decide_True by done; reflexivity).
Qed.

Lemma reply_of_Some {X} (c : Cmd X) (e : Event) (x : X) :
  reply_of c e = Some x -> e = ev c x.
Proof.
  destruct c; destruct e; simpl; try discriminate;
    try (case_decide; [|discriminate]); intros [= <-]; subst;
    try destruct x; try reflexivity;
    repeat match goal with H : _ ∧ _ |- _ => destruct H; subst end; reflexivity.
Qed.

(** ** Replaying a trace *)

Lemma replay_Vis {A X} (c : Cmd X) (k : X -> Prog A) tr r :
  replay (Vis c k) tr = Some r <->
  exists x tr', tr = ev c x :: tr' /\ replay (k x) tr' = Some r.
Proof.
  simpl. split.
  - destruct tr as [|e tr']; [discriminate|].
    destruct (reply_of c e) as [x|] eqn:He; [|discriminate].
    apply reply_of_Some in He. subst e. eauto.
  - intros (x & tr' & -> & H). rewrite reply_of_ev. exact H.
Qed.

Lemma replay_pbind {A B} (p : Prog A) (f : A -> Prog B) tr :
  replay (pbind p f) tr =
  match replay p tr with
  | Some (a, rest) => replay (f a) rest
  | None => None
  end.
Proof.
  revert tr. induction p as [a|X c k IH]; intros tr; simpl; [reflexivity|].
  destruct tr as [|e tr']; [reflexivity|].
  destruct (reply_of c e); [apply IH|reflexivity].
Qed.

(** What a replay does not consume is a suffix that it never looks at. *)
Lemma replay_split {A} (p : Prog A) tr a rest :
  replay p tr = Some (a, rest) ->
  exists pre, tr = pre ++ rest /\ forall rest', replay p (pre ++ rest') = Some (a, rest').
Proof.
  revert tr. induction p as [a'|X c k IH]; intros tr; simpl.
  - intros [= -> ->]. exists []. split; reflexivity.
  - destruct tr as [|e tr']; [discriminate|].
    destruct (reply_of c e) as [x|] eqn:He; [|discriminate].
    intros H. destruct (IH _ _ H) as (pre & -> & Hpre).
    exists (e :: pre). split; [reflexivity|]. intros rest'. simpl.
    rewrite He. apply Hpre.
Qed.

Lemma complete_Some {A} (p : Prog A) tr a :
  complete p tr = Some a <-> accepts p tr a.
Proof.
  unfold complete, accepts. destruct (replay p tr) as [[a' [|e rest]]|]; split;
    intros H; try discriminate; congruence.
Qed.

(** The trace that [execute] returns is an execution of the program. *)
Lemma execute_replay {A} (env : Env) n (p : Prog A) rest :
  replay p ((execute env n p).2 ++ rest) = Some ((execute env n p).1, rest).
Proof.
  revert n. induction p as [a|X c k IH]; intros n; simpl; [reflexivity|].
  rewrite reply_of_ev. apply IH.
Qed.

Lemma execute_accepts {A} (env : Env) n (p : Prog A) :
  accepts p (execute env n p).2 (execute env n p).1.
Proof.
  unfold accepts. rewrite <- (app_nil_r (execute env n p).2) at 1.
  apply execute_replay.
Qed.

(** ** [always] *)

Lemma always_mono {A} (p : Prog A) (Q Q' : list Event -> A -> Prop) :
  (forall tr a, Q tr a -> Q' tr a) -> always p Q -> always p Q'.
Proof.
  revert Q Q'. induction p as [a|X c k IH]; intros Q Q' HQ; simpl; [apply HQ|].
  intros H x. eapply IH; [|apply H]. simpl. intros tr a. apply HQ.
Qed.

Lemma always_trivial {A} (p : Prog A) (Q : list Event -> A -> Prop) :
  (forall tr a, Q tr a) -> always p Q.
Proof.
  revert Q. induction p as [a|X c k IH]; intros Q HQ; simpl; [apply HQ|].
  intros x. apply IH. intros tr a. apply HQ.
Qed.

Lemma always_and {A} (p : Prog A) (Q Q' : list Event -> A -> Prop) :
  always p Q -> always p Q' -> always p (fun tr a => Q tr a /\ Q' tr a).
Proof.
  revert Q Q'. induction p as [a|X c k IH]; intros Q Q'; simpl; [tauto|].
  intros H H' x. apply (IH x _ _ (H x) (H' x)).
Qed.

Lemma always_pbind {A B} (p : Prog A) (f : A -> Prog B) (Q : list Event -> B -> Prop) :
  always (pbind p f) Q <->
  always p (fun tr1 a => always (f a) (fun tr2 b => Q (tr1 ++ tr2) b)).
Proof.
  revert Q. induction p as [a|X c k IH]; intros Q; simpl; [reflexivity|].
  split; intros H x; specialize (H x).
  - apply (IH x (fun tr b => Q (ev c x :: tr) b)) in H. exact H.
  - apply (IH x (fun tr b => Q (ev c x :: tr) b)). exact H.
Qed.

(** [always] speaks about exactly the executions that [replay] accepts. *)
Lemma always_replay {A} (p : Prog A) (Q : list Event -> A -> Prop) tr a rest :
  always p Q -> replay p tr = Some (a, rest) ->
  exists pre, tr = pre ++ rest /\ Q pre a.
Proof.
  revert Q tr. induction p as [a'|X c k IH]; intros Q tr; simpl.
  - intros HQ [= -> ->]. exists []. auto.
  - intros HQ. destruct tr as [|e tr']; [discriminate|].
    destruct (reply_of c e) as [x|] eqn:He; [|discriminate].
    apply reply_of_Some in He. subst e. intros H.
    destruct (IH x _ _ (HQ x) H) as (pre & -> & Hpre).
    exists (ev c x :: pre). auto.
Qed.

Lemma always_accepts {A} (p : Prog A) (Q : list Event -> A -> Prop) tr a :
  always p Q -> accepts p tr a -> Q tr a.
Proof.
  intros HQ H. destruct (always_replay _ _ _ _ _ HQ H) as (pre & -> & Hpre).
  rewrite app_nil_r. exact Hpre.
Qed.

Lemma accepts_always {A} (p : Prog A) (Q : list Event -> A -> Prop) :
  (forall tr a, accepts p tr a -> Q tr a) -> always p Q.
Proof.
  revert Q. induction p as [a|X c k IH]; intros Q H; simpl.
  - apply H. reflexivity.
  - intros x. apply IH. intros tr a Ha. apply H. unfold accepts. simpl.
    rewrite reply_of_ev. exact Ha.
Qed.

Lemma always_execute {A} (p : Prog A) (Q : list Event -> A -> Prop) env n :
  always p Q -> Q (execute env n p).2 (execute env n p).1.
Proof. intros H. eapply always_accepts; [exact H|apply execute_accepts]. Qed.

(** ** The [try]-block monad *)

Lemma always_mbind {A B} (m : M A) (f : A -> M B) d (Q : list Event -> Dict * (exn + B) -> Prop) :
  always (mbind m f d) Q <->
  always (m d) (fun tr1 r =>
    match r.2 with
    | inl e => Q tr1 (r.1, inl e)
    | inr a => always (f a r.1) (fun tr2 r' => Q (tr1 ++ tr2) r')
    end).
Proof.
  unfold mbind. rewrite always_pbind. split; apply always_mono; intros tr [d' [e|a]]; simpl;
    rewrite ?app_nil_r; auto.
Qed.

Lemma always_call {X} (c : Cmd X) d (Q : list Event -> Dict * (exn + X) -> Prop) :
  always (call c d) Q <-> forall x, Q [ev c x] (d, inr x).
Proof. reflexivity. Qed.

Lemma always_await {A} (p : Prog (exn + A)) d (Q : list Event -> Dict * (exn + A) -> Prop) :
  always (await p d) Q <-> always p (fun tr r => Q tr (d, r)).
Proof.
  unfold await. rewrite always_pbind. split; apply always_mono; intros tr r; simpl;
    rewrite ?app_nil_r; auto.
Qed.

Lemma always_lift {A} (p : Prog A) d (Q : list Event -> Dict * (exn + A) -> Prop) :
  always (lift p d) Q <-> always p (fun tr a => Q tr (d, inr a)).
Proof.
  unfold lift. rewrite always_pbind. split; apply always_mono; intros tr r; simpl;
    rewrite ?app_nil_r; auto.
Qed.

(** ** Symbolic execution of the runner *)

Lemma incrs_app tr1 tr2 : incrs (tr1 ++ tr2) = incrs tr1 ++ incrs tr2.
Proof.
  induction tr1 as [|e tr1 IH]; [reflexivity|].
  destruct e; simpl; rewrite IH; reflexivity.
Qed.

(** One step of a program under [always]: unfold the monadic glue, name the
    reply, split on what the code inspects. *)
Ltac prog_unfold :=
  cbn [always pbind mbind call await lift raise mret set_item fst snd ev
       is_already_processed submit_video_job upload_video check_job_status
       download_result].

(** The value on which the next command of a program depends. *)
Ltac stuck_on p :=
  lazymatch p with
  | pbind ?q _ => stuck_on q
  | match ?x with _ => _ end => x
  | ?g _ => stuck_on g
  end.

Ltac prog_step :=
  first
  [ progress prog_unfold
  | lazymatch goal with
    | |- forall _ : unit, _ => intros []
    | |- forall _ : _ + _, _ => intros [?|?]
    | |- forall _ : _ * _, _ => intros [? ?]
    | |- forall _, _ => intro
    | |- always ?p _ => let x := stuck_on p in destruct x eqn:?
    end ].

Lemma poll_loop_eq input_file request_id elapsed :
  poll_loop input_file request_id elapsed =
  poll_loop_unfold_clause_1 input_file request_id elapsed (decide (elapsed < max_wait)).
Proof. apply poll_loop_equation_1. Qed.

(** Induction along the iterations of the loop: from [elapsed] to
    [elapsed + wait_interval] while [elapsed < max_wait]. *)
Lemma poll_loop_induction (P : Z -> Prop) :
  (forall elapsed, (elapsed < max_wait -> P (elapsed + wait_interval)) -> P elapsed) ->
  forall elapsed, P elapsed.
Proof.
  intros step elapsed.
  remember (Z.to_nat (max_wait - elapsed)) as n eqn:Hn.
  revert elapsed Hn. induction n as [n IH] using lt_wf_ind. intros elapsed Hn.
  apply step. intros Hlt. apply (IH (Z.to_nat (max_wait - (elapsed + wait_interval)))).
  - unfold wait_interval, max_wait in *. lia.
  - reflexivity.
Qed.

(** *** Accounting: one counter per run, and the shape of the result *)

Ltac solve_runner_events :=
  unfold runner_events in *;
  repeat (apply List.Forall_cons; [reflexivity|]);
  first [assumption | apply List.Forall_nil].

Lemma poll_loop_wf f rid : forall elapsed d,
  always (poll_loop f rid elapsed d) (poll_wf d).
Proof.
  intros elapsed. induction elapsed as [elapsed IH] using poll_loop_induction.
  intros d. rewrite poll_loop_eq. destruct (decide (elapsed < max_wait)) as [Hlt|Hge].
  - cbn [poll_loop_unfold_clause_1]. repeat prog_step;
      try (split; [solve_runner_events|split; reflexivity]).
    all: eapply always_mono; [|apply (IH Hlt)].
    all: intros tr [d' r] [Hev Hr]; split; [solve_runner_events|exact Hr].
  - cbn [poll_loop_unfold_clause_1]. repeat prog_step.
    split; [solve_runner_events|split; reflexivity].
Qed.

(** Lookups in a dictionary after assignments to literal keys. *)
Ltac dict_simpl :=
  repeat first
    [ rewrite lookup_insert_eq
    | rewrite lookup_insert_ne by (first [discriminate | congruence])
    | rewrite lookup_empty ].

Ltac wf_leaf :=
  intros; cbn [fst snd incrs] in *; dict_simpl;
  first [done | solve_runner_events | eauto].

Lemma try_body_wf f d :
  is_Some (d !! "request_id") -> is_Some (d !! "error") ->
  always (try_body f d) (try_wf d).
Proof.
  intros Hrid Herr. unfold try_body. repeat prog_step.
  9: { eapply always_mono; [|apply poll_loop_wf].
       intros tr [d' [e|[]]] [Hev Hr]; cbn [fst snd] in *;
         destruct Hr as [Hincr ->].
       - repeat split; wf_leaf.
       - repeat split; try wf_leaf.
         exists Successful. repeat split; wf_leaf. }
  1: { repeat split; try wf_leaf.
       exists Skipped. repeat split; wf_leaf. }
  all: repeat split; wf_leaf.
Qed.

Lemma runner_events_app tr1 tr2 :
  runner_events (tr1 ++ tr2) <-> runner_events tr1 /\ runner_events tr2.
Proof. apply Forall_app. Qed.

(** Induction along the retries: from [retry_count] to [retry_count + 1]
    while [retry_count < RETRY_LIMIT]. *)
Lemma retry_induction (cfg : Config) (P : Z -> Prop) :
  (forall retry_count,
     (retry_count < RETRY_LIMIT cfg -> P (retry_count + 1)) -> P retry_count) ->
  forall retry_count, P retry_count.
Proof.
  intros step rc.
  remember (Z.to_nat (RETRY_LIMIT cfg - rc)) as n eqn:Hn.
  revert rc Hn. induction n as [n IH] using lt_wf_ind. intros rc Hn.
  apply step. intros Hlt. apply (IH (Z.to_nat (RETRY_LIMIT cfg - (rc + 1)))); lia.
Qed.

Lemma initial_result_lookup f rc ts :
  initial_result f rc ts !! "filename" = Some (JStr f) /\
  initial_result f rc ts !! "status" = Some (JStr "unknown") /\
  initial_result f rc ts !! "request_id" = Some JNull /\
  initial_result f rc ts !! "error" = Some JNull /\
  initial_result f rc ts !! "retry_count" = Some (JInt rc) /\
  initial_result f rc ts !! "timestamp" = Some (JStr ts).
Proof. unfold initial_result. repeat split; by dict_simpl. Qed.

Lemma process_single_video_wf cfg f : forall rc,
  always (process_single_video cfg f rc) (run_wf cfg f rc).
Proof.
  intros rc. induction rc as [rc IH] using (retry_induction cfg).
  rewrite process_single_video_equation_1. cbn [always]. intros ts.
  destruct (initial_result_lookup f rc ts) as (Hf & Hs & Hr & He & Hrc & Hts).
  apply always_pbind. eapply always_mono; [|apply try_body_wf; eauto].
  intros tr [d [e|[]]] (Hev & Hkeep & Hrid & Hres); cbn [fst snd] in *.
  - destruct Hres as (Hincr & Hst & Herr). repeat prog_step.
    + eapply always_mono; [|apply IH; assumption].
      intros tr' res (Hev' & c & k & ts' & Hc & ?). split.
      * apply List.Forall_cons; [reflexivity|]. apply runner_events_app. split; [done|].
        solve_runner_events.
      * exists c, k, ts'. split.
        { cbn [incrs]. rewrite incrs_app, Hincr. exact Hc. }
        intuition lia.
    + split.
      * apply List.Forall_cons; [reflexivity|]. apply runner_events_app. split; [done|].
        solve_runner_events.
      * exists Failed, rc, ts. cbn [incrs]. rewrite incrs_app, Hincr.
        repeat split; cbn [incrs status_of]; dict_simpl;
          rewrite ?Hkeep by discriminate; eauto; lia.
  - destruct Hres as (c & Hc & Hincr & Hst & Herr). cbn [always]. split.
    + apply List.Forall_cons; [reflexivity|]. by rewrite app_nil_r.
    + exists c, rc, ts. rewrite app_nil_r. cbn [incrs].
      repeat split; rewrite ?Hkeep by discriminate; eauto; lia.
Qed.

(** *** The output check *)

Lemma poll_loop_status f rid : forall elapsed d,
  always (poll_loop f rid elapsed d) (fun _ r =>
    match r.2 with
    | inr _ => r.1 = <["status" := JStr "success"]> d
    | inl _ => r.1 = d
    end).
Proof.
  intros elapsed d. eapply always_mono; [|apply poll_loop_wf].
  intros tr [d' [e|[]]] [_ [_ H]]; exact H.
Qed.


(** *** The [except] handler *)

Lemma attempt_replay f rc ts tr d r rest :
  attempt f rc ts tr d r ->
  replay (try_body f (initial_result f rc ts)) (tr ++ rest) = Some ((d, r), rest).
Proof.
  intros H. apply replay_split in H. destruct H as (pre & Hpre & H).
  rewrite app_nil_r in Hpre. subst pre. apply H.
Qed.

(** A run is an attempt followed by what the handler does. *)
Lemma run_attempt cfg f rc tr res :
  accepts (process_single_video cfg f rc) tr res ->
  exists ts tr_a d r rest,
    tr = ENow ts :: tr_a ++ rest /\ attempt f rc ts tr_a d r.
Proof.
  unfold accepts. rewrite process_single_video_equation_1. intros H.
  apply replay_Vis in H. destruct H as (ts & tr' & -> & H). cbn [ev] in *.
  rewrite replay_pbind in H.
  destruct (replay (try_body f (initial_result f rc ts)) tr') as [[[d r] rest]|] eqn:Ha;
    [|discriminate].
  apply replay_split in Ha. destruct Ha as (tr_a & -> & Ha).
  exists ts, tr_a, d, r, rest. split; [reflexivity|].
  unfold attempt, accepts. rewrite <- (app_nil_r tr_a). apply Ha.
Qed.

(** The attempt returned: so does the run, with the same dictionary. *)
Lemma run_after_return cfg f rc ts tr_a d rest res :
  attempt f rc ts tr_a d (inr tt) ->
  accepts (process_single_video cfg f rc) (ENow ts :: tr_a ++ rest) res <->
  rest = [] /\ res = d.
Proof.
  intros Ha. unfold accepts. rewrite process_single_video_equation_1.
  cbn [replay reply_of]. rewrite replay_pbind, (attempt_replay _ _ _ _ _ _ rest Ha).
  cbn [fst snd replay]. split; [intros [= -> ->]|intros [-> ->]]; done.
Qed.

(** The attempt raised and retries remain: the handler waits, then starts
    [process_single_video] over with one more retry counted. *)
Lemma run_after_failure cfg f rc ts tr_a d e rest res :
  attempt f rc ts tr_a d (inl e) ->
  rc < RETRY_LIMIT cfg ->
  accepts (process_single_video cfg f rc) (ENow ts :: tr_a ++ rest) res <->
  exists rest',
    rest = EPrint (error_line f e) :: EPrint (retry_line cfg rc) :: ESleep 5 :: rest' /\
    accepts (process_single_video cfg f (rc + 1)) rest' res.
Proof.
  intros Ha Hlt. unfold accepts at 1. rewrite process_single_video_equation_1.
  cbn [replay reply_of]. rewrite replay_pbind, (attempt_replay _ _ _ _ _ _ rest Ha).
  cbn [fst snd]. rewrite replay_Vis.
  destruct (decide (rc < RETRY_LIMIT cfg)) as [_|]; [|done].
  split.
  - intros ([] & r1 & -> & H). apply replay_Vis in H. destruct H as ([] & r2 & -> & H).
    apply replay_Vis in H. destruct H as ([] & r3 & -> & H). eauto.
  - intros (rest' & -> & H). exists tt. eexists. split; [reflexivity|].
    apply replay_Vis. exists tt. eexists. split; [reflexivity|].
    apply replay_Vis. exists tt. eexists. split; [reflexivity|]. exact H.
Qed.

(** The attempt raised and the budget is spent: the run ends as failed. *)
Lemma run_after_last_failure cfg f rc ts tr_a d e rest res :
  attempt f rc ts tr_a d (inl e) ->
  ~ rc < RETRY_LIMIT cfg ->
  accepts (process_single_video cfg f rc) (ENow ts :: tr_a ++ rest) res <->
  rest = [EPrint (error_line f e); EIncr Failed] /\ res = failed_result d e.
Proof.
  intros Ha Hge. unfold accepts at 1. rewrite process_single_video_equation_1.
  cbn [replay reply_of]. rewrite replay_pbind, (attempt_replay _ _ _ _ _ _ rest Ha).
  cbn [fst snd]. rewrite replay_Vis.
  destruct (decide (rc < RETRY_LIMIT cfg)) as [|_]; [done|].
  split.
  - intros ([] & r1 & -> & H). apply replay_Vis in H.
    destruct H as ([] & r2 & -> & [= <- ->]). done.
  - intros [-> ->]. exists tt. eexists. split; [reflexivity|].
    apply replay_Vis. exists tt. eexists. split; reflexivity.
Qed.


(** *** Submissions and polls *)


Lemma posts_app tr1 tr2 : posts (tr1 ++ tr2) = posts tr1 ++ posts tr2.
Proof.
  induction tr1 as [|e tr1 IH]; [reflexivity|].
  destruct e; simpl; rewrite IH; reflexivity.
Qed.

Lemma poll_loop_submits f rid : forall elapsed d,
  always (poll_loop f rid elapsed d) (fun tr r =>
    polls_follow (Some rid) tr /\ posts tr = []).
Proof.
  intros elapsed. induction elapsed as [elapsed IH] using poll_loop_induction.
  intros d. rewrite poll_loop_eq. destruct (decide (elapsed < max_wait)) as [Hlt|Hge].
  - cbn [poll_loop_unfold_clause_1]. repeat prog_step;
      try (split; [cbn [polls_follow]; done|reflexivity]).
    all: eapply always_mono; [|apply (IH Hlt)].
    all: intros tr r [H1 H2]; split; [cbn [polls_follow]; done|exact H2].
  - cbn [poll_loop_unfold_clause_1]. repeat prog_step. done.
Qed.

Lemma try_body_submits f d :
  always (try_body f d) try_submits.
Proof.
  unfold try_body. repeat prog_step.
  9: { eapply always_mono; [|apply always_and; [apply poll_loop_submits
                                                |apply poll_loop_status]].
       intros tr [d' r] [[Hp Hposts] Hr]. cbn [fst snd] in *.
       destruct (requestId j) as [rid|] eqn:Hrid; [|discriminate].
       split.
       - intros cur. cbn [polls_follow submitted_id]. rewrite Hrid. exact Hp.
       - cbn [fst snd posts]. rewrite Hposts. destruct r as [e|[]]; [eauto|].
         right. exists j, rid. subst d'.
         apply bool_decide_eq_false in Heqb0. apply dec_stable in Heqb0. subst z.
         repeat split; try done; by dict_simpl. }
  1: { split; [intros cur; exact I|]. left. split; [reflexivity|].
       cbn [fst]. by dict_simpl. }
  all: split; [intros cur; exact I|]; cbn [snd posts]; eauto.
Qed.


(** The three ways a run can go after its first attempt. *)
Lemma run_cases cfg f rc tr res :
  accepts (process_single_video cfg f rc) tr res ->
  exists ts tr_a d r rest,
    tr = ENow ts :: tr_a ++ rest /\ attempt f rc ts tr_a d r /\
    match r with
    | inr _ => rest = [] /\ res = d
    | inl e =>
        (rc < RETRY_LIMIT cfg /\
         exists rest',
           rest = EPrint (error_line f e) :: EPrint (retry_line cfg rc) :: ESleep 5 :: rest' /\
           accepts (process_single_video cfg f (rc + 1)) rest' res) \/
        (~ rc < RETRY_LIMIT cfg /\
         rest = [EPrint (error_line f e); EIncr Failed] /\ res = failed_result d e)
    end.
Proof.
  intros H. destruct (run_attempt _ _ _ _ _ H) as (ts & tr_a & d & r & rest & -> & Ha).
  exists ts, tr_a, d, r, rest. split; [reflexivity|]. split; [exact Ha|].
  destruct r as [e|[]].
  - destruct (decide (rc < RETRY_LIMIT cfg)) as [Hlt|Hge].
    + left. split; [exact Hlt|]. by apply (run_after_failure cfg f rc ts tr_a d e).
    + right. split; [exact Hge|]. by apply (run_after_last_failure cfg f rc ts tr_a d e).
  - by apply (run_after_return cfg f rc ts tr_a d).
Qed.



(** *** The ceiling of the polling loop *)

Lemma poll_bounds_next elapsed d z s m url tr r :
  elapsed < max_wait ->
  pending (EGetJson url (inr (z, s))) = true ->
  poll_bounds (elapsed + wait_interval) d tr r ->
  poll_bounds elapsed d
    (ESleep wait_interval :: EGetJson url (inr (z, s)) :: EPrint m :: tr) r.
Proof.
  intros Hlt Hpend (Hw & Hs & Hb). unfold poll_bounds, total_sleep, number in *.
  cbn [wait_then_poll total sleep_secs is_poll].
  split; [done|]. split; [unfold wait_interval in *; lia|].
  intros Hle [k Hk].
  destruct Hb as [Hb1 Hb2].
  { unfold wait_interval, max_wait in *. lia. }
  { exists (k - 1). lia. }
  split; [lia|]. intros Hall.
  apply Forall_cons in Hall. destruct Hall as [_ Hall].
  apply Forall_cons in Hall. destruct Hall as [_ Hall].
  apply Forall_cons in Hall. destruct Hall as [_ Hall].
  destruct (Hb2 Hall) as (-> & Heq & Hfin).
  split; [reflexivity|]. split; [lia|].
  repeat (constructor; [reflexivity|]). exact Hfin.
Qed.

(** A leaf of the loop that is not the timeout: its last poll observed a
    terminal status, raised, or was refused. *)
Ltac poll_leaf :=
  unfold poll_bounds, total_sleep, number;
  cbn [wait_then_poll total sleep_secs is_poll];
  split; [done|]; split; [unfold wait_interval; lia|];
  intros ? [k Hk]; split; [unfold wait_interval, max_wait in *; lia|];
  intros Hall; exfalso;
  apply Forall_cons in Hall; destruct Hall as [_ Hall];
  apply Forall_cons in Hall; destruct Hall as [Hpend _];
  cbn [pending] in Hpend;
  repeat match goal with
         | H : bool_decide _ = true |- _ => apply bool_decide_eq_true in H
         | H : bool_decide _ = false |- _ => apply bool_decide_eq_false in H
         end;
  repeat case_bool_decide; simpl in Hpend; try discriminate; try done.

Lemma poll_loop_bounds f rid : forall elapsed d,
  always (poll_loop f rid elapsed d) (poll_bounds elapsed d).
Proof.
  intros elapsed. induction elapsed as [elapsed IH] using poll_loop_induction.
  intros d. rewrite poll_loop_eq. destruct (decide (elapsed < max_wait)) as [Hlt|Hge].
  - cbn [poll_loop_unfold_clause_1]. repeat prog_step.
    10, 11: eapply always_mono; [|apply (IH Hlt)]; intros tr r Hr;
      apply poll_bounds_next; [done| |done]; cbn [pending];
      repeat match goal with
             | H : bool_decide _ = true |- _ => apply bool_decide_eq_true in H
             | H : bool_decide _ = false |- _ => apply bool_decide_eq_false in H
             end;
      repeat case_bool_decide; simpl; try done.
    all: poll_leaf.
  - cbn [poll_loop_unfold_clause_1]. repeat prog_step.
    unfold poll_bounds, total_sleep, number. cbn [wait_then_poll total].
    split; [done|]. split; [lia|]. intros Hle _. split; [lia|]. intros _.
    split; [reflexivity|]. split; [lia|constructor].
Qed.

Lemma try_body_bounds f d :
  always (try_body f d) (fun tr r =>
    wait_then_poll tr /\
    total_sleep tr = wait_interval * number is_poll tr /\
    total_sleep tr <= max_wait /\
    (0 < number is_poll tr -> Forall (fun e => pending e = true) tr ->
       r.2 = inl timeout_error /\ total_sleep tr = max_wait /\
       Forall (fun e => finalizes e = false) tr)).
Proof.
  unfold try_body. repeat prog_step.
  9: { eapply always_mono; [|apply poll_loop_bounds].
       intros tr r (Hw & Hs & Hb). unfold total_sleep, number in *.
       cbn [wait_then_poll total sleep_secs is_poll].
       destruct Hb as [Hle Hall]; [done|by exists 360|].
       split; [done|]. split; [lia|]. split; [lia|]. intros _ Hpend.
       do 8 (apply Forall_cons in Hpend; destruct Hpend as [_ Hpend]).
       destruct (Hall Hpend) as (-> & Heq & Hfin).
       split; [reflexivity|]. split; [lia|].
       repeat (constructor; [reflexivity|]). exact Hfin. }
  all: unfold total_sleep, number; cbn [wait_then_poll total sleep_secs is_poll];
    (split; [done|]); (split; [lia|]); (split; [done|]); intros; lia.
Qed.

(** *** A completed job *)











(** *** The progress of a poll *)












(** ** The pool of tasks *)

Lemma advance_hist t e t' : advance t e = Some t' -> hist t' = hist t ++ [e].
Proof.
  unfold advance. destruct (code t) as [r|X c k]; [discriminate|].
  destruct (reply_of c e); [|discriminate]. by intros [= <-].
Qed.

Lemma pool_step_inv i e pool pool' :
  pool_step i e pool = Some pool' ->
  exists t t' sem ld,
    tasks pool !! i = Some t /\ advance t e = Some t' /\
    effect e (semaphore pool) (log_data pool) = Some (sem, ld) /\
    pool' = mkPool sem ld (<[i := t']> (tasks pool)).
Proof.
  unfold pool_step. destruct (tasks pool !! i) as [t|] eqn:Ht; [|discriminate].
  destruct (advance t e) as [t'|] eqn:Ha; [|discriminate].
  destruct (effect e (semaphore pool) (log_data pool)) as [[sem ld]|] eqn:He;
    [|discriminate].
  intros [= <-]. exists t, t', sem, ld. auto.
Qed.

Lemma total_insert {A} (f : A -> Z) (l : list A) i a a' :
  l !! i = Some a -> total f (<[i := a']> l) = total f l - f a + f a'.
Proof.
  revert i. induction l as [|b l IH]; intros [|i]; simpl; try discriminate.
  - intros [= ->]. lia.
  - intros H. rewrite (IH _ H). lia.
Qed.

Lemma total_zero {A} (f : A -> Z) (l : list A) :
  Forall (fun a => f a = 0) l -> total f l = 0.
Proof. induction 1 as [|a l Ha _ IH]; simpl; lia. Qed.

Lemma held_app tr1 tr2 : held (tr1 ++ tr2) = held tr1 + held tr2.
Proof.
  induction tr1 as [|e tr1 IH]; simpl; [lia|]. destruct e; lia.
Qed.

Lemma held_runner_events tr : runner_events tr -> held tr = 0.
Proof.
  induction 1 as [|e tr He _ IH]; [reflexivity|].
  destruct e; simpl in *; try discriminate; exact IH.
Qed.

Lemma bumps_app c tr1 tr2 : bumps c (tr1 ++ tr2) = bumps c tr1 + bumps c tr2.
Proof. unfold bumps. rewrite incrs_app, filter_app, length_app. lia. Qed.

(** What one event does to the semaphore and to the counters. *)
Lemma effect_spec e sem ld sem' ld' :
  effect e sem ld = Some (sem', ld') ->
  sem' = sem - held [e] /\
  (0 <= sem -> 0 <= sem') /\
  (forall c, counter c ld' = counter c ld + bumps c [e]) /\
  results ld' = results ld /\ total_videos ld' = total_videos ld /\
  start_time ld' = start_time ld /\ end_time ld' = end_time ld.
Proof.
  destruct e; simpl; try (intros [= <- <-]; repeat split; try lia;
    intros c; unfold bumps; simpl; lia).
  - intros [= <- <-]. repeat split; try lia; try (destruct c; reflexivity).
    intros c'. unfold bumps. simpl. destruct c, c'; simpl;
      rewrite ?filter_cons_True, ?filter_cons_False by congruence; simpl; lia.
  - case_decide; [|discriminate]. intros [= <- <-]. repeat split; try lia.
    intros c. unfold bumps. simpl. lia.
Qed.

(** The accounting that every interleaving keeps, whatever the tasks are:
    the semaphore counts the free slots, and each counter counts the
    increments performed so far. *)
Lemma pool_run_accounting sched : forall pool pool',
  pool_run sched pool = Some pool' ->
  length (tasks pool') = length (tasks pool) /\
  semaphore pool' + total (fun t => held (hist t)) (tasks pool') =
    semaphore pool + total (fun t => held (hist t)) (tasks pool) /\
  (0 <= semaphore pool -> 0 <= semaphore pool') /\
  (forall c, counter c (log_data pool') - total (fun t => bumps c (hist t)) (tasks pool') =
             counter c (log_data pool) - total (fun t => bumps c (hist t)) (tasks pool)) /\
  results (log_data pool') = results (log_data pool) /\
  total_videos (log_data pool') = total_videos (log_data pool) /\
  start_time (log_data pool') = start_time (log_data pool) /\
  end_time (log_data pool') = end_time (log_data pool).
Proof.
  induction sched as [|[i e] sched IH]; intros pool pool'; simpl.
  - intros [= <-]. repeat split; auto.
  - destruct (pool_step i e pool) as [pool1|] eqn:Hstep; [|discriminate].
    intros Hrun. specialize (IH _ _ Hrun).
    destruct (pool_step_inv _ _ _ _ Hstep) as (t & t' & sem & ld & Ht & Ha & Heff & ->).
    apply advance_hist in Ha. apply effect_spec in Heff.
    destruct Heff as (Hsem & Hpos & Hcnt & Hres & Htot & Hst & Hen).
    cbn [tasks semaphore log_data] in IH.
    destruct IH as (IHlen & IHsem & IHpos & IHcnt & IHres & IHtot & IHst & IHen).
    rewrite length_insert in IHlen.
    rewrite (total_insert _ _ _ _ _ Ht), Ha, held_app in IHsem.
    repeat split; try congruence; try lia; auto.
    intros c'. rewrite IHcnt, (total_insert _ _ _ _ _ Ht), Ha, bumps_app, Hcnt. lia.
Qed.

(** *** The stages of a task *)

Lemma residual_start {A} (p : Prog A) : residual p [] p.
Proof. intros tr a H. exact H. Qed.

Lemma residual_step {A X} (p : Prog A) h (c : Cmd X) k x :
  residual p h (Vis c k) -> residual p (h ++ [ev c x]) (k x).
Proof.
  intros Hres tr a H. rewrite <- app_assoc. apply Hres.
  unfold accepts. simpl. rewrite reply_of_ev. exact H.
Qed.

(** A task moves from one stage to the next, in order. *)
Lemma advance_stage cfg f t e t' :
  task_stage cfg f t -> advance t e = Some t' -> task_stage cfg f t'.
Proof.
  intros [Hh Hc|h q Hh Hc Hres|h res Hh Hc Hacc]; unfold advance; rewrite Hc.
  - unfold process_video_with_semaphore. simpl.
    destruct e; try discriminate. intros [= <-].
    eapply stage_running; [rewrite Hh; reflexivity|reflexivity|apply residual_start].
  - destruct q as [res|X c k]; simpl.
    + destruct e; try discriminate. intros [= <-].
      eapply stage_finished; [rewrite Hh; reflexivity|reflexivity|].
      rewrite <- (app_nil_r h). apply Hres. reflexivity.
    + destruct (reply_of c e) as [x|] eqn:Hx; [|discriminate]. intros [= <-].
      apply reply_of_Some in Hx. subst e.
      eapply stage_running; [rewrite Hh; reflexivity|reflexivity|].
      by apply residual_step.
  - discriminate.
Qed.

(** While a task runs, all it has done after taking its slot are events of
    the per-file sequence. *)
Lemma residual_runner_events cfg f h q :
  residual (process_single_video cfg f 0) h q -> runner_events h.
Proof.
  intros Hres.
  pose proof (Hres _ _ (execute_accepts (fun _ _ c => default_reply c) 0 q)) as Hacc.
  apply (always_accepts _ _ _ _ (process_single_video_wf cfg f 0)) in Hacc.
  destruct Hacc as [Hev _]. apply runner_events_app in Hev. tauto.
Qed.

Lemma not_elem_of_runner_events e tr :
  is_runner_event e = false -> runner_events tr -> e ∉ tr.
Proof.
  intros He Htr Hin. unfold runner_events in Htr.
  rewrite List.Forall_forall in Htr. apply list_elem_of_In in Hin.
  specialize (Htr _ Hin). congruence.
Qed.

Lemma stage_held cfg f t :
  task_stage cfg f t -> held (hist t) = if in_flight t then 1 else 0.
Proof.
  intros [Hh Hc|h q Hh Hc Hres|h res Hh Hc Hacc]; unfold in_flight; rewrite Hh.
  - rewrite bool_decide_eq_false_2 by apply not_elem_of_nil. reflexivity.
  - apply residual_runner_events in Hres.
    rewrite bool_decide_eq_true_2 by apply list_elem_of_here.
    rewrite (bool_decide_eq_false_2 (ERelease ∈ _)).
    + simpl. rewrite held_runner_events by done. reflexivity.
    + rewrite elem_of_cons. intros [?|Hin]; [discriminate|].
      by apply (not_elem_of_runner_events ERelease h).
  - apply (always_accepts _ _ _ _ (process_single_video_wf cfg f 0)) in Hacc.
    destruct Hacc as [Hev _].
    rewrite (bool_decide_eq_true_2 (ERelease ∈ _)).
    + rewrite andb_false_r. simpl. rewrite held_app, held_runner_events by done.
      reflexivity.
    + rewrite elem_of_cons, elem_of_app, list_elem_of_singleton. auto.
Qed.

Lemma stage_outcome cfg f t r :
  task_stage cfg f t -> outcome t = Some r ->
  exists h result,
    r = inr result /\ hist t = EAcquire :: h ++ [ERelease] /\
    accepts (process_single_video cfg f 0) h result.
Proof.
  intros [Hh Hc|h q Hh Hc Hres|h res Hh Hc Hacc]; unfold outcome; rewrite Hc.
  - discriminate.
  - destruct q; discriminate.
  - intros [= <-]. eauto.
Qed.

Lemma stage_open_submission cfg f t :
  task_stage cfg f t -> has_open_submission t = true -> in_flight t = true.
Proof.
  intros Hst. unfold has_open_submission. intros [Hpost Hout]%andb_true_iff.
  pose proof (stage_held _ _ _ Hst) as Hheld.
  destruct Hst as [Hh Hc|h q Hh Hc Hres|h res Hh Hc Hacc].
  - rewrite Hh in Hpost. discriminate.
  - unfold in_flight in *. rewrite Hh in *.
    apply residual_runner_events in Hres.
    rewrite bool_decide_eq_true_2 by apply list_elem_of_here.
    rewrite (bool_decide_eq_false_2 (ERelease ∈ _)); [reflexivity|].
    rewrite elem_of_cons. intros [?|Hin]; [discriminate|].
    by apply (not_elem_of_runner_events ERelease h).
  - unfold outcome in Hout. rewrite Hc in Hout.
    rewrite bool_decide_eq_true_2 in Hout by eauto. discriminate.
Qed.

Lemma initial_stages cfg files :
  Forall2 (task_stage cfg) files
    (spawn <$> (process_video_with_semaphore cfg <$> files)).
Proof.
  induction files as [|f files IH]; simpl; constructor; [|exact IH].
  by apply stage_waiting.
Qed.

(** Every interleaving keeps every task in one of its three stages. *)
Lemma pool_run_stages cfg files sched : forall pool pool',
  Forall2 (task_stage cfg) files (tasks pool) ->
  pool_run sched pool = Some pool' ->
  Forall2 (task_stage cfg) files (tasks pool').
Proof.
  induction sched as [|[i e] sched IH]; intros pool pool' Hst; simpl.
  - by intros [= <-].
  - destruct (pool_step i e pool) as [pool1|] eqn:Hstep; [|discriminate].
    apply IH.
    destruct (pool_step_inv _ _ _ _ Hstep) as (t & t' & sem & ld & Ht & Ha & _ & ->).
    cbn [tasks].
    destruct (Forall2_lookup_r _ _ _ _ _ Hst Ht) as (f & Hf & Hstage).
    rewrite <- (list_insert_id files i f Hf).
    apply Forall2_insert; [exact Hst|]. eapply advance_stage; eauto.
Qed.

Lemma number_le {A} (P Q : A -> bool) (l : list A) :
  Forall (fun a => P a = true -> Q a = true) l -> number P l <= number Q l.
Proof.
  unfold number. induction 1 as [|a l Ha _ IH]; simpl; [lia|].
  destruct (P a); [rewrite Ha by done|destruct (Q a)]; lia.
Qed.

Lemma stages_held cfg files ts :
  Forall2 (task_stage cfg) files ts ->
  total (fun t => held (hist t)) ts = number in_flight ts.
Proof.
  unfold number. induction 1 as [|f t files ts Hst _ IH]; simpl; [reflexivity|].
  rewrite (stage_held _ _ _ Hst), IH. reflexivity.
Qed.

(** Freshly spawned tasks have done nothing yet. *)
Lemma total_spawn (f : list Event -> Z) (ps : list (Prog (exn + Dict))) :
  f [] = 0 -> total (fun t => f (hist t)) (spawn <$> ps) = 0.
Proof.
  intros H0. induction ps as [|p ps IH]; [reflexivity|].
  rewrite fmap_cons. cbn [total spawn hist]. rewrite IH, H0. reflexivity.
Qed.

(** *** Collecting the outcomes *)

Lemma extends_refl ld : extends ld [] 0 ld.
Proof. unfold extends. rewrite app_nil_r. repeat split; lia. Qed.

(** The loop over the gathered outcomes appends one record per outcome, in
    order, counts one failure per exception, and does nothing else than
    reading the clock once per exception. *)
Lemma collect_spec rs : forall ld,
  always (collect rs ld) (fun tr ld' =>
    exists entries stamps,
      Forall2 entry_of rs entries /\
      extends ld entries (number is_exception rs) ld' /\
      tr = ENow <$> stamps /\
      Z.of_nat (length stamps) = number is_exception rs).
Proof.
  induction rs as [|[e|result] rs IH]; intros ld; simpl.
  - exists [], []. split; [constructor|]. split; [apply extends_refl|done].
  - intros ts. eapply always_mono; [|apply IH].
    intros tr ld' (entries & stamps & Hent & Hext & -> & Hlen).
    exists (unknown_result e ts :: entries), (ts :: stamps).
    split; [constructor; [by exists ts|done]|].
    split; [|split; [reflexivity|unfold number in *; simpl; lia]].
    destruct Hext as (H1 & H2 & H3 & H4 & H5 & H6 & H7). unfold extends, number in *.
    simpl in *. rewrite H1, <- app_assoc. repeat split; try done; lia.
  - eapply always_mono; [|apply IH].
    intros tr ld' (entries & stamps & Hent & Hext & -> & Hlen).
    exists (result :: entries), stamps. split; [by constructor|].
    split; [|split; [reflexivity|unfold number in *; simpl; lia]].
    destruct Hext as (H1 & H2 & H3 & H4 & H5 & H6 & H7). unfold extends, number in *.
    simpl in *. rewrite H1, <- app_assoc. repeat split; try done; lia.
Qed.

Lemma print_all_spec lines :
  always (print_all lines) (fun tr _ => tr = EPrint <$> lines).
Proof.
  induction lines as [|l lines IH]; simpl; [reflexivity|].
  intros []. eapply always_mono; [|apply IH]. by intros tr _ ->.
Qed.

(** [print_summary] prints the totals, then one line per failed record. *)
Lemma print_summary_spec ld :
  always (print_summary ld) (fun tr _ =>
    exists lines,
      tr = EPrint <$> lines /\
      "PROCESSING SUMMARY" ∈ lines /\
      ("Failed:        " +:+ pretty (failed ld)) ∈ lines /\
      (failed ld > 0 -> failed_lines (results ld) ⊆ lines)).
Proof.
  unfold print_summary. apply always_pbind.
  eapply always_mono; [|apply print_all_spec]. intros tr1 _ ->.
  case_bool_decide as Hf.
  - eapply always_mono; [|apply print_all_spec]. intros tr2 _ ->.
    rewrite <- fmap_app. eexists. split; [reflexivity|].
    split; [set_solver|]. split; [set_solver|]. intros _ line Hline.
    apply elem_of_app. right. by apply list_elem_of_further.
  - cbn [always]. rewrite app_nil_r. eexists. split; [reflexivity|].
    split; [set_solver|]. split; [set_solver|]. intros ?. lia.
Qed.

(** Once the outcomes are gathered: the records are appended, the end time
    is set, the ledger is saved once, and the summary is printed. *)
Lemma settle_spec rs ld :
  always (settle rs ld) (fun tr ld' =>
    exists entries ld1 ts stamps lines,
      Forall2 entry_of rs entries /\
      extends ld entries (number is_exception rs) ld1 /\
      ld' = set_end_time ts ld1 /\
      tr = (ENow <$> stamps)
           ++ [ENow ts; ESaveLog LOG_FILE ld'; EPrint ("Log saved to: " +:+ LOG_FILE)]
           ++ (EPrint <$> lines) /\
      Z.of_nat (length stamps) = number is_exception rs /\
      "PROCESSING SUMMARY" ∈ lines /\
      ("Failed:        " +:+ pretty (failed ld')) ∈ lines /\
      (failed ld' > 0 -> failed_lines (results ld') ⊆ lines)).
Proof.
  unfold settle. apply always_pbind. eapply always_mono; [|apply collect_spec].
  intros pre ld1 (entries & stamps & Hent & Hext & -> & Hlen).
  cbn [always save_log pbind].
  intros ts [] []. apply always_pbind.
  eapply always_mono; [|apply print_summary_spec].
  intros tr2 [] (lines & -> & H1 & H2 & H3). cbn [always ev].
  exists entries, ld1, ts, stamps, lines. rewrite app_nil_r.
  repeat (split; [done|]). done.
Qed.

(** *** The events of an interleaving belong to the tasks *)

Lemma pool_run_hist_mono sched : forall pool pool' i t,
  pool_run sched pool = Some pool' ->
  tasks pool !! i = Some t ->
  exists t', tasks pool' !! i = Some t' /\ forall e, e ∈ hist t -> e ∈ hist t'.
Proof.
  induction sched as [|[j e] sched IH]; intros pool pool' i t; simpl.
  - intros [= <-] Ht. eauto.
  - destruct (pool_step j e pool) as [pool1|] eqn:Hstep; [|discriminate].
    intros Hrun Ht.
    destruct (pool_step_inv _ _ _ _ Hstep) as (u & u' & sem & ld & Hu & Ha & _ & ->).
    destruct (decide (i = j)) as [->|Hne].
    + assert (u = t) as -> by congruence.
      destruct (IH _ _ j u' Hrun) as (t' & Ht' & Hsub).
      { cbn [tasks]. apply list_lookup_insert_eq. by eapply lookup_lt_Some. }
      exists t'. split; [done|]. intros e' He'. apply Hsub.
      rewrite (advance_hist _ _ _ Ha). set_solver.
    + apply (IH _ _ i t Hrun). cbn [tasks]. by rewrite list_lookup_insert_ne.
Qed.

Lemma pool_run_events sched : forall pool pool' i e,
  pool_run sched pool = Some pool' ->
  (i, e) ∈ sched ->
  exists t, tasks pool' !! i = Some t /\ e ∈ hist t.
Proof.
  induction sched as [|[j e'] sched IH]; intros pool pool' i e; simpl.
  - intros _ Hin. by apply elem_of_nil in Hin.
  - destruct (pool_step j e' pool) as [pool1|] eqn:Hstep; [|discriminate].
    intros Hrun [Heq|Hin]%elem_of_cons; [|by eapply IH].
    injection Heq as -> ->.
    destruct (pool_step_inv _ _ _ _ Hstep) as (u & u' & sem & ld & Hu & Ha & _ & ->).
    destruct (pool_run_hist_mono _ _ _ j u' Hrun) as (t & Ht & Hsub).
    { cbn [tasks]. apply list_lookup_insert_eq. by eapply lookup_lt_Some. }
    exists t. split; [done|]. apply Hsub. rewrite (advance_hist _ _ _ Ha). set_solver.
Qed.

(** *** The outcomes that [gather] returns *)

Lemma status_of_inj c c' : status_of c = status_of c' -> c = c'.
Proof. destruct c, c'; simpl; intros H; try reflexivity; discriminate. Qed.

Lemma bumps_single c c' : bumps c (map EIncr [c']) = if bool_decide (c' = c) then 1 else 0.
Proof.
  unfold bumps. simpl. case_bool_decide.
  - rewrite filter_cons_True by done. reflexivity.
  - rewrite filter_cons_False by done. reflexivity.
Qed.

Lemma finished_task_bumps cfg f h result c :
  accepts (process_single_video cfg f 0) h result ->
  bumps c (EAcquire :: h ++ [ERelease]) = if has_status (status_of c) result then 1 else 0.
Proof.
  intros Hacc. apply (always_accepts _ _ _ _ (process_single_video_wf cfg f 0)) in Hacc.
  destruct Hacc as (_ & c0 & k & ts & Hincr & Hst & _).
  unfold bumps, has_status. cbn [incrs]. rewrite incrs_app, Hincr, Hst. simpl.
  destruct (decide (c0 = c)) as [->|Hne].
  - rewrite filter_cons_True by done. rewrite bool_decide_eq_true_2 by done. reflexivity.
  - rewrite filter_cons_False by done. rewrite bool_decide_eq_false_2; [reflexivity|].
    intros [= Heq]. apply status_of_inj in Heq. congruence.
Qed.

Lemma finished_tasks cfg : forall files ts rs,
  Forall2 (task_stage cfg) files ts ->
  Forall2 (fun t r => outcome t = Some r) ts rs ->
  exists ress,
    rs = inr <$> ress /\
    Forall2 (fun f result => exists h, accepts (process_single_video cfg f 0) h result)
      files ress /\
    Forall (fun t => forall e, e ∈ hist t -> is_save e = false) ts /\
    forall c, total (fun t => bumps c (hist t)) ts = number (has_status (status_of c)) ress.
Proof.
  intros files ts rs Hst. revert rs.
  induction Hst as [|f t files ts Hft _ IH]; intros rs Hout.
  - inversion Hout. exists []. repeat split; constructor.
  - inversion Hout as [|? r ? rs' Hr Hrs]. subst.
    destruct (IH _ Hrs) as (ress & -> & Hacc & Hsave & Hcnt).
    destruct (stage_outcome _ _ _ _ Hft Hr) as (h & result & -> & Hh & Hh').
    exists (result :: ress). split; [reflexivity|]. split; [constructor; eauto|].
    split.
    + constructor; [|exact Hsave]. intros e. rewrite Hh.
      pose proof (always_accepts _ _ _ _ (process_single_video_wf cfg f 0) Hh') as [Hev _].
      rewrite elem_of_cons, elem_of_app, list_elem_of_singleton.
      intros [->|[Hin| ->]]; try reflexivity.
      unfold runner_events in Hev. rewrite List.Forall_forall in Hev.
      apply list_elem_of_In in Hin. specialize (Hev _ Hin). by destruct e.
    + intros c. unfold number. cbn [total]. rewrite Hh.
      rewrite (finished_task_bumps cfg f h result c Hh'). f_equal. apply Hcnt.
Qed.

(** *** A whole batch *)

Lemma entries_of_results ress entries :
  Forall2 entry_of (inr <$> ress) entries -> entries = ress.
Proof.
  revert entries. induction ress as [|r ress IH]; intros entries H; inversion H; subst.
  - reflexivity.
  - simpl in *. f_equal; [done|]. by apply IH.
Qed.

Lemma no_exception ress : number is_exception (inr <$> ress) = 0.
Proof. unfold number. induction ress as [|r ress IH]; simpl; [reflexivity|]. exact IH. Qed.

(** What every behaviour of [process_all_videos] on at least one file looks
    like. *)
Lemma batch_nonempty cfg f files ld tr ld' :
  process_all_videos cfg (f :: files) ld tr = Some ld' ->
  exists ress ts lines,
    Forall2 (fun f result => exists h, accepts (process_single_video cfg f 0) h result)
      (f :: files) ress /\
    results ld' = results ld ++ ress /\
    (forall c, counter c ld' = counter c ld + number (has_status (status_of c)) ress) /\
    total_videos ld' = Z.of_nat (length (f :: files)) /\
    start_time ld' = start_time ld /\
    end_time ld' = Some ts /\
    main_after tr =
      [ENow ts; ESaveLog LOG_FILE ld'; EPrint ("Log saved to: " +:+ LOG_FILE)]
      ++ (EPrint <$> lines) /\
    "PROCESSING SUMMARY" ∈ lines /\
    ("Failed:        " +:+ pretty (failed ld')) ∈ lines /\
    (failed ld' > 0 -> failed_lines (results ld') ⊆ lines) /\
    Forall (fun e => is_save e = false) (main_before tr) /\
    Forall (fun ie => is_save ie.2 = false) (runners tr).
Proof.
  unfold process_all_videos.
  destruct (complete (announce cfg (f :: files)) (main_before tr)) as [[]|] eqn:Hann;
    [|discriminate].
  destruct (gather _ _ _ _) as [[rs pool]|] eqn:Hg; [|discriminate].
  intros Hset. apply complete_Some in Hann, Hset.
  apply (always_accepts _ _ _ _ (print_all_spec _)) in Hann.
  unfold gather in Hg.
  destruct (pool_run _ _) as [pool1|] eqn:Hrun; [|discriminate]. simpl in Hg.
  destruct (mapM outcome (tasks pool1)) as [rs1|] eqn:Hm; [|discriminate].
  injection Hg as -> ->. apply mapM_Some in Hm.
  pose proof (pool_run_stages cfg (f :: files) _ (initial_pool cfg (f :: files) _) _
                (initial_stages cfg (f :: files)) Hrun) as Hst.
  destruct (pool_run_accounting _ _ _ Hrun)
    as (_ & _ & _ & Hcnt & Hres & Htot & Hstart & Hend).
  cbn [tasks log_data] in Hcnt, Hres, Htot, Hstart, Hend.
  destruct (finished_tasks cfg _ _ _ Hst Hm) as (ress & -> & Hacc & Hsave & Hbumps).
  apply (always_accepts _ _ _ _ (settle_spec _ _)) in Hset.
  destruct Hset as (entries & ld1 & ts & stamps & lines & Hent & Hext & -> & Htr
                    & Hlen & H1 & H2 & H3).
  apply entries_of_results in Hent. subst entries.
  rewrite no_exception in Hext, Hlen. destruct stamps; [|simpl in Hlen; lia].
  pose proof (fun i e => pool_run_events _ _ _ i e Hrun) as Hevents. clear Hrun.
  destruct Hext as (E1 & E2 & E3 & E4 & E5 & E6 & E7).
  unfold set_end_time, set_total_videos in *.
  cbn [results failed successful skipped total_videos start_time end_time counter]
    in *.
  exists ress, ts, lines.
  split; [exact Hacc|]. split; [congruence|].
  split.
  { intros c. specialize (Hcnt c). specialize (Hbumps c).
    rewrite (total_spawn (bumps c)) in Hcnt by reflexivity.
    destruct c; cbn [counter failed successful skipped] in *; lia. }
  split; [congruence|]. split; [congruence|].
  split; [reflexivity|]. split; [exact Htr|].
  split; [exact H1|]. split; [exact H2|]. split; [exact H3|].
  split.
  - rewrite Hann. apply Forall_fmap. by apply Forall_true.
  - apply Forall_forall. intros [i e] Hin.
    destruct (Hevents _ _ Hin) as (t & Ht & He).
    rewrite Forall_forall in Hsave. apply (Hsave t); [|exact He].
    by eapply list_elem_of_lookup_2.
Qed.

(** *** Running the tasks one after the other *)

Lemma execute_pbind {A B} env (p : Prog A) (f : A -> Prog B) : forall n,
  execute env n (pbind p f) =
  let r := execute env n p in
  let r' := execute env (n + length r.2) (f r.1) in
  (r'.1, r.2 ++ r'.2).
Proof.
  induction p as [a|X c k IH]; intros n; simpl.
  - rewrite Nat.add_0_r. by destruct (execute env n (f a)).
  - rewrite IH. simpl. rewrite Nat.add_succ_r. reflexivity.
Qed.

(** One task runs alone until it returns. *)
Lemma pool_run_task env i : forall (p : Prog (exn + Dict)) n h pool sem ld,
  tasks pool !! i = Some (mkTask p h) ->
  effects (execute env n p).2 (semaphore pool) (log_data pool) = Some (sem, ld) ->
  pool_run (tagged i (execute env n p).2) pool =
  Some (mkPool sem ld
          (<[i := mkTask (Ret (execute env n p).1) (h ++ (execute env n p).2)]>
             (tasks pool))).
Proof.
  induction p as [r|X c k IH]; intros n h pool sem ld Ht; simpl.
  - intros [= <- <-]. rewrite app_nil_r, list_insert_id by done. by destruct pool.
  - destruct (effect _ _ _) as [[sem1 ld1]|] eqn:Heff; [|discriminate].
    intros Heffs. unfold pool_step, advance. rewrite Ht. cbn [code hist].
    rewrite reply_of_ev, Heff.
    erewrite IH; [|cbn [tasks]; apply list_lookup_insert_eq; by eapply lookup_lt_Some
                  |exact Heffs].
    cbn [tasks]. rewrite list_insert_insert_eq, <- app_assoc. reflexivity.
Qed.

Lemma effects_app tr1 tr2 sem ld :
  effects (tr1 ++ tr2) sem ld =
  match effects tr1 sem ld with
  | Some (sem', ld') => effects tr2 sem' ld'
  | None => None
  end.
Proof.
  revert sem ld. induction tr1 as [|e tr1 IH]; intros sem ld; simpl; [reflexivity|].
  destruct (effect e sem ld) as [[sem' ld']|]; [apply IH|reflexivity].
Qed.

Lemma effects_runner_events tr : forall sem ld,
  runner_events tr -> exists ld', effects tr sem ld = Some (sem, ld').
Proof.
  induction tr as [|e tr IH]; intros sem ld Hev; simpl; [eauto|].
  apply Forall_cons in Hev. destruct Hev as [He Hev].
  destruct e; simpl in *; try discriminate; by apply IH.
Qed.

(** The events of one task: its slot, a run of the per-file sequence, the
    release. *)
Lemma execute_with_semaphore cfg env f n :
  execute env n (process_video_with_semaphore cfg f) =
  let r := execute env (S n) (process_single_video cfg f 0) in
  (inr r.1, EAcquire :: r.2 ++ [ERelease]).
Proof.
  unfold process_video_with_semaphore. cbn [execute ev fst snd].
  rewrite execute_pbind. reflexivity.
Qed.

Lemma effects_with_semaphore cfg env f n sem ld :
  0 < sem ->
  exists ld', effects (execute env n (process_video_with_semaphore cfg f)).2 sem ld
              = Some (sem, ld').
Proof.
  intros Hsem. rewrite execute_with_semaphore. cbn [snd effects effect].
  rewrite decide_True by done. rewrite effects_app.
  destruct (effects_runner_events (execute env (S n) (process_single_video cfg f 0)).2
              (sem - 1) ld) as [ld' ->].
  { apply (always_execute _ _ env (S n) (process_single_video_wf cfg f 0)). }
  simpl. exists ld'. do 2 f_equal. lia.
Qed.

(** The sequential interleaving brings every task to its end. *)
Lemma sequential_schedule_runs cfg env : forall files done sem ld,
  0 < sem ->
  exists ld' finished,
    pool_run (sequential_schedule cfg env (length done) files)
      (mkPool sem ld (done ++ (spawn <$> (process_video_with_semaphore cfg <$> files))))
    = Some (mkPool sem ld' (done ++ finished)) /\
    Forall (fun t => is_Some (outcome t)) finished.
Proof.
  induction files as [|f files IH]; intros done sem ld Hsem.
  - exists ld, []. split; [reflexivity|constructor].
  - cbn [sequential_schedule fmap list_fmap].
    destruct (effects_with_semaphore cfg env f 0 sem ld Hsem) as [ld1 Heff].
    set (p := process_video_with_semaphore cfg f) in *.
    set (rest := spawn <$> (process_video_with_semaphore cfg <$> files)).
    assert (forall sched pool pool1 sched',
              pool_run sched pool = Some pool1 ->
              pool_run (sched ++ sched') pool = pool_run sched' pool1) as Happ.
    { clear. induction sched as [|[i e] sched IH]; intros pool pool1 sched'; simpl.
      - by intros [= ->].
      - destruct (pool_step i e pool); [apply IH|discriminate]. }
    erewrite Happ; cycle 1.
    { apply (pool_run_task env (length done) p 0 []); [|exact Heff].
      cbn [tasks]. rewrite lookup_app_r by done. rewrite Nat.sub_diag. reflexivity. }
    cbn [tasks app].
    replace (<[length done := _]> (done ++ spawn p :: rest))
      with ((done ++ [mkTask (Ret (execute env 0 p).1) (execute env 0 p).2]) ++ rest).
    2: { rewrite insert_app_r_alt by done. rewrite Nat.sub_diag. cbn [insert list_insert].
         rewrite <- app_assoc. reflexivity. }
    replace (S (length done))
      with (length (done ++ [mkTask (Ret (execute env 0 p).1) (execute env 0 p).2]))
      by (rewrite length_app; simpl; lia).
    destruct (IH (done ++ [mkTask (Ret (execute env 0 p).1) (execute env 0 p).2])
                sem ld1 Hsem) as (ld' & finished & Hrun & Hfin).
    subst rest.
    exists ld', (mkTask (Ret (execute env 0 p).1) (execute env 0 p).2 :: finished).
    split; [rewrite Hrun, <- app_assoc; reflexivity|].
    constructor; [by eexists|exact Hfin].
Qed.

Lemma complete_execute {A} env n (p : Prog A) :
  complete p (execute env n p).2 = Some (execute env n p).1.
Proof. apply complete_Some, execute_accepts. Qed.

(** Whatever the environment answers, the batch run in sequence reaches its
    end, provided that the semaphore has at least one slot. *)
Lemma sequential_batch_completes cfg env files ld :
  0 < MAX_CONCURRENT_TASKS cfg ->
  is_Some (process_all_videos cfg files ld (sequential_batch cfg env files ld)).
Proof.
  intros HK. destruct files as [|f files]; [by eexists|].
  unfold process_all_videos, sequential_batch.
  cbn [main_before runners main_after]. rewrite complete_execute.
  destruct (sequential_schedule_runs cfg env (f :: files) []
              (MAX_CONCURRENT_TASKS cfg)
              (set_total_videos (Z.of_nat (length (f :: files))) ld) HK)
    as (ld' & finished & Hrun & Hfin).
  unfold gather. change (length (@nil Task)) with 0%nat in Hrun. cbn [app] in Hrun.
  rewrite Hrun.
  assert (is_Some (mapM outcome finished)) as [rs Hm] by (by apply mapM_is_Some).
  change (Some (mkPool (MAX_CONCURRENT_TASKS cfg) ld' finished) ≫=
            (fun pool => mapM outcome (tasks pool) ≫= fun rs0 => Some (rs0, pool)))
    with (mapM outcome finished ≫=
            (fun rs0 => Some (rs0, mkPool (MAX_CONCURRENT_TASKS cfg) ld' finished))).
  rewrite Hm.
  change (Some rs ≫= _) with (Some (rs, mkPool (MAX_CONCURRENT_TASKS cfg) ld' finished)).
  cbn [log_data]. rewrite complete_execute. by eexists.
Qed.

(** * The properties of the batch processor *)

(** C8. With a semaphore of [MAX_CONCURRENT_TASKS] slots, in every state
    that an interleaving of the tasks can reach, at most that many tasks
    are inside their per-file sequence, hence at most that many have a
    remote submission in flight; and each task is in one of three stages:
    it has done nothing yet, or it has taken a slot and everything it did
    since is a prefix of one run of [process_single_video] (polling waits
    and retries included), or it has released the slot after a complete
    run. *)
Theorem C8_bounded_concurrency cfg files ld sched pool :
  0 <= MAX_CONCURRENT_TASKS cfg ->
  pool_run sched (initial_pool cfg files ld) = Some pool ->
  number in_flight (tasks pool) <= MAX_CONCURRENT_TASKS cfg /\
  number has_open_submission (tasks pool) <= MAX_CONCURRENT_TASKS cfg /\
  Forall2 (task_stage cfg) files (tasks pool).
Proof.
  intros HK Hrun.
  pose proof (pool_run_stages cfg files sched (initial_pool cfg files ld) pool
                (initial_stages cfg files) Hrun) as Hst.
  destruct (pool_run_accounting _ _ _ Hrun) as (_ & Hsem & Hpos & _).
  cbn [initial_pool semaphore tasks] in Hsem, Hpos.
  rewrite (total_spawn held) in Hsem by reflexivity.
  rewrite (stages_held _ _ _ Hst) in Hsem.
  specialize (Hpos HK).
  assert (number in_flight (tasks pool) <= MAX_CONCURRENT_TASKS cfg) as Hin by lia.
  split; [exact Hin|]. split; [|exact Hst].
  etransitivity; [|exact Hin]. apply number_le.
  clear -Hst. induction Hst as [|f t fs ts Hft _ IH]; constructor; [|exact IH].
  by apply (stage_open_submission cfg f).
Qed.

Lemma C8_bounded_concurrency_witness :
  exists pool,
    pool_run sample_schedule
      (initial_pool module_config sample_files (initial_log_data "t0")) = Some pool /\
    number in_flight (tasks pool) = 2 /\
    number has_open_submission (tasks pool) = 1 /\
    number in_flight (tasks pool) <= 5.
Proof.
  eexists. split; [reflexivity|]. split; [reflexivity|]. split; [reflexivity|].
  apply (C8_bounded_concurrency module_config sample_files (initial_log_data "t0")
           sample_schedule); [simpl; lia|reflexivity].
Defined.


Lemma number_zero {A} (P : A -> bool) (l : list A) :
  Forall (fun a => P a = false) l -> number P l = 0.
Proof.
  intros H. unfold number. apply total_zero.
  eapply Forall_impl; [exact H|]. intros a ->. reflexivity.
Qed.

Lemma with_semaphore_accepts cfg f tr r :
  accepts (process_video_with_semaphore cfg f) tr r ->
  exists h result,
    tr = EAcquire :: h ++ [ERelease] /\ r = inr result /\
    accepts (process_single_video cfg f 0) h result.
Proof.
  unfold accepts, process_video_with_semaphore. intros H.
  apply replay_Vis in H. destruct H as ([] & tr' & -> & H).
  rewrite replay_pbind in H.
  destruct (replay (process_single_video cfg f 0) tr') as [[result rest]|] eqn:Hr;
    [|discriminate].
  apply replay_Vis in H. destruct H as ([] & tr'' & -> & [= <- ->]).
  apply replay_split in Hr. destruct Hr as (h & -> & Hh).
  exists h, result. split; [reflexivity|]. split; [reflexivity|].
  specialize (Hh []). by rewrite app_nil_r in Hh.
Qed.














(** * Further properties of the code *)

(** ** The answers of the service *)

















(** ** Whole runs *)

Lemma total_app {A} (f : A -> Z) (l1 l2 : list A) :
  total f (l1 ++ l2) = total f l1 + total f l2.
Proof. induction l1 as [|a l1 IH]; cbn [app total]; lia. Qed.

Lemma attempt_effort f d tr r :
  accepts (try_body f d) tr r ->
  Z.of_nat (length (posts tr)) <= 1 /\ number is_poll tr <= 360 /\
  total_sleep tr <= max_wait.
Proof.
  intros H.
  pose proof (always_accepts _ _ _ _ (try_body_submits f d) H) as [_ Hp].
  pose proof (always_accepts _ _ _ _ (try_body_bounds f d) H) as (_ & Hs & Hle & _).
  split; [|unfold wait_interval, max_wait in *; lia].
  destruct r as [d' [e|[]]]; cbn [snd] in Hp.
  - destruct Hp as [rp ->]. cbn [length]. lia.
  - destruct Hp as [[-> _]|(j & id & -> & _)]; cbn [length]; lia.
Qed.

Lemma run_effort cfg f : forall rc tr res,
  accepts (process_single_video cfg f rc) tr res ->
  Z.of_nat (length (posts tr)) <= Z.max 0 (RETRY_LIMIT cfg - rc) + 1 /\
  number is_poll tr <= 360 * (Z.max 0 (RETRY_LIMIT cfg - rc) + 1) /\
  total_sleep tr <= max_wait * (Z.max 0 (RETRY_LIMIT cfg - rc) + 1)
                    + 5 * Z.max 0 (RETRY_LIMIT cfg - rc).
Proof.
  intros rc. induction rc as [rc IH] using (retry_induction cfg).
  intros tr res H.
  destruct (run_cases _ _ _ _ _ H) as (ts & tr_a & d & r & rest & -> & Ha & Hr).
  apply attempt_effort in Ha. destruct Ha as (Hp & Hn & Hs).
  unfold total_sleep, number in *. cbn [posts total sleep_secs is_poll].
  rewrite posts_app, length_app, !total_app, Nat2Z.inj_add.
  unfold max_wait in *.
  destruct r as [e|[]].
  - destruct Hr as [(Hlt & rest' & -> & H')|(Hge & -> & _)].
    + destruct (IH Hlt _ _ H') as (Hp' & Hn' & Hs').
      cbn [posts total sleep_secs is_poll]. lia.
    + cbn [posts total sleep_secs is_poll length]. lia.
  - destruct Hr as [-> _]. cbn [posts total length]. lia.
Qed.

(** X4. What one file can cost.  A run of [process_single_video] started
    with retry count 0 makes at most [RETRY_LIMIT + 1] submissions and at
    most 360 status polls for each of them, and the time it spends waiting,
    polling intervals and pauses before retries together, is at most
    [3600 * (RETRY_LIMIT + 1) + 5 * RETRY_LIMIT]; a negative [RETRY_LIMIT]
    counts as zero.  With the values of the module: two submissions, 720
    polls, 7205 time units. *)
Theorem run_effort_is_bounded cfg f tr res :
  accepts (process_single_video cfg f 0) tr res ->
  Z.of_nat (length (posts tr)) <= Z.max 0 (RETRY_LIMIT cfg) + 1 /\
  number is_poll tr <= 360 * (Z.max 0 (RETRY_LIMIT cfg) + 1) /\
  total_sleep tr <= 3600 * (Z.max 0 (RETRY_LIMIT cfg) + 1) + 5 * Z.max 0 (RETRY_LIMIT cfg).
Proof.
  intros H. destruct (run_effort cfg f 0 tr res H) as (Hp & Hn & Hs).
  rewrite Z.sub_0_r in *. unfold max_wait in Hs. auto.
Qed.

Lemma run_effort_is_bounded_witness :
  accepts (process_single_video module_config "a.mp4" 0) stalled_run.2 stalled_run.1 /\
  length (posts stalled_run.2) = 2%nat /\
  number is_poll stalled_run.2 = 720 /\
  total_sleep stalled_run.2 = 7205 /\
  total_sleep stalled_run.2 <= 7205.
Proof.
  assert (accepts (process_single_video module_config "a.mp4" 0)
            stalled_run.2 stalled_run.1) as H by (vm_compute; reflexivity).
  split; [exact H|]. split; [vm_compute; reflexivity|].
  split; [vm_compute; reflexivity|]. split; [vm_compute; reflexivity|].
  exact (proj2 (proj2 (run_effort_is_bounded module_config "a.mp4" _ _ H))).
Defined.

Lemma try_body_fields f d : always (try_body f d) (fun _ r => try_fields d r).
Proof.
  unfold try_body. repeat prog_step.
  9: { eapply always_mono; [|apply poll_loop_wf].
       intros tr [d' [e|[]]] [_ Hwf]; unfold try_fields; cbn [fst snd] in *; [done|].
       destruct Hwf as [_ ->]. right. dict_simpl.
       split; [done|]. split; [done|].
       destruct (requestId j) as [id|]; [|discriminate].
       exists id. split; [|done]. intros ->. discriminate. }
  1: { unfold try_fields. cbn [fst snd]. left. by dict_simpl. }
  all: exact I.
Qed.

(** X5. What the result of a run carries besides its status.  A result with
    status [success] has no error and the non-empty identifier of the job
    that produced the output; a result with status [skipped] has the error
    [Already processed] and no job identifier; a result with status
    [failed] has the text of the last exception as its error, and the run
    ends by printing that error and counting the failure. *)
Theorem result_fields_by_status cfg f : forall rc tr res,
  accepts (process_single_video cfg f rc) tr res ->
  (res !! "status" = Some (JStr "success") ->
     res !! "error" = Some JNull /\
     exists request_id, request_id <> "" /\ res !! "request_id" = Some (JStr request_id)) /\
  (res !! "status" = Some (JStr "skipped") ->
     res !! "error" = Some (JStr "Already processed") /\
     res !! "request_id" = Some JNull) /\
  (res !! "status" = Some (JStr "failed") ->
     exists e pre,
       res !! "error" = Some (JStr e) /\
       tr = pre ++ [EPrint (error_line f e); EIncr Failed]).
Proof.
  intros rc. induction rc as [rc IH] using (retry_induction cfg).
  intros tr res H.
  destruct (run_cases _ _ _ _ _ H) as (ts & tr_a & d & r & rest & -> & Ha & Hr).
  pose proof (always_accepts _ _ _ _ (try_body_fields f _) Ha) as Hf.
  unfold try_fields in Hf. cbn [fst snd] in Hf.
  destruct (initial_result_lookup f rc ts) as (_ & _ & Hrid & Herr & _).
  destruct r as [e|[]].
  - destruct Hr as [(Hlt & rest' & -> & H')|(Hge & -> & ->)].
    + destruct (IH Hlt _ _ H') as (H1 & H2 & H3).
      split; [exact H1|]. split; [exact H2|].
      intros Hs. destruct (H3 Hs) as (e' & pre & He' & ->).
      exists e', (ENow ts :: tr_a ++ [EPrint (error_line f e); EPrint (retry_line cfg rc);
                                      ESleep 5] ++ pre).
      split; [exact He'|]. cbn [app]. by rewrite <- !app_assoc.
    + unfold failed_result. dict_simpl.
      split; [discriminate|]. split; [discriminate|]. intros _.
      exists e, (ENow ts :: tr_a). by dict_simpl.
  - destruct Hr as [-> ->]. rewrite Hrid, Herr in Hf.
    destruct Hf as [(Hs & He & Hr)|(Hs & He & Hr)]; rewrite Hs;
      (split; [|split]); try discriminate; auto.
Qed.

Lemma result_fields_by_status_witness :
  accepts (process_single_video module_config "a.mp4" 0) complete_run.2 complete_run.1 /\
  complete_run.1 !! "error" = Some JNull /\
  exists request_id,
    request_id <> "" /\ complete_run.1 !! "request_id" = Some (JStr request_id).
Proof.
  assert (accepts (process_single_video module_config "a.mp4" 0)
            complete_run.2 complete_run.1) as H by (vm_compute; reflexivity).
  split; [exact H|].
  exact (proj1 (result_fields_by_status module_config "a.mp4" 0 _ _ H) eq_refl).
Defined.

(** ** The scheduler *)

Lemma number_pos {A} (P : A -> bool) (l : list A) :
  0 < number P l -> exists i a, l !! i = Some a /\ P a = true.
Proof.
  unfold number. induction l as [|a l IH]; cbn [total]; [lia|].
  destruct (P a) eqn:Ha.
  - intros _. by exists 0%nat, a.
  - intros H. destruct IH as (i & b & Hi & Hb); [lia|]. by exists (S i), b.
Qed.

Lemma runner_event_effect e sem ld :
  is_runner_event e = true -> is_Some (effect e sem ld).
Proof. destruct e; cbn [is_runner_event effect]; by eauto. Qed.

(** A task inside its slot can always make its next move. *)
Lemma running_steps cfg f pool i t h q :
  tasks pool !! i = Some t ->
  hist t = EAcquire :: h ->
  code t = pbind q release_then_return ->
  residual (process_single_video cfg f 0) h q ->
  exists e pool', pool_step i e pool = Some pool'.
Proof.
  intros Ht Hh Hc Hres. destruct q as [res|X c k].
  - exists ERelease. unfold pool_step, advance. rewrite Ht, Hc.
    cbn [pbind release_then_return reply_of effect]. by eexists.
  - exists (ev c (default_reply c)).
    assert (is_runner_event (ev c (default_reply c)) = true) as Hev.
    { pose proof (Hres _ _ (execute_accepts (fun _ _ c => default_reply c) 0 (Vis c k)))
        as Hacc.
      apply (always_accepts _ _ _ _ (process_single_video_wf cfg f 0)) in Hacc.
      destruct Hacc as [Hall _]. apply runner_events_app in Hall.
      destruct Hall as [_ Hall]. cbn [execute snd] in Hall.
      apply Forall_cons in Hall. tauto. }
    destruct (runner_event_effect _ (semaphore pool) (log_data pool) Hev) as [[sem ld] He].
    unfold pool_step, advance. rewrite Ht, Hc. cbn [pbind].
    rewrite reply_of_ev, He. by eexists.
Qed.

Lemma pool_run_slots cfg files ld sched pool :
  pool_run sched (initial_pool cfg files ld) = Some pool ->
  Forall2 (task_stage cfg) files (tasks pool) /\
  semaphore pool + number in_flight (tasks pool) = MAX_CONCURRENT_TASKS cfg.
Proof.
  intros Hrun.
  pose proof (pool_run_stages cfg files sched (initial_pool cfg files ld) pool
                (initial_stages cfg files) Hrun) as Hst.
  split; [exact Hst|].
  destruct (pool_run_accounting _ _ _ Hrun) as (_ & Hsem & _).
  cbn [initial_pool semaphore tasks] in Hsem.
  rewrite (total_spawn held) in Hsem by reflexivity.
  rewrite (stages_held _ _ _ Hst) in Hsem. lia.
Qed.

(** X6. The semaphore never blocks the batch for good.  With at least one
    slot, in every state that an interleaving of the tasks can reach, as
    long as one task has not returned some task can make its next move:
    a task inside its slot is never blocked, and a task waiting for a slot
    is blocked only while other tasks are inside theirs. *)
Theorem pool_never_deadlocks cfg files ld sched pool i t :
  0 < MAX_CONCURRENT_TASKS cfg ->
  pool_run sched (initial_pool cfg files ld) = Some pool ->
  tasks pool !! i = Some t -> outcome t = None ->
  exists j e pool', pool_step j e pool = Some pool'.
Proof.
  intros HK Hrun Ht Hout.
  destruct (pool_run_slots _ _ _ _ _ Hrun) as [Hst Hsem].
  destruct (Forall2_lookup_r _ _ _ _ _ Hst Ht) as (f & _ & [Hh Hc|h q Hh Hc Hres|h res Hh Hc _]).
  - destruct (decide (0 < semaphore pool)) as [Hpos|Hfull].
    + exists i, EAcquire. unfold pool_step, advance. rewrite Ht, Hc.
      unfold process_video_with_semaphore. cbn [reply_of effect].
      rewrite decide_True by done. by eexists.
    + destruct (number_pos in_flight (tasks pool)) as (j & t' & Ht' & Hin); [lia|].
      exists j.
      destruct (Forall2_lookup_r _ _ _ _ _ Hst Ht')
        as (f' & _ & [Hh' Hc'|h' q' Hh' Hc' Hres'|h' res' Hh' Hc' _]).
      * unfold in_flight in Hin. rewrite Hh' in Hin.
        rewrite bool_decide_eq_false_2 in Hin by apply not_elem_of_nil. discriminate.
      * by apply (running_steps cfg f' pool j t' h' q').
      * unfold in_flight in Hin. rewrite Hh' in Hin.
        rewrite (bool_decide_eq_true_2 (ERelease ∈ _)) in Hin; [by destruct (bool_decide _)|].
        apply elem_of_cons. right. apply elem_of_app. right. apply list_elem_of_here.
  - exists i. by apply (running_steps cfg f pool i t h q).
  - unfold outcome in Hout. by rewrite Hc in Hout.
Qed.

Lemma pool_never_deadlocks_witness :
  exists pool,
    pool_run sample_schedule
      (initial_pool module_config sample_files (initial_log_data "t0")) = Some pool /\
    exists j e pool', pool_step j e pool = Some pool'.
Proof.
  eexists. split; [reflexivity|].
  eapply (pool_never_deadlocks module_config sample_files (initial_log_data "t0")
            sample_schedule _ 0%nat);
    [simpl; lia|reflexivity|reflexivity|reflexivity].
Defined.

(** X7. The semaphore is whole again after the batch.  When [gather] returns
    under an interleaving of the tasks, every task has returned a result
    for its file, no task is left inside a slot, and the semaphore is back
    at [MAX_CONCURRENT_TASKS]: each slot taken was given back once. *)
Theorem gather_returns_every_slot cfg files sched ld rs pool :
  gather (process_video_with_semaphore cfg <$> files) sched
    (MAX_CONCURRENT_TASKS cfg) ld = Some (rs, pool) ->
  semaphore pool = MAX_CONCURRENT_TASKS cfg /\
  number in_flight (tasks pool) = 0 /\
  Forall (fun t => held (hist t) = 0 /\ is_Some (outcome t)) (tasks pool) /\
  length rs = length files.
Proof.
  unfold gather. intros H.
  destruct (pool_run sched _) as [pool1|] eqn:Hrun; [|discriminate].
  cbn in H. destruct (mapM outcome (tasks pool1)) as [rs1|] eqn:Hout; [|discriminate].
  cbn in H. injection H as <- <-.
  destruct (pool_run_slots cfg files ld sched pool1 Hrun) as [Hst Hsem].
  apply mapM_Some in Hout.
  assert (Forall (fun t => in_flight t = false /\ is_Some (outcome t)) (tasks pool1)) as Hall.
  { clear -Hst Hout. revert rs1 Hout.
    induction Hst as [|f t fs ts Hft _ IH]; intros rs1 Hout; [constructor|].
    inversion Hout as [|t' r ts' rs' Hr Hrs]; subst. constructor; [|by eapply IH].
    destruct (stage_outcome _ _ _ _ Hft Hr) as (h & res & _ & Hh & _).
    split; [|by eexists]. unfold in_flight. rewrite Hh.
    rewrite (bool_decide_eq_true_2 (ERelease ∈ _)); [by destruct (bool_decide _)|].
    apply elem_of_cons. right. apply elem_of_app. right. apply list_elem_of_here. }
  assert (number in_flight (tasks pool1) = 0) as Hzero.
  { apply total_zero. eapply Forall_impl; [exact Hall|]. by intros t [-> _]. }
  split; [lia|]. split; [exact Hzero|]. split.
  - clear -Hst Hall. induction Hst as [|f t fs ts Hft _ IH]; [constructor|].
    apply Forall_cons in Hall. destruct Hall as [[Hin Ho] Hall].
    constructor; [|by apply IH]. split; [|exact Ho].
    by rewrite (stage_held _ _ _ Hft), Hin.
  - rewrite <- (Forall2_length _ _ _ Hout). symmetry. by eapply Forall2_length.
Qed.

Lemma gather_returns_every_slot_witness :
  exists rs pool,
    gather (process_video_with_semaphore module_config <$> ["c.mp4"]) skip_schedule
      (MAX_CONCURRENT_TASKS module_config) (initial_log_data "t0") = Some (rs, pool) /\
    semaphore pool = 5 /\ length rs = 1%nat.
Proof.
  do 2 eexists. split; [reflexivity|].
  destruct (gather_returns_every_slot module_config ["c.mp4"] skip_schedule
              (initial_log_data "t0") _ _ eq_refl) as (Hsem & _ & _ & Hlen).
  split; [exact Hsem|exact Hlen].
Defined.

Lemma initial_pool_blocked cfg files ld i e :
  MAX_CONCURRENT_TASKS cfg <= 0 -> pool_step i e (initial_pool cfg files ld) = None.
Proof.
  intros HK. unfold pool_step, initial_pool. cbn [tasks semaphore log_data].
  rewrite !list_lookup_fmap. destruct (files !! i) as [f|]; [|reflexivity].
  cbn [fmap option_fmap option_map]. unfold advance, spawn, process_video_with_semaphore.
  cbn [code reply_of]. destruct e; try reflexivity.
  cbn [effect]. by rewrite decide_False by lia.
Qed.

(** X8. A semaphore without slots stops everything.  With
    [MAX_CONCURRENT_TASKS = 0] no task can make a single move, whatever the
    interleaving, so a batch over at least one file has no behaviour that
    reaches the end of [process_all_videos]: nothing is submitted, no
    ledger is written, no summary is printed. *)
Theorem no_slot_no_batch cfg files ld :
  MAX_CONCURRENT_TASKS cfg = 0 -> files <> [] ->
  (forall sched pool,
     pool_run sched (initial_pool cfg files ld) = Some pool -> sched = []) /\
  (forall tr, process_all_videos cfg files ld tr = None).
Proof.
  intros HK Hne. split.
  - intros [|[i e] sched] pool; [done|]. cbn [pool_run].
    rewrite initial_pool_blocked by lia. discriminate.
  - intros tr. destruct files as [|f files]; [done|].
    unfold process_all_videos.
    destruct (complete _ (main_before tr)) as [[]|]; [|reflexivity].
    unfold gather.
    destruct (runners tr) as [|[i e] sched].
    + reflexivity.
    + cbn [pool_run].
      change (mkPool (MAX_CONCURRENT_TASKS cfg) ?l
                (spawn <$> (process_video_with_semaphore cfg <$> ?fs)))
        with (initial_pool cfg fs l).
      by rewrite initial_pool_blocked by lia.
Qed.

Lemma no_slot_no_batch_witness :
  process_all_videos no_slot_config sample_files (initial_log_data "t0") sample_batch = None.
Proof.
  apply (no_slot_no_batch no_slot_config sample_files (initial_log_data "t0"));
    [reflexivity|discriminate].
Defined.

(** * The batch with fallible writes *)

(** ** Every interleaving comes to an end *)

Lemma tasks_step_nil ts' : ~ tasks_step ts' [].
Proof. intros (i & t & e & t' & Hi & _). by rewrite lookup_nil in Hi. Qed.

Lemma tasks_step_cons p h : forall ts,
  Acc tasks_step ts -> Acc tasks_step (mkTask p h :: ts).
Proof.
  revert h. induction p as [r|X c k IHp]; intros h ts Hts.
  - induction Hts as [ts _ IHts]. constructor.
    intros ts' (i & t & e & t' & Hi & Ha & ->). destruct i as [|i].
    + injection Hi as <-. discriminate Ha.
    + cbn [insert list_insert]. apply IHts. by exists i, t, e, t'.
  - induction Hts as [ts Hacc IHts]. constructor.
    intros ts' (i & t & e & t' & Hi & Ha & ->). destruct i as [|i].
    + injection Hi as <-. unfold advance in Ha. cbn [code hist] in Ha.
      destruct (reply_of c e) as [x|]; [|discriminate]. injection Ha as <-.
      cbn [insert list_insert]. apply IHp. by constructor.
    + cbn [insert list_insert]. apply IHts. by exists i, t, e, t'.
Qed.

Lemma tasks_step_wf : forall ts, Acc tasks_step ts.
Proof.
  induction ts as [|[p h] ts IH].
  - constructor. intros ts' H. by apply tasks_step_nil in H.
  - by apply tasks_step_cons.
Qed.

(** No interleaving goes on for ever: the moves of a pool are well founded,
    whatever its tasks are. *)
Lemma pool_next_wf : forall pool, Acc pool_next pool.
Proof.
  intros pool. remember (tasks pool) as ts eqn:Hts.
  revert pool Hts. induction (tasks_step_wf ts) as [ts _ IH]. intros pool ->.
  constructor. intros pool' (i & e & Hstep).
  destruct (pool_step_inv _ _ _ _ Hstep) as (t & t' & sem & ld & Ht & Ha & _ & ->).
  apply (IH (<[i := t']> (tasks pool))); [|reflexivity].
  by exists i, t, e, t'.
Qed.

(** ** The runner *)

Ltac io_unfold :=
  cbn [always pbind mbind call await lift raise mret set_item fst snd ev
       is_already_processed submit_video_job upload_video check_job_status download_result
       Fallible.say Fallible.and_then].

Ltac io_step :=
  first
    [ progress io_unfold
    | lazymatch goal with
      | |- forall _ : unit, _ => intros []
      | |- forall _ : _ + _, _ => intros [?|?]
      | |- forall _ : _ * _, _ => intros [? ?]
      | |- forall _, _ => intro
      | |- always ?p _ => let x := stuck_on p in destruct x eqn:?
      end ].

Lemma io_poll_loop_eq f rid elapsed :
  Fallible.poll_loop f rid elapsed =
  Fallible.poll_loop_unfold_clause_1 f rid elapsed (decide (elapsed < max_wait)).
Proof. apply Fallible.poll_loop_equation_1. Qed.

Ltac inner_events := repeat (apply List.Forall_cons; [reflexivity|]); try apply List.Forall_nil.

Lemma io_poll_loop_keeps f rid : forall elapsed d,
  always (Fallible.poll_loop f rid elapsed d) (fun tr r =>
    Forall (fun e => is_inner e = true) tr /\
    (r.1 = d \/ r.1 = <["status" := JStr "success"]> d)).
Proof.
  intros elapsed. induction elapsed as [elapsed IH] using poll_loop_induction.
  intros d. rewrite io_poll_loop_eq. destruct (decide (elapsed < max_wait)) as [Hlt|Hge].
  - cbn [Fallible.poll_loop_unfold_clause_1]. repeat io_step.
    all: try (split; [by inner_events|cbn [fst]; by auto]).
    all: eapply always_mono; [|apply (IH Hlt)]; intros tr r [Hev Hr];
      (split; [inner_events; exact Hev|exact Hr]).
  - cbn [Fallible.poll_loop_unfold_clause_1]. repeat io_step. split; [constructor|by left].
Qed.

Lemma attempt_keeps_insert d tr d' r key v :
  key = "status" /\ (exists s, v = JStr s) \/ key = "error" \/ key = "request_id" ->
  attempt_keeps (<[key := v]> d) tr (d', r) -> attempt_keeps d tr (d', r).
Proof.
  intros Hkey (Hev & Hkeep & Hrid & Herr & Hst). cbn [fst] in *.
  split; [exact Hev|]. split; [|split; [|split]].
  - intros k H1 H2 H3. rewrite Hkeep by done.
    apply lookup_insert_ne. destruct Hkey as [[-> _]|[->| ->]]; congruence.
  - intros H. apply Hrid. destruct (decide (key = "request_id")) as [->|Hne].
    + rewrite lookup_insert_eq. by eexists.
    + by rewrite lookup_insert_ne.
  - intros H. apply Herr. destruct (decide (key = "error")) as [->|Hne].
    + rewrite lookup_insert_eq. by eexists.
    + by rewrite lookup_insert_ne.
  - intros H. apply Hst. destruct (decide (key = "status")) as [->|Hne].
    + rewrite lookup_insert_eq. destruct Hkey as [[_ [s ->]]|[?|?]]; [by eexists|done|done].
    + by rewrite lookup_insert_ne.
Qed.

Lemma attempt_keeps_refl d tr r :
  Forall (fun e => is_inner e = true) tr -> attempt_keeps d tr (d, r).
Proof. intros Hev. split; [exact Hev|]. cbn [fst]. auto. Qed.

Lemma io_try_body_keeps f d : always (Fallible.try_body f d) (attempt_keeps d).
Proof.
  unfold Fallible.try_body. repeat io_step.
  all: try (apply attempt_keeps_refl; by inner_events).
  all: try (eapply attempt_keeps_insert; [|apply attempt_keeps_refl; by inner_events]; by auto).
  1, 2: apply (attempt_keeps_insert _ _ _ _ "status" (JStr "skipped")); [by eauto|];
    apply (attempt_keeps_insert _ _ _ _ "error" (JStr "Already processed")); [by auto|];
    apply attempt_keeps_refl; by inner_events.
  eapply always_mono; [|apply io_poll_loop_keeps]. intros tr [d' r] [Hev Hr].
  cbn [fst] in Hr.
  apply (attempt_keeps_insert _ _ _ _ "request_id" (jopt (requestId j))); [by auto|].
  destruct Hr as [-> | ->].
  - apply attempt_keeps_refl. inner_events. exact Hev.
  - apply (attempt_keeps_insert _ _ _ _ "status" (JStr "success")); [by eauto|].
    apply attempt_keeps_refl. inner_events. exact Hev.
Qed.

Lemma inner_app tr1 tr2 :
  Forall (fun e => is_inner e = true) tr1 -> Forall (fun e => is_inner e = true) tr2 ->
  Forall (fun e => is_inner e = true) (tr1 ++ tr2).
Proof. intros H1 H2. apply Forall_app. by split. Qed.

Lemma run_fields_failed f d e :
  run_fields f d ->
  run_fields f (<["error" := JStr e]> (<["status" := JStr "failed"]> d)).
Proof.
  intros (Hf & Hs & Hr & He & Hk & Ht). unfold run_fields. dict_simpl.
  split; [exact Hf|]. split; [by eauto|]. split; [exact Hr|]. split; [by eauto|].
  split; [exact Hk|exact Ht].
Qed.

Lemma io_run_keeps cfg f : forall rc,
  always (Fallible.process_single_video cfg f rc) (run_keeps f).
Proof.
  intros rc. induction rc as [rc IH] using (retry_induction cfg).
  rewrite Fallible.process_single_video_equation_1. cbn [always]. intros ts.
  destruct (initial_result_lookup f rc ts) as (Hf & Hs & Hr & He & Hrc & Hts).
  apply always_pbind. eapply always_mono; [|apply io_try_body_keeps].
  intros tr [d r] (Hev & Hkeep & Hrid & Herr & Hst). cbn [fst snd] in *.
  assert (run_fields f d) as Hd.
  { unfold run_fields.
    rewrite (Hkeep "filename"), (Hkeep "retry_count"), (Hkeep "timestamp") by discriminate.
    split; [exact Hf|]. split; [by eauto|]. split; [by eauto|].
    split; [by eauto|]. split; by eauto. }
  destruct r as [e|[]]; repeat io_step.
  - split; [|exact I]. apply List.Forall_cons; [reflexivity|].
    apply inner_app; [exact Hev|by inner_events].
  - split; [|exact I]. apply List.Forall_cons; [reflexivity|].
    apply inner_app; [exact Hev|by inner_events].
  - eapply always_mono; [|by apply IH]. intros tr' r [Hev' Hr']. split; [|exact Hr'].
    apply List.Forall_cons; [reflexivity|]. apply inner_app; [exact Hev|].
    inner_events. exact Hev'.
  - split.
    + apply List.Forall_cons; [reflexivity|]. apply inner_app; [exact Hev|by inner_events].
    + by apply run_fields_failed.
  - split; [|exact Hd]. apply List.Forall_cons; [reflexivity|]. by rewrite app_nil_r.
Qed.

(** ** The tasks *)

Lemma inner_runner_events tr :
  Forall (fun e => is_inner e = true) tr -> runner_events tr.
Proof.
  intros H. eapply Forall_impl; [exact H|]. intros e He. by destruct e.
Qed.

Lemma io_advance_stage cfg f t e t' :
  io_stage cfg f t -> advance t e = Some t' -> io_stage cfg f t'.
Proof.
  intros [Hh Hc|h q Hh Hc Hres|h r Hh Hc Hacc]; unfold advance; rewrite Hc.
  - unfold Fallible.process_video_with_semaphore. simpl.
    destruct e; try discriminate. intros [= <-].
    eapply io_running; [rewrite Hh; reflexivity|reflexivity|apply residual_start].
  - destruct q as [r|X c k]; simpl.
    + destruct e; try discriminate. intros [= <-].
      eapply io_finished; [rewrite Hh; reflexivity|reflexivity|].
      rewrite <- (app_nil_r h). apply Hres. reflexivity.
    + destruct (reply_of c e) as [x|] eqn:Hx; [|discriminate]. intros [= <-].
      apply reply_of_Some in Hx. subst e.
      eapply io_running; [rewrite Hh; reflexivity|reflexivity|].
      by apply residual_step.
  - discriminate.
Qed.

Lemma io_residual_inner cfg f h q :
  residual (Fallible.process_single_video cfg f 0) h q ->
  Forall (fun e => is_inner e = true) h.
Proof.
  intros Hres.
  pose proof (Hres _ _ (execute_accepts (fun _ _ c => default_reply c) 0 q)) as Hacc.
  apply (always_accepts _ _ _ _ (io_run_keeps cfg f 0)) in Hacc.
  destruct Hacc as [Hev _]. apply Forall_app in Hev. tauto.
Qed.

(** What a task has done, stage by stage. *)
Lemma io_stage_hist cfg f t :
  io_stage cfg f t ->
  held (hist t) = (if in_flight t then 1 else 0) /\
  (is_Some (outcome t) -> in_flight t = false) /\
  Forall (fun e => forall p s r, e <> EDump p s r) (hist t).
Proof.
  assert (forall h, Forall (fun e => is_inner e = true) h ->
            Forall (fun e => forall p s r, e <> EDump p s r) h) as Hnodump.
  { intros h Hh. eapply Forall_impl; [exact Hh|]. intros e He p s r ->. discriminate. }
  intros [Hh Hc|h q Hh Hc Hres|h r Hh Hc Hacc]; unfold in_flight, outcome; rewrite Hh, Hc.
  - rewrite bool_decide_eq_false_2 by apply not_elem_of_nil.
    split; [reflexivity|]. split; [done|constructor].
  - apply io_residual_inner in Hres.
    rewrite bool_decide_eq_true_2 by apply list_elem_of_here.
    rewrite (bool_decide_eq_false_2 (ERelease ∈ _)).
    + cbn [held andb negb]. rewrite held_runner_events by by apply inner_runner_events.
      split; [reflexivity|]. split.
      * destruct q; cbn [pbind release_outcome]; by intros [? ?].
      * constructor; [done|by apply Hnodump].
    + rewrite elem_of_cons. intros [?|Hin]; [discriminate|].
      apply (not_elem_of_runner_events ERelease h); [reflexivity| |exact Hin].
      by apply inner_runner_events.
  - apply (always_accepts _ _ _ _ (io_run_keeps cfg f 0)) in Hacc.
    destruct Hacc as [Hev _].
    rewrite (bool_decide_eq_true_2 (ERelease ∈ _)).
    + rewrite andb_false_r. cbn [held].
      rewrite held_app, held_runner_events by by apply inner_runner_events.
      split; [reflexivity|]. split; [done|].
      constructor; [done|]. apply Forall_app. split; [by apply Hnodump|].
      constructor; [done|constructor].
    + rewrite elem_of_cons, elem_of_app, list_elem_of_singleton. auto.
Qed.

Lemma io_initial_stages cfg files :
  Forall2 (io_stage cfg) files
    (spawn <$> (Fallible.process_video_with_semaphore cfg <$> files)).
Proof.
  induction files as [|f files IH]; simpl; constructor; [|exact IH].
  by apply io_waiting.
Qed.

Lemma io_pool_run_stages cfg files sched : forall pool pool',
  Forall2 (io_stage cfg) files (tasks pool) ->
  pool_run sched pool = Some pool' ->
  Forall2 (io_stage cfg) files (tasks pool').
Proof.
  induction sched as [|[i e] sched IH]; intros pool pool' Hst; simpl.
  - by intros [= <-].
  - destruct (pool_step i e pool) as [pool1|] eqn:Hstep; [|discriminate].
    apply IH.
    destruct (pool_step_inv _ _ _ _ Hstep) as (t & t' & sem & ld & Ht & Ha & _ & ->).
    cbn [tasks].
    destruct (Forall2_lookup_r _ _ _ _ _ Hst Ht) as (f & Hf & Hstage).
    rewrite <- (list_insert_id files i f Hf).
    apply Forall2_insert; [exact Hst|]. eapply io_advance_stage; eauto.
Qed.

Lemma io_stages_held cfg files ts :
  Forall2 (io_stage cfg) files ts ->
  total (fun t => held (hist t)) ts = number in_flight ts.
Proof.
  unfold number. induction 1 as [|f t files ts Hst _ IH]; simpl; [reflexivity|].
  destruct (io_stage_hist _ _ _ Hst) as [-> _]. by rewrite IH.
Qed.

(** Every state that an interleaving reaches: the tasks are in their
    stages and the slots add up. *)
Lemma io_pool_run_slots cfg files ld sched pool :
  pool_run sched (io_pool cfg files ld) = Some pool ->
  Forall2 (io_stage cfg) files (tasks pool) /\
  semaphore pool + number in_flight (tasks pool) = MAX_CONCURRENT_TASKS cfg.
Proof.
  intros Hrun.
  pose proof (io_pool_run_stages cfg files sched (io_pool cfg files ld) pool
                (io_initial_stages cfg files) Hrun) as Hst.
  split; [exact Hst|].
  destruct (pool_run_accounting _ _ _ Hrun) as (_ & Hsem & _).
  cbn [io_pool semaphore tasks] in Hsem.
  rewrite (total_spawn held) in Hsem by reflexivity.
  rewrite (io_stages_held _ _ _ Hst) in Hsem. lia.
Qed.

Lemma io_running_steps cfg f pool i t h q :
  tasks pool !! i = Some t ->
  hist t = EAcquire :: h ->
  code t = pbind q release_outcome ->
  residual (Fallible.process_single_video cfg f 0) h q ->
  exists e pool', pool_step i e pool = Some pool'.
Proof.
  intros Ht Hh Hc Hres. destruct q as [r|X c k].
  - exists ERelease. unfold pool_step, advance. rewrite Ht, Hc.
    cbn [pbind release_outcome reply_of effect]. by eexists.
  - exists (ev c (default_reply c)).
    assert (is_inner (ev c (default_reply c)) = true) as Hev.
    { pose proof (Hres _ _ (execute_accepts (fun _ _ c => default_reply c) 0 (Vis c k)))
        as Hacc.
      apply (always_accepts _ _ _ _ (io_run_keeps cfg f 0)) in Hacc.
      destruct Hacc as [Hall _]. apply Forall_app in Hall.
      destruct Hall as [_ Hall]. cbn [execute snd] in Hall.
      apply Forall_cons in Hall. tauto. }
    assert (is_Some (effect (ev c (default_reply c)) (semaphore pool) (log_data pool)))
      as [[sem ld] He].
    { apply runner_event_effect. by destruct (ev c (default_reply c)). }
    unfold pool_step, advance. rewrite Ht, Hc. cbn [pbind].
    rewrite reply_of_ev, He. by eexists.
Qed.

(** With at least one slot, some task can move as long as one of them has not
    ended. *)
Lemma io_progress cfg files ld sched pool :
  0 < MAX_CONCURRENT_TASKS cfg ->
  pool_run sched (io_pool cfg files ld) = Some pool ->
  ~ all_finished pool ->
  exists pool', pool_next pool' pool.
Proof.
  intros HK Hrun Hnot.
  destruct (io_pool_run_slots _ _ _ _ _ Hrun) as [Hst Hsem].
  assert (exists i t, tasks pool !! i = Some t /\ outcome t = None) as (i & t & Ht & Hout).
  { unfold all_finished in Hnot. apply not_Forall_Exists in Hnot; [|intros ?; apply _].
    apply Exists_exists in Hnot. destruct Hnot as (t & Hin & Ho).
    apply list_elem_of_lookup in Hin. destruct Hin as [i Hi].
    exists i, t. split; [exact Hi|]. destruct (outcome t) as [r|] eqn:Hr; [|done].
    exfalso. apply Ho. cbn beta. rewrite Hr. by eexists. }
  destruct (Forall2_lookup_r _ _ _ _ _ Hst Ht) as (f & _ & [Hh Hc|h q Hh Hc Hres|h r Hh Hc _]).
  - destruct (decide (0 < semaphore pool)) as [Hpos|Hfull].
    + eexists. exists i, EAcquire. unfold pool_step, advance. rewrite Ht, Hc.
      unfold Fallible.process_video_with_semaphore. cbn [reply_of effect].
      rewrite decide_True by done. reflexivity.
    + destruct (number_pos in_flight (tasks pool)) as (j & t' & Ht' & Hin); [lia|].
      destruct (Forall2_lookup_r _ _ _ _ _ Hst Ht')
        as (f' & _ & [Hh' Hc'|h' q' Hh' Hc' Hres'|h' r' Hh' Hc' Hacc']).
      * unfold in_flight in Hin. rewrite Hh' in Hin.
        rewrite bool_decide_eq_false_2 in Hin by apply not_elem_of_nil. discriminate.
      * destruct (io_running_steps cfg f' pool j t' h' q' Ht' Hh' Hc' Hres') as (e & pool' & H).
        by exists pool', j, e.
      * destruct (io_stage_hist cfg f' t') as (_ & Hfin & _);
          [by eapply io_finished|].
        rewrite Hfin in Hin; [discriminate|]. unfold outcome. rewrite Hc'. by eexists.
  - destruct (io_running_steps cfg f pool i t h q Ht Hh Hc Hres) as (e & pool' & H).
    by exists pool', i, e.
  - unfold outcome in Hout. by rewrite Hc in Hout.
Qed.

(** ** The main coroutine *)

Lemma printed_nil : printed [] [] (inr tt).
Proof. by left. Qed.

Lemma printed_cons_ok l lines tr r :
  printed lines tr r -> printed (l :: lines) (EEmit l (inr tt) :: tr) r.
Proof.
  intros [[-> ->]|(pre & l' & post & e & -> & -> & ->)].
  - by left.
  - right. by exists (l :: pre), l', post, e.
Qed.

Lemma printed_cons_fail l lines e : printed (l :: lines) [EEmit l (inl e)] (inl e).
Proof. right. by exists [], l, lines, e. Qed.

Lemma io_print_all_spec lines : always (Fallible.print_all lines) (printed lines).
Proof.
  induction lines as [|l lines IH]; cbn [Fallible.print_all always]; [apply printed_nil|].
  unfold Fallible.and_then. cbn [pbind always]. intros [e|[]]; cbn [pbind always ev].
  - apply printed_cons_fail.
  - eapply always_mono; [|apply IH]. intros tr r. apply printed_cons_ok.
Qed.

Lemma printed_app_ok lines1 lines2 tr2 r :
  printed lines2 tr2 r -> printed (lines1 ++ lines2) (emitted lines1 ++ tr2) r.
Proof.
  induction lines1 as [|l lines1 IH]; [done|]. intros H.
  cbn [app emitted fmap list_fmap]. apply printed_cons_ok. by apply IH.
Qed.

Lemma printed_app_fail lines1 lines2 tr e :
  printed lines1 tr (inl e) -> printed (lines1 ++ lines2) tr (inl e).
Proof.
  intros [[? _]|(pre & l & post & e' & -> & -> & [= ->])]; [discriminate|].
  right. exists pre, l, (post ++ lines2), e'. by rewrite <- app_assoc.
Qed.

(** Printing one list of lines and then another is printing both in a row. *)
Lemma io_print_then lines1 lines2 :
  always (Fallible.and_then (Fallible.print_all lines1)
            (fun _ => Fallible.print_all lines2))
    (printed (lines1 ++ lines2)).
Proof.
  unfold Fallible.and_then. apply always_pbind.
  eapply always_mono; [|apply io_print_all_spec].
  intros tr1 [e|[]] H1.
  - cbn [always]. rewrite app_nil_r. by apply printed_app_fail.
  - destruct H1 as [[_ ->]|(? & ? & ? & ? & _ & _ & ?)]; [|discriminate].
    eapply always_mono; [|apply io_print_all_spec].
    intros tr2 r. apply printed_app_ok.
Qed.

Lemma io_print_summary_spec ld :
  always (Fallible.print_summary ld) (printed (report_lines ld)).
Proof.
  unfold Fallible.print_summary, report_lines. case_bool_decide.
  - apply io_print_then.
  - rewrite app_nil_r. unfold Fallible.and_then. apply always_pbind.
    eapply always_mono; [|apply io_print_all_spec].
    intros tr [e|[]] H1; cbn [always]; by rewrite ?app_nil_r.
Qed.

Lemma io_settle_spec rs ld : always (Fallible.settle rs ld) (settled rs ld).
Proof.
  unfold Fallible.settle. apply always_pbind. eapply always_mono; [|apply collect_spec].
  intros pre ld1 (entries & stamps & Hent & Hext & -> & Hlen).
  cbn [always]. intros ts.
  unfold Fallible.save_log, Fallible.and_then at 1 2. cbn [pbind always].
  intros [e|[]]; cbn [pbind always ev].
  - exists entries, ld1, ts, stamps, (inl e), []. by rewrite ?app_nil_r.
  - intros [e|[]]; cbn [pbind always ev].
    + exists entries, ld1, ts, stamps, (inr tt), [EEmit ("Log saved to: " +:+ LOG_FILE) (inl e)].
      rewrite ?app_nil_r. repeat (split; [done|]).
      exists (inl e). split; [apply printed_cons_fail|done].
    + unfold Fallible.and_then. apply always_pbind.
      eapply always_mono; [|apply io_print_summary_spec].
      intros tr2 pr Hpr.
      assert (printed (("Log saved to: " +:+ LOG_FILE) :: report_lines (set_end_time ts ld1))
                (EEmit ("Log saved to: " +:+ LOG_FILE) (inr tt) :: tr2) pr) as Hall
        by by apply printed_cons_ok.
      destruct pr as [e|[]]; cbn [always]; rewrite ?app_nil_r.
      * exists entries, ld1, ts, stamps, (inr tt),
          (EEmit ("Log saved to: " +:+ LOG_FILE) (inr tt) :: tr2).
        repeat (split; [done|]). by exists (inl e).
      * exists entries, ld1, ts, stamps, (inr tt),
          (EEmit ("Log saved to: " +:+ LOG_FILE) (inr tt) :: tr2).
        repeat (split; [done|]). by exists (inr tt).
Qed.

(** ** The batch *)

Lemma io_with_semaphore_accepts cfg f tr r :
  accepts (Fallible.process_video_with_semaphore cfg f) tr r ->
  exists h, tr = EAcquire :: h ++ [ERelease] /\
            accepts (Fallible.process_single_video cfg f 0) h r.
Proof.
  unfold accepts, Fallible.process_video_with_semaphore. intros H.
  apply replay_Vis in H. destruct H as ([] & tr' & -> & H).
  rewrite replay_pbind in H.
  destruct (replay (Fallible.process_single_video cfg f 0) tr') as [[o rest]|] eqn:Hr;
    [|discriminate].
  apply replay_Vis in H. destruct H as ([] & tr'' & -> & [= <- ->]).
  apply replay_split in Hr. destruct Hr as (h & -> & Hh).
  exists h. split; [reflexivity|].
  specialize (Hh []). by rewrite app_nil_r in Hh.
Qed.

(** What [gather] hands back: for each file the outcome of one complete run
    on it, returned or raised; every slot given back; and a ledger in which
    the tasks have touched the counters only. *)
Lemma io_gather_spec cfg files sched ld rs pool :
  gather (Fallible.process_video_with_semaphore cfg <$> files) sched
    (MAX_CONCURRENT_TASKS cfg) ld = Some (rs, pool) ->
  Forall2 (fun f r => exists h, accepts (Fallible.process_single_video cfg f 0) h r)
    files rs /\
  Forall2 (io_stage cfg) files (tasks pool) /\
  Forall2 (fun t r => outcome t = Some r) (tasks pool) rs /\
  semaphore pool = MAX_CONCURRENT_TASKS cfg /\
  results (log_data pool) = results ld /\
  total_videos (log_data pool) = total_videos ld /\
  start_time (log_data pool) = start_time ld /\
  end_time (log_data pool) = end_time ld /\
  (forall c, counter c (log_data pool) =
             counter c ld + total (fun t => bumps c (hist t)) (tasks pool)) /\
  Forall (fun ie : nat * Event => is_dump ie.2 = false) sched.
Proof.
  unfold gather. intros H.
  destruct (pool_run sched _) as [pool1|] eqn:Hrun; [|discriminate].
  cbn in H. destruct (mapM outcome (tasks pool1)) as [rs1|] eqn:Hout; [|discriminate].
  cbn in H. injection H as <- <-.
  destruct (io_pool_run_slots cfg files ld sched pool1 Hrun) as [Hst Hsem].
  apply mapM_Some in Hout.
  destruct (pool_run_accounting _ _ _ Hrun) as (_ & _ & _ & Hcnt & Hres & Htot & Hstart & Hend).
  cbn [io_pool tasks log_data] in Hcnt, Hres, Htot, Hstart, Hend.
  assert (number in_flight (tasks pool1) = 0) as Hzero.
  { apply total_zero. clear -Hst Hout. revert rs1 Hout.
    induction Hst as [|f t fs ts Hft _ IH]; intros rs1 Hout; [constructor|].
    inversion Hout as [|t' r ts' rs' Hr Hrs]; subst. constructor; [|by eapply IH].
    destruct (io_stage_hist _ _ _ Hft) as (_ & Hfin & _).
    rewrite Hfin; [done|]. by eexists. }
  split.
  { clear -Hst Hout. revert rs1 Hout.
    induction Hst as [|f t fs ts Hft _ IH]; intros rs1 Hout.
    - inversion Hout. constructor.
    - inversion Hout as [|t' r ts' rs' Hr Hrs]; subst. constructor; [|by apply IH].
      destruct Hft as [_ Hc|h q _ Hc _|h r' _ Hc Hacc]; unfold outcome in Hr;
        rewrite Hc in Hr.
      + discriminate.
      + destruct q; discriminate.
      + injection Hr as <-. by exists h. }
  split; [exact Hst|]. split; [exact Hout|]. split; [lia|].
  split; [exact Hres|]. split; [exact Htot|]. split; [exact Hstart|]. split; [exact Hend|].
  split.
  { intros c. specialize (Hcnt c). rewrite (total_spawn (bumps c)) in Hcnt by reflexivity.
    lia. }
  apply Forall_forall. intros [i e] Hin.
  destruct (pool_run_events _ _ _ i e Hrun Hin) as (t & Ht & He).
  destruct (Forall2_lookup_r _ _ _ _ _ Hst Ht) as (f & _ & Hstage).
  destruct (io_stage_hist _ _ _ Hstage) as (_ & _ & Hnodump).
  rewrite Forall_forall in Hnodump. specialize (Hnodump e He).
  destruct e; try reflexivity. by exfalso; eapply Hnodump.
Qed.

(** What every behaviour of [process_all_videos] on at least one file looks
    like: the announcement fails and that is all, or the announcement is
    made, the tasks are gathered and the batch is settled. *)
Lemma io_batch_nonempty cfg f files ld tr out :
  Fallible.process_all_videos cfg (f :: files) ld tr = Some out ->
  (exists e,
     printed (announce_lines cfg (f :: files)) (main_before tr) (inl e) /\
     runners tr = [] /\ main_after tr = [] /\ out = inl e) \/
  (main_before tr = emitted (announce_lines cfg (f :: files)) /\
   exists rs pool,
     gather (Fallible.process_video_with_semaphore cfg <$> (f :: files)) (runners tr)
       (MAX_CONCURRENT_TASKS cfg)
       (set_total_videos (Z.of_nat (length (f :: files))) ld) = Some (rs, pool) /\
     settled rs (log_data pool) (main_after tr) out).
Proof.
  unfold Fallible.process_all_videos.
  destruct (complete (Fallible.announce cfg (f :: files)) (main_before tr))
    as [[e|[]]|] eqn:Hann; [| |discriminate].
  - apply complete_Some in Hann.
    apply (always_accepts _ _ _ _ (io_print_all_spec _)) in Hann.
    destruct (runners tr); [|discriminate]. destruct (main_after tr); [|discriminate].
    intros [= <-]. left. by exists e.
  - apply complete_Some in Hann.
    apply (always_accepts _ _ _ _ (io_print_all_spec _)) in Hann.
    destruct Hann as [[_ Hb]|(? & ? & ? & ? & _ & _ & ?)]; [|discriminate].
    destruct (gather _ _ _ _) as [[rs pool]|] eqn:Hg; [|discriminate].
    intros Hset. apply complete_Some in Hset.
    apply (always_accepts _ _ _ _ (io_settle_spec _ _)) in Hset.
    right. split; [exact Hb|]. by exists rs, pool.
Qed.

(** ** The counters *)

Ltac bad_write :=
  let H := fresh in
  intros H; exfalso; unfold writes_ok in H;
  repeat (apply Forall_cons in H as [? H]); simplify_eq/=.

Ltac count_leaf :=
  unfold attempt_counts; cbn [fst snd];
  first
    [ by (intros _)
    | by bad_write
    | by (eexists; split; [reflexivity|]; dict_simpl) ].

Lemma writes_ok_cons e tr : writes_ok (e :: tr) -> writes_ok tr.
Proof. unfold writes_ok. rewrite Forall_cons. tauto. Qed.

Lemma io_poll_loop_counts f rid : forall elapsed d,
  always (Fallible.poll_loop f rid elapsed d) attempt_counts.
Proof.
  intros elapsed. induction elapsed as [elapsed IH] using poll_loop_induction.
  intros d. rewrite io_poll_loop_eq. destruct (decide (elapsed < max_wait)) as [Hlt|Hge].
  - cbn [Fallible.poll_loop_unfold_clause_1]. repeat io_step.
    all: try count_leaf.
    all: eapply always_mono; [|apply (IH Hlt)]; intros tr [d' r]; unfold attempt_counts;
      cbn [fst snd incrs]; destruct r as [e|[]]; [|done];
      intros Hr Hok; apply Hr; repeat (apply writes_ok_cons in Hok); exact Hok.
  - cbn [Fallible.poll_loop_unfold_clause_1]. repeat io_step. count_leaf.
Qed.

Lemma io_try_body_counts f d : always (Fallible.try_body f d) attempt_counts.
Proof.
  unfold Fallible.try_body. repeat io_step.
  all: try count_leaf.
  eapply always_mono; [|apply io_poll_loop_counts]. intros tr [d' r]. unfold attempt_counts.
  cbn [fst snd incrs]. destruct r as [e|[]]; [|done].
  intros Hr Hok. apply Hr. repeat (apply writes_ok_cons in Hok). exact Hok.
Qed.

Lemma writes_ok_app tr1 tr2 : writes_ok (tr1 ++ tr2) <-> writes_ok tr1 /\ writes_ok tr2.
Proof. unfold writes_ok. apply Forall_app. Qed.

Lemma io_run_counts cfg f : forall rc,
  always (Fallible.process_single_video cfg f rc) run_counts.
Proof.
  intros rc. induction rc as [rc IH] using (retry_induction cfg).
  rewrite Fallible.process_single_video_equation_1. cbn [always]. intros ts.
  apply always_pbind. eapply always_mono; [|apply io_try_body_counts].
  intros tr [d r] Hr. unfold attempt_counts in Hr. cbn [fst snd] in *.
  destruct r as [e|[]]; repeat io_step.
  - cbn [run_counts]. intros Hok. apply writes_ok_cons, writes_ok_app in Hok.
    destruct Hok as [_ Hok]. unfold writes_ok in Hok. apply Forall_cons in Hok as [? _].
    discriminate.
  - cbn [run_counts]. intros Hok. apply writes_ok_cons, writes_ok_app in Hok.
    destruct Hok as [_ Hok]. unfold writes_ok in Hok.
    apply Forall_cons in Hok as [_ Hok]. apply Forall_cons in Hok as [? _]. discriminate.
  - eapply always_mono; [|by apply IH]. intros tr' [e'|result]; cbn [run_counts].
    + intros Hbad Hok. apply Hbad. apply writes_ok_cons, writes_ok_app in Hok.
      destruct Hok as [_ Hok]. by do 3 apply writes_ok_cons in Hok.
    + intros (pre & c & Hin & Hst & Hpre). exists (incrs tr ++ pre), c.
      split; [|split; [exact Hst|]].
      * cbn [incrs]. rewrite incrs_app. cbn [incrs]. by rewrite Hin, app_assoc.
      * intros Hok. apply writes_ok_cons, writes_ok_app in Hok. destruct Hok as [Hok1 Hok2].
        rewrite (Hr Hok1). apply Hpre. by do 3 apply writes_ok_cons in Hok2.
  - cbn [run_counts]. exists (incrs tr), Failed. split; [|split].
    + cbn [incrs]. rewrite incrs_app. reflexivity.
    + by dict_simpl.
    + intros Hok. apply writes_ok_cons, writes_ok_app in Hok. destruct Hok as [Hok _].
      by apply Hr.
  - cbn [run_counts]. destruct Hr as (c & Hin & Hst). exists [], c.
    split; [|split; [exact Hst|done]].
    cbn [incrs]. by rewrite app_nil_r.
Qed.

Lemma pool_run_hist_from sched : forall pool pool' i t',
  pool_run sched pool = Some pool' ->
  tasks pool' !! i = Some t' ->
  exists t, tasks pool !! i = Some t /\
            forall e, e ∈ hist t' -> e ∈ hist t \/ (i, e) ∈ sched.
Proof.
  induction sched as [|[j e0] sched IH]; intros pool pool' i t'; simpl.
  - intros [= <-] Ht. exists t'. auto.
  - destruct (pool_step j e0 pool) as [pool1|] eqn:Hstep; [|discriminate].
    intros Hrun Ht'.
    destruct (IH _ _ _ _ Hrun Ht') as (t1 & Ht1 & Hsub).
    destruct (pool_step_inv _ _ _ _ Hstep) as (u & u' & sem & ld & Hu & Ha & _ & ->).
    cbn [tasks] in Ht1. destruct (decide (i = j)) as [->|Hne].
    + rewrite list_lookup_insert_eq in Ht1 by by eapply lookup_lt_Some.
      injection Ht1 as <-. exists u. split; [exact Hu|].
      intros e He. destruct (Hsub e He) as [Hin|Hin].
      * rewrite (advance_hist _ _ _ Ha), elem_of_app, list_elem_of_singleton in Hin.
        destruct Hin as [Hin| ->]; [by left|]. right. apply list_elem_of_here.
      * right. by apply list_elem_of_further.
    + rewrite list_lookup_insert_ne in Ht1 by done.
      exists t1. split; [exact Ht1|].
      intros e He. destruct (Hsub e He) as [Hin|Hin]; [by left|].
      right. by apply list_elem_of_further.
Qed.

Lemma bumps_nonneg c tr : 0 <= bumps c tr.
Proof. unfold bumps. lia. Qed.

Lemma io_stage_outcome cfg f t r :
  io_stage cfg f t -> outcome t = Some r ->
  exists h, hist t = EAcquire :: h ++ [ERelease] /\
            accepts (Fallible.process_single_video cfg f 0) h r.
Proof.
  intros [_ Hc|h q _ Hc _|h r' Hh Hc Hacc]; unfold outcome; rewrite Hc.
  - discriminate.
  - destruct q; discriminate.
  - intros [= <-]. by exists h.
Qed.

Lemma has_status_of c c0 d :
  d !! "status" = Some (JStr (status_of c0)) ->
  has_status (status_of c) d = bool_decide (c0 = c).
Proof.
  intros Hd. unfold has_status. rewrite Hd. apply bool_decide_ext. split.
  - intros [= H]. by apply status_of_inj in H.
  - by intros ->.
Qed.

Lemma bumps_snoc (c : Counter) (pre : list Counter) (c0 : Counter) :
  Z.of_nat (length (filter (fun c' => c' = c) (pre ++ [c0]))) =
  Z.of_nat (length (filter (fun c' => c' = c) pre)) + (if bool_decide (c0 = c) then 1 else 0).
Proof.
  rewrite filter_app, length_app. case_bool_decide.
  - rewrite filter_cons_True by done. simpl. lia.
  - rewrite filter_cons_False by done. simpl. lia.
Qed.

Lemma io_finished_task_bumps cfg f h r c :
  accepts (Fallible.process_single_video cfg f 0) h r ->
  counted c r <= bumps c (EAcquire :: h ++ [ERelease]) /\
  (writes_ok h ->
   is_exception r = false /\ bumps c (EAcquire :: h ++ [ERelease]) = counted c r).
Proof.
  intros Hacc. apply (always_accepts _ _ _ _ (io_run_counts cfg f 0)) in Hacc.
  unfold bumps. cbn [incrs]. rewrite incrs_app. cbn [incrs]. rewrite app_nil_r.
  destruct r as [e|d]; cbn [run_counts counted is_exception] in *.
  - split; [lia|]. intros Hok. by destruct Hacc.
  - destruct Hacc as (pre & c0 & -> & Hst & Hpre).
    rewrite bumps_snoc, (has_status_of c c0 d Hst). split; [lia|].
    intros Hok. rewrite (Hpre Hok). split; [reflexivity|]. simpl. lia.
Qed.

Lemma io_finished_tasks cfg : forall files ts rs,
  Forall2 (io_stage cfg) files ts ->
  Forall2 (fun t r => outcome t = Some r) ts rs ->
  (forall c, total (counted c) rs <= total (fun t => bumps c (hist t)) ts) /\
  (Forall (fun t => writes_ok (hist t)) ts ->
   number is_exception rs = 0 /\
   forall c, total (fun t => bumps c (hist t)) ts = total (counted c) rs).
Proof.
  intros files ts rs Hst. revert rs.
  induction Hst as [|f t files ts Hft _ IH]; intros rs Hout.
  - inversion Hout. split; [intros c; simpl; lia|]. intros _. split; [reflexivity|done].
  - inversion Hout as [|? r ? rs' Hr Hrs]. subst.
    destruct (IH _ Hrs) as [IHle IHeq].
    destruct (io_stage_outcome _ _ _ _ Hft Hr) as (h & Hh & Hacc).
    split.
    + intros c. cbn [total]. rewrite Hh.
      destruct (io_finished_task_bumps cfg f h r c Hacc) as [Hle _].
      specialize (IHle c). lia.
    + intros Hok. apply Forall_cons in Hok as [Hok1 Hok2].
      destruct (IHeq Hok2) as [IH0 IHc].
      assert (writes_ok h) as Hokh.
      { rewrite Hh in Hok1. apply writes_ok_cons, writes_ok_app in Hok1. tauto. }
      split.
      * unfold number in *. cbn [total].
        destruct (io_finished_task_bumps cfg f h r Failed Hacc) as [_ Heq].
        destruct (Heq Hokh) as [-> _]. lia.
      * intros c. cbn [total]. rewrite Hh.
        destruct (io_finished_task_bumps cfg f h r c Hacc) as [_ Heq].
        destruct (Heq Hokh) as [_ ->]. by rewrite IHc.
Qed.

(** The records of a given status among the entries of the ledger: the
    returned results of that status, and every stand-in when the status is
    failed. *)
Lemma entries_status rs entries c :
  Forall2 entry_of rs entries ->
  number (has_status (status_of c)) entries =
  total (counted c) rs + (if bool_decide (c = Failed) then number is_exception rs else 0).
Proof.
  unfold number. induction 1 as [|r d rs entries Hrd _ IH]; cbn [total].
  - by case_bool_decide.
  - rewrite IH. destruct r as [e|result]; cbn [entry_of counted is_exception] in *.
    + destruct Hrd as [ts ->].
      assert (has_status (status_of c) (unknown_result e ts) = bool_decide (c = Failed))
        as ->.
      { unfold has_status, unknown_result. apply bool_decide_ext. dict_simpl.
        split; [|by intros ->]. destruct c; by intros [=]. }
      case_bool_decide; lia.
    + subst d. case_bool_decide; lia.
Qed.

Lemma entries_records cfg : forall files ts rs entries,
  Forall2 (io_stage cfg) files ts ->
  Forall2 (fun t r => outcome t = Some r) ts rs ->
  Forall2 entry_of rs entries ->
  Forall2 (record_of cfg) files entries /\
  Z.of_nat (length files) =
    total (counted Successful) rs + total (counted Failed) rs + total (counted Skipped) rs
    + number is_exception rs.
Proof.
  intros files ts rs entries Hst. revert rs entries.
  induction Hst as [|f t files ts Hft _ IH]; intros rs entries Hout Hent.
  - inversion Hout; subst. inversion Hent; subst. split; [constructor|reflexivity].
  - inversion Hout as [|? r ? rs' Hr Hrs]. subst.
    inversion Hent as [|? d ? entries' Hrd Hent']. subst.
    destruct (IH _ _ Hrs Hent') as [IH1 IH2].
    destruct (io_stage_outcome _ _ _ _ Hft Hr) as (h & Hh & Hacc).
    split.
    + constructor; [|exact IH1]. destruct r as [e|result]; cbn [entry_of] in Hrd.
      * destruct Hrd as [ts' ->]. right. by exists h, e, ts'.
      * subst d. left. by exists h.
    + unfold number in *. cbn [total length]. rewrite Nat2Z.inj_succ.
      pose proof (always_accepts _ _ _ _ (io_run_counts cfg f 0) Hacc) as Hcnt.
      destruct r as [e|result]; cbn [counted is_exception run_counts] in *; [lia|].
      destruct Hcnt as (pre & c0 & _ & Hs & _).
      rewrite !(has_status_of _ c0 result Hs). destruct c0; simpl; lia.
Qed.

Lemma io_gather_writes cfg files sched ld rs pool :
  gather (Fallible.process_video_with_semaphore cfg <$> files) sched
    (MAX_CONCURRENT_TASKS cfg) ld = Some (rs, pool) ->
  Forall (fun ie : nat * Event => write_ok ie.2 = true) sched ->
  Forall (fun t => writes_ok (hist t)) (tasks pool).
Proof.
  unfold gather. intros H Hok.
  destruct (pool_run sched _) as [pool1|] eqn:Hrun; [|discriminate].
  cbn in H. destruct (mapM outcome (tasks pool1)) as [rs1|]; [|discriminate].
  cbn in H. injection H as <- <-.
  apply Forall_lookup. intros i t Ht.
  destruct (pool_run_hist_from _ _ _ _ _ Hrun Ht) as (t0 & Ht0 & Hsub).
  cbn [tasks] in Ht0. rewrite list_lookup_fmap in Ht0.
  destruct ((Fallible.process_video_with_semaphore cfg <$> files) !! i) as [p|];
    [|discriminate].
  injection Ht0 as <-. apply Forall_forall. intros e He.
  destruct (Hsub e He) as [Hin|Hin]; [by apply elem_of_nil in Hin|].
  rewrite Forall_forall in Hok. exact (Hok _ Hin).
Qed.

(** The ledger of a batch once the gathered outcomes are recorded. *)
Lemma io_batch_ledger cfg files now sched rs pool entries ld1 ts :
  gather (Fallible.process_video_with_semaphore cfg <$> files) sched
    (MAX_CONCURRENT_TASKS cfg)
    (set_total_videos (Z.of_nat (length files)) (initial_log_data now)) = Some (rs, pool) ->
  Forall2 entry_of rs entries ->
  extends (log_data pool) entries (number is_exception rs) ld1 ->
  batch_ledger cfg files now sched (set_end_time ts ld1).
Proof.
  intros Hg Hent (Hres & Hfail & Hsucc & Hskip & Htot & Hstart & _).
  pose proof (io_gather_writes _ _ _ _ _ _ Hg) as Hwrites.
  apply io_gather_spec in Hg.
  destruct Hg as (_ & Hst & Hout & _ & Hres0 & Htot0 & Hstart0 & _ & Hcnt & _).
  cbn [set_total_videos initial_log_data results total_videos start_time] in *.
  rewrite Hres0 in Hres. cbn [app] in Hres.
  destruct (entries_records cfg _ _ _ _ Hst Hout Hent) as [Hrec Hlen].
  destruct (io_finished_tasks cfg _ _ _ Hst Hout) as [Hle Heq].
  pose proof (Hcnt Successful) as H1. pose proof (Hcnt Failed) as H2.
  pose proof (Hcnt Skipped) as H3.
  cbn [counter successful failed skipped set_total_videos initial_log_data] in H1, H2, H3.
  assert (forall c, counter c (set_end_time ts ld1) =
            total (fun t => bumps c (hist t)) (tasks pool)
            + (if bool_decide (c = Failed) then number is_exception rs else 0)) as Hc.
  { intros []; cbn [counter set_end_time successful failed skipped];
      rewrite ?bool_decide_eq_true_2, ?bool_decide_eq_false_2 by done; lia. }
  unfold batch_ledger. cbn [set_end_time results total_videos start_time].
  rewrite Hres. split; [exact Hrec|]. split; [congruence|]. split; [congruence|].
  split; [|split].
  - intros c. rewrite (entries_status _ _ c Hent), Hc. specialize (Hle c).
    case_bool_decide; lia.
  - cbn [set_end_time successful failed skipped].
    pose proof (Hle Successful). pose proof (Hle Failed). pose proof (Hle Skipped). lia.
  - intros Hok. destruct (Heq (Hwrites Hok)) as [H0 Hbump].
    assert (forall c, counter c (set_end_time ts ld1) =
              number (has_status (status_of c)) entries) as Hc'.
    { intros c. rewrite (entries_status _ _ c Hent), Hc, Hbump. reflexivity. }
    split; [|split; [exact Hc'|]].
    + clear -Hrec Hst Hout Hent H0. revert rs entries Hout Hent Hrec H0.
      induction Hst as [|f t files ts' Hft _ IH]; intros rs entries Hout Hent Hrec H0.
      * inversion Hout; subst. inversion Hent; subst. constructor.
      * inversion Hout as [|? r ? rs' Hr Hrs]. subst.
        inversion Hent as [|? d ? entries' Hrd Hent']. subst.
        inversion Hrec; subst. unfold number in H0. cbn [total] in H0.
        assert (0 <= total (fun a => if is_exception a then 1 else 0) rs') as Hpos.
        { clear. induction rs' as [|[] rs' IH]; simpl; lia. }
        destruct (io_stage_outcome _ _ _ _ Hft Hr) as (h & _ & Hacc).
        destruct r as [e|result]; cbn [is_exception entry_of] in *; [lia|]. subst d.
        constructor; [by exists h|]. eapply IH; eauto.
    + cbn [set_end_time successful failed skipped].
      pose proof (Hbump Successful). pose proof (Hbump Failed).
      pose proof (Hbump Skipped). lia.
Qed.

(** ** Every batch reaches its end *)

Lemma pool_run_app s1 : forall s2 pool,
  pool_run (s1 ++ s2) pool =
  match pool_run s1 pool with
  | Some pool1 => pool_run s2 pool1
  | None => None
  end.
Proof.
  induction s1 as [|[i e] s1 IH]; intros s2 pool; simpl; [reflexivity|].
  destruct (pool_step i e pool); [apply IH|reflexivity].
Qed.

Lemma io_running_enabled cfg f pool i t h q :
  tasks pool !! i = Some t ->
  hist t = EAcquire :: h ->
  code t = pbind q release_outcome ->
  residual (Fallible.process_single_video cfg f 0) h q ->
  enabled i pool.
Proof.
  intros Ht Hh Hc Hres. destruct q as [r|X c k].
  - exists t, unit, Release, (fun _ => Ret r). split; [exact Ht|]. split; [exact Hc|].
    intros []. unfold pool_step, advance. rewrite Ht, Hc.
    cbn [pbind release_outcome reply_of ev effect]. by eexists.
  - exists t, X, c, (fun x => pbind (k x) release_outcome).
    split; [exact Ht|]. split; [exact Hc|]. intros x.
    assert (is_inner (ev c x) = true) as Hev.
    { pose proof (io_residual_inner cfg f _ _ (residual_step _ _ _ _ x Hres)) as Hall.
      apply Forall_app in Hall. destruct Hall as [_ Hall].
      apply Forall_cons in Hall. tauto. }
    assert (is_Some (effect (ev c x) (semaphore pool) (log_data pool))) as [[sem ld] He].
    { apply runner_event_effect. by destruct (ev c x). }
    unfold pool_step, advance. rewrite Ht, Hc. cbn [pbind].
    rewrite reply_of_ev, He. by eexists.
Qed.

(** With at least one slot, in every state that an interleaving reaches
    either all tasks have ended or one of them can perform its next command
    whatever the reply: the tasks never block one another for good. *)
Lemma io_progress_any cfg files ld sched pool :
  0 < MAX_CONCURRENT_TASKS cfg ->
  pool_run sched (io_pool cfg files ld) = Some pool ->
  all_finished pool \/ exists i, enabled i pool.
Proof.
  intros HK Hrun.
  destruct (decide (all_finished pool)) as [Hall|Hnot]; [by left|right].
  destruct (io_pool_run_slots _ _ _ _ _ Hrun) as [Hst Hsem].
  assert (exists i t, tasks pool !! i = Some t /\ outcome t = None) as (i & t & Ht & Hout).
  { unfold all_finished in Hnot. apply not_Forall_Exists in Hnot; [|intros ?; apply _].
    apply Exists_exists in Hnot. destruct Hnot as (t & Hin & Ho).
    apply list_elem_of_lookup in Hin. destruct Hin as [i Hi].
    exists i, t. split; [exact Hi|]. destruct (outcome t) as [r|] eqn:Hr; [|done].
    exfalso. apply Ho. cbn beta. rewrite Hr. by eexists. }
  destruct (Forall2_lookup_r _ _ _ _ _ Hst Ht) as (f & _ & [Hh Hc|h q Hh Hc Hres|h r Hh Hc _]).
  - destruct (decide (0 < semaphore pool)) as [Hpos|Hfull].
    + exists i, t, unit, Acquire. eexists. split; [exact Ht|]. split; [exact Hc|].
      intros []. unfold pool_step, advance. rewrite Ht, Hc.
      unfold Fallible.process_video_with_semaphore. cbn [reply_of ev effect].
      rewrite decide_True by done. by eexists.
    + destruct (number_pos in_flight (tasks pool)) as (j & t' & Ht' & Hin); [lia|].
      destruct (Forall2_lookup_r _ _ _ _ _ Hst Ht')
        as (f' & _ & [Hh' Hc'|h' q' Hh' Hc' Hres'|h' r' Hh' Hc' Hacc']).
      * unfold in_flight in Hin. rewrite Hh' in Hin.
        rewrite bool_decide_eq_false_2 in Hin by apply not_elem_of_nil. discriminate.
      * exists j. by eapply io_running_enabled.
      * destruct (io_stage_hist cfg f' t') as (_ & Hfin & _);
          [by eapply io_finished|].
        rewrite Hfin in Hin; [discriminate|]. unfold outcome. rewrite Hc'. by eexists.
  - exists i. by eapply io_running_enabled.
  - unfold outcome in Hout. by rewrite Hc in Hout.
Qed.

(** With at least one slot, every interleaving can be continued until all
    tasks have ended. *)
Lemma io_completion cfg files ld :
  0 < MAX_CONCURRENT_TASKS cfg ->
  forall pool sched,
    pool_run sched (io_pool cfg files ld) = Some pool ->
    exists sched' pool',
      pool_run (sched ++ sched') (io_pool cfg files ld) = Some pool' /\
      all_finished pool'.
Proof.
  intros HK pool. induction (pool_next_wf pool) as [pool _ IH]. intros sched Hrun.
  destruct (io_progress_any cfg files ld sched pool HK Hrun)
    as [Hall|(i & t & X & c & k & Ht & Hc & Hstep)].
  - exists [], pool. by rewrite app_nil_r.
  - destruct (Hstep (default_reply c)) as [pool1 Hpool1].
    destruct (IH pool1 (ex_intro _ i (ex_intro _ _ Hpool1)) (sched ++ [(i, ev c (default_reply c))]))
      as (sched' & pool' & Hrun' & Hall).
    { rewrite pool_run_app, Hrun. simpl. by rewrite Hpool1. }
    exists ((i, ev c (default_reply c)) :: sched'), pool'. split; [|exact Hall].
    by rewrite <- app_assoc in Hrun'.
Qed.

Lemma gather_finished coros sched sem ld pool :
  pool_run sched (mkPool sem ld (spawn <$> coros)) = Some pool ->
  all_finished pool ->
  exists rs, gather coros sched sem ld = Some (rs, pool).
Proof.
  intros Hrun Hall. unfold gather. rewrite Hrun.
  assert (is_Some (mapM outcome (tasks pool))) as [rs Hm] by by apply mapM_is_Some.
  exists rs. cbn. rewrite Hm. reflexivity.
Qed.

Lemma complete_print_all lines :
  complete (Fallible.print_all lines) (emitted lines) = Some (inr tt).
Proof.
  apply complete_Some. unfold accepts.
  induction lines as [|l lines IH]; [reflexivity|].
  cbn [Fallible.print_all Fallible.and_then pbind emitted fmap list_fmap replay reply_of].
  rewrite decide_True by done. exact IH.
Qed.

(** With at least one slot, every interleaving of the tasks can be
    continued into a whole batch, whatever the environment answers to the
    main coroutine afterwards. *)
Lemma io_batch_completes cfg f files now sched pool :
  0 < MAX_CONCURRENT_TASKS cfg ->
  pool_run sched
    (io_pool cfg (f :: files)
       (set_total_videos (Z.of_nat (length (f :: files))) (initial_log_data now)))
    = Some pool ->
  exists sched', forall env : Env, exists after out,
    Fallible.process_all_videos cfg (f :: files) (initial_log_data now)
      (batch_over cfg (f :: files) (sched ++ sched') after) = Some out.
Proof.
  intros HK Hrun.
  destruct (io_completion cfg _ _ HK pool sched Hrun) as (sched' & pool' & Hrun' & Hall).
  destruct (gather_finished _ _ _ _ _ Hrun' Hall) as [rs Hg].
  exists sched'. intros env.
  exists (execute env 0 (Fallible.settle rs (log_data pool'))).2,
         (execute env 0 (Fallible.settle rs (log_data pool'))).1.
  unfold Fallible.process_all_videos, batch_over. cbn [main_before runners main_after].
  unfold Fallible.announce.
  change (complete (Fallible.print_all _) _)
    with (complete (Fallible.print_all (announce_lines cfg (f :: files)))
            (emitted (announce_lines cfg (f :: files)))).
  rewrite complete_print_all. unfold io_pool in Hg. rewrite Hg. cbn [log_data].
  apply complete_execute.
Qed.

(** * The batch and its ledger *)




Lemma dumps_emitted lines : number is_dump (emitted lines) = 0.
Proof. unfold number, emitted. apply total_zero, Forall_fmap, Forall_true. done. Qed.

Lemma dumps_printed lines tr r : printed lines tr r -> number is_dump tr = 0.
Proof.
  intros [[_ ->]|(pre & l & post & e & _ & -> & _)]; [apply dumps_emitted|].
  unfold number. rewrite total_app. fold (number is_dump (emitted pre)).
  rewrite dumps_emitted. reflexivity.
Qed.

Lemma run_fields_or_stand_in cfg f d : record_of cfg f d -> run_fields f d \/ is_stand_in d.
Proof.
  intros [[h Hh]|(h & e & ts & _ & ->)].
  - left. apply (always_accepts _ _ _ _ (io_run_keeps cfg f 0)) in Hh. by destruct Hh.
  - right. exists e, ts. split; [reflexivity|]. unfold unknown_result. by dict_simpl.
Qed.

(** C7, as stated, fails, in two ways.  A batch that discovers no file
    returns without writing the ledger.  And in the batch over [a.mp4] whose
    runner ends with an exception, the ledger that is written holds one
    record, the stand-in, which carries no retry count. *)
Lemma C7_counterexample :
  (Fallible.process_all_videos module_config [] (initial_log_data "t0") no_file_batch
     = Some (inr (initial_log_data "t0")) /\
   dumps no_file_batch = 0) /\
  (Fallible.process_all_videos module_config ["a.mp4"] (initial_log_data "t0")
     refused_name_batch = Some (inr refused_name_ledger) /\
   EDump LOG_FILE refused_name_ledger (inr tt) ∈ main_after refused_name_batch /\
   results refused_name_ledger = [unknown_result encode_error "t2"] /\
   unknown_result encode_error "t2" !! "retry_count" = None).
Proof.
  split; [split; [vm_compute; reflexivity|reflexivity]|].
  split; [vm_compute; reflexivity|]. split; [|split; reflexivity].
  unfold refused_name_batch, batch_over. cbn [main_after app].
  do 2 apply list_elem_of_further. apply list_elem_of_here.
Qed.

(** C7, amended.  A batch that discovers no file does not write the
    ledger, and neither does a batch whose opening lines cannot be printed:
    it ends there with the exception.  Every other batch attempts the write
    of the ledger exactly once, after all runners have finished and the
    stand-ins and the end time are recorded: one write to [LOG_FILE] of the
    ledger with the start and end times, [total_videos], the counters, and
    one record per file, which is either the result of the run on that file,
    with filename, status, request id, error, retry count and timestamp, or
    the stand-in of a runner that raised, which has neither retry count nor
    request id.  When this write raises, the batch ends with its exception
    and prints nothing more; when it succeeds, the batch prints that the log
    is saved and then the summary, and returns the ledger unless one of
    these lines raises. *)
Theorem C7_ledger_written_once cfg files now tr out :
  Fallible.process_all_videos cfg files (initial_log_data now) tr = Some out ->
  (files = [] -> dumps tr = 0) /\
  (files <> [] ->
   (exists e,
      out = inl e /\ dumps tr = 0 /\
      printed (announce_lines cfg files) (main_before tr) (inl e)) \/
   (exists stamps ts ld' r rest,
      main_before tr = emitted (announce_lines cfg files) /\
      main_after tr = (ENow <$> stamps) ++ ENow ts :: EDump LOG_FILE ld' r :: rest /\
      dumps tr = 1 /\
      start_time ld' = now /\
      end_time ld' = Some ts /\
      total_videos ld' = Z.of_nat (length files) /\
      Forall2 (fun f d => run_fields f d \/ is_stand_in d) files (results ld') /\
      (forall c, number (has_status (status_of c)) (results ld') <= counter c ld') /\
      match r with
      | inl e => rest = [] /\ out = inl e
      | inr _ =>
          exists pr,
            printed (("Log saved to: " +:+ LOG_FILE) :: report_lines ld') rest pr /\
            out = match pr with
                  | inl e => inl e
                  | inr _ => inr ld'
                  end
      end)).
Proof.
  intros H. split.
  - intros ->. unfold Fallible.process_all_videos in H.
    destruct (complete _ (main_before tr)) as [r|] eqn:Hc; [|by destruct (runners tr)].
    assert (runners tr = [] /\ main_after tr = []) as [Hr Ha].
    { destruct r as [e|[]], (runners tr), (main_after tr); done. }
    apply complete_Some in Hc. unfold accepts in Hc. apply replay_Vis in Hc.
    destruct Hc as (x & tr' & Hb & [= _ ->]).
    unfold dumps. rewrite Hb, Hr, Ha. reflexivity.
  - intros Hne. destruct files as [|f files]; [done|].
    apply io_batch_nonempty in H.
    destruct H as [(e & Hp & Hr & Ha & ->)|(Hb & rs & pool & Hg & Hset)].
    + left. exists e. split; [reflexivity|]. split; [|exact Hp].
      unfold dumps. rewrite Hr, Ha, (dumps_printed _ _ _ Hp). reflexivity.
    + right.
      destruct Hset as (entries & ld1 & ts & stamps & r & rest & Hent & Hext & Ha & _ & Hr).
      destruct (io_batch_ledger cfg (f :: files) now (runners tr) rs pool entries ld1 ts
                  Hg Hent Hext) as (Hrec & Htot & Hstart & Hle & _).
      exists stamps, ts, (set_end_time ts ld1), r, rest.
      split; [exact Hb|]. split; [exact Ha|]. split; [|split; [exact Hstart|]].
      * apply io_gather_spec in Hg.
        destruct Hg as (_ & _ & _ & _ & _ & _ & _ & _ & _ & Hnodump).
        unfold dumps. rewrite Hb, dumps_emitted, (number_zero _ _ Hnodump), Ha.
        unfold number. rewrite total_app.
        rewrite (total_zero _ (ENow <$> stamps))
          by (apply Forall_fmap; by apply Forall_true).
        cbn [total is_dump].
        assert (number is_dump rest = 0) as Hrest.
        { destruct r as [e|u]; [by destruct Hr as [-> _]|].
          destruct Hr as (pr & Hp & _). by eapply dumps_printed. }
        unfold number in Hrest. rewrite Hrest. reflexivity.
      * split; [reflexivity|]. split; [exact Htot|]. split; [|split; [exact Hle|exact Hr]].
        eapply Forall2_impl; [exact Hrec|]. intros g d. apply run_fields_or_stand_in.
Qed.

Lemma C7_ledger_written_once_witness :
  Fallible.process_all_videos module_config ["a.mp4"; "b.mp4"] (initial_log_data "t0")
    escaped_batch = Some (inr escaped_ledger) /\
  dumps escaped_batch = 1 /\
  Forall2 (fun f d => run_fields f d \/ is_stand_in d) ["a.mp4"; "b.mp4"]
    (results escaped_ledger).
Proof.
  assert (Fallible.process_all_videos module_config ["a.mp4"; "b.mp4"]
            (initial_log_data "t0") escaped_batch = Some (inr escaped_ledger)) as H
    by (vm_compute; reflexivity).
  split; [exact H|].
  destruct (C7_ledger_written_once module_config ["a.mp4"; "b.mp4"] "t0" escaped_batch
              (inr escaped_ledger) H) as [_ Hne].
  destruct Hne as [(e & He & _)|(stamps & ts & ld' & r & rest & _ & Ha & Hd & _ & _ & _
                                 & Hrec & _ & Hr)];
    [discriminate|discriminate|].
  split; [exact Hd|].
  assert (ld' = escaped_ledger) as <-; [|exact Hrec].
  destruct r as [e|u]; [destruct Hr as [_ [=]]|].
  destruct Hr as ([e|u'] & _ & [= Heq]). done.
Defined.

Lemma printed_writes_ok lines tr r : printed lines tr r -> writes_ok tr -> r = inr tt /\ tr = emitted lines.
Proof.
  intros [[-> ->]|(pre & l & post & e & _ & -> & _)] Hok; [done|].
  apply writes_ok_app in Hok. destruct Hok as [_ Hok].
  unfold writes_ok in Hok. apply Forall_cons in Hok as [? _]. discriminate.
Qed.

(** C6, as stated, fails: the batch does not always complete and report a
    summary.  One file, whose output is already there, is counted as
    skipped; then the write of the ledger raises (the disk is full):
    [process_all_videos] ends with this exception, and not one line is
    printed after the runners have finished. *)
Lemma C6_counterexample :
  Fallible.process_all_videos module_config ["a.mp4"] (initial_log_data "t0")
    full_disk_batch = Some (inl "No space left on device") /\
  lines_of (main_after full_disk_batch) = [].
Proof. split; [vm_compute; reflexivity|reflexivity]. Qed.

(** C6, amended.  (1) For every list of gathered outcomes, the loop of
    [process_all_videos] appends one record per outcome; for an exception
    that escaped a runner the record has filename ["unknown"], status
    ["failed"] and the text of the exception as error, and the failed
    counter goes up by one for each such exception, the other counters
    staying as they are.  (2) A task made by [process_video_with_semaphore]
    gives its slot back whether its run returns or raises; when the run
    returns, the status of the result is success, failed or skipped; the
    run raises only when a [print] under it has failed, never because a
    remote operation or a file operation failed.  (3) Whatever the runners
    did, exceptions included, a batch over at least one file in which no
    write of the main coroutine fails (its lines on the console and the
    ledger file) returns the ledger after writing it and printing the
    summary, with the number of failures and, when there are failures, one
    line per failed record.  (4) With at least one slot in the semaphore,
    in every state that an interleaving of the tasks reaches either all
    tasks have ended or some task can perform its next command whatever the
    reply; no interleaving goes on forever; and every interleaving can be
    continued into a whole batch, whatever the environment answers to the
    main coroutine. *)
Theorem C6_failures_stay_inside_the_batch cfg :
  (forall rs ld tr ld',
     accepts (collect rs ld) tr ld' ->
     exists entries,
       Forall2 entry_of rs entries /\
       results ld' = results ld ++ entries /\
       failed ld' = failed ld + number is_exception rs /\
       successful ld' = successful ld /\ skipped ld' = skipped ld) /\
  (forall e timestamp,
     unknown_result e timestamp !! "filename" = Some (JStr "unknown") /\
     unknown_result e timestamp !! "status" = Some (JStr "failed") /\
     unknown_result e timestamp !! "error" = Some (JStr e)) /\
  (forall f tr r,
     accepts (Fallible.process_video_with_semaphore cfg f) tr r ->
     exists h,
       tr = EAcquire :: h ++ [ERelease] /\
       accepts (Fallible.process_single_video cfg f 0) h r /\
       match r with
       | inr result => exists c, result !! "status" = Some (JStr (status_of c))
       | inl _ => ~ writes_ok h
       end) /\
  (forall files now tr out,
     files <> [] ->
     Fallible.process_all_videos cfg files (initial_log_data now) tr = Some out ->
     writes_ok (main_before tr) ->
     writes_ok (main_after tr) ->
     exists stamps ts ld',
       out = inr ld' /\
       main_after tr =
         (ENow <$> stamps) ++ ENow ts :: EDump LOG_FILE ld' (inr tt)
         :: emitted (("Log saved to: " +:+ LOG_FILE) :: report_lines ld') /\
       "PROCESSING SUMMARY" ∈ report_lines ld' /\
       ("Failed:        " +:+ pretty (failed ld')) ∈ report_lines ld' /\
       (failed ld' > 0 -> failed_lines (results ld') ⊆ report_lines ld')) /\
  (0 < MAX_CONCURRENT_TASKS cfg ->
   forall f files now sched pool,
     pool_run sched
       (io_pool cfg (f :: files)
          (set_total_videos (Z.of_nat (length (f :: files))) (initial_log_data now)))
       = Some pool ->
     (all_finished pool \/ exists i, enabled i pool) /\
     Acc pool_next pool /\
     exists sched', forall env : Env, exists after out,
       Fallible.process_all_videos cfg (f :: files) (initial_log_data now)
         (batch_over cfg (f :: files) (sched ++ sched') after) = Some out).
Proof.
  split; [|split; [|split; [|split]]].
  - intros rs ld tr ld' H.
    apply (always_accepts _ _ _ _ (collect_spec rs ld)) in H.
    destruct H as (entries & stamps & Hent & Hext & _).
    destruct Hext as (H1 & H2 & H3 & H4 & _). eauto 10.
  - intros e ts. unfold unknown_result. repeat split; by dict_simpl.
  - intros f tr r H. apply io_with_semaphore_accepts in H.
    destruct H as (h & -> & Hh). exists h. split; [reflexivity|]. split; [exact Hh|].
    apply (always_accepts _ _ _ _ (io_run_counts cfg f 0)) in Hh.
    destruct r as [e|result]; cbn [run_counts] in Hh; [exact Hh|].
    destruct Hh as (pre & c & _ & Hst & _). by exists c.
  - intros files now tr out Hne H Hbefore Hafter. destruct files as [|f files]; [done|].
    apply io_batch_nonempty in H.
    destruct H as [(e & Hp & _)|(_ & rs & pool & _ & Hset)].
    { by destruct (printed_writes_ok _ _ _ Hp Hbefore). }
    destruct Hset as (entries & ld1 & ts & stamps & r & rest & _ & _ & Ha & _ & Hr).
    rewrite Ha in Hafter. apply writes_ok_app in Hafter. destruct Hafter as [_ Hafter].
    apply writes_ok_cons in Hafter. unfold writes_ok in Hafter.
    apply Forall_cons in Hafter as [Hdump Hrest].
    destruct r as [e|[]]; [discriminate|].
    destruct Hr as (pr & Hp & ->).
    destruct (printed_writes_ok _ _ _ Hp Hrest) as [-> ->].
    exists stamps, ts, (set_end_time ts ld1). split; [reflexivity|]. split; [exact Ha|].
    unfold report_lines, Fallible.summary_lines. split; [|split].
    + set_solver.
    + cbn [set_end_time failed]. set_solver.
    + intros Hpos. rewrite bool_decide_eq_true_2 by exact Hpos.
      intros line Hline. apply elem_of_app. right. by apply list_elem_of_further.
  - intros HK f files now sched pool Hrun. split; [|split].
    + by eapply io_progress_any.
    + apply pool_next_wf.
    + by eapply io_batch_completes.
Qed.

Lemma C6_failures_stay_inside_the_batch_witness :
  Fallible.process_all_videos module_config ["a.mp4"; "b.mp4"] (initial_log_data "t0")
    escaped_batch = Some (inr escaped_ledger) /\
  accepts (Fallible.process_video_with_semaphore module_config "a.mp4")
    (EAcquire :: refused_name_run ++ [ERelease]) (inl encode_error) /\
  ~ writes_ok refused_name_run /\
  results escaped_ledger = [unknown_result encode_error "t3"; unreachable_result] /\
  failed escaped_ledger = 2 /\
  "PROCESSING SUMMARY" ∈ report_lines escaped_ledger /\
  "Failed:        2" ∈ report_lines escaped_ledger /\
  exists sched', forall env : Env, exists after out,
    Fallible.process_all_videos module_config ["a.mp4"; "b.mp4"] (initial_log_data "t0")
      (batch_over module_config ["a.mp4"; "b.mp4"] sched' after)
    = Some out.
Proof.
  assert (Fallible.process_all_videos module_config ["a.mp4"; "b.mp4"]
            (initial_log_data "t0") escaped_batch = Some (inr escaped_ledger)) as H
    by (vm_compute; reflexivity).
  assert (accepts (Fallible.process_video_with_semaphore module_config "a.mp4")
            (EAcquire :: refused_name_run ++ [ERelease]) (inl encode_error)) as Ha
    by (vm_compute; reflexivity).
  destruct (C6_failures_stay_inside_the_batch module_config)
    as (_ & _ & Htask & Hsum & Hcomp).
  split; [exact H|]. split; [exact Ha|]. split; [|split; [reflexivity|split; [reflexivity|]]].
  - destruct (Htask "a.mp4" _ _ Ha) as (h & Heq & _ & Hbad).
    assert (refused_name_run ++ [ERelease] = h ++ [ERelease]) as Heq' by congruence.
    apply app_inv_tail in Heq'. by subst h.
  - destruct (Hsum ["a.mp4"; "b.mp4"] "t0" escaped_batch (inr escaped_ledger))
      as (stamps & ts & ld' & Hout & _ & H1 & H2 & _);
      [discriminate|exact H|vm_compute; repeat constructor|vm_compute; repeat constructor|].
    injection Hout as <-. split; [exact H1|]. split; [exact H2|].
    destruct (Hcomp ltac:(simpl; lia) "a.mp4" ["b.mp4"] "t0" [] _ eq_refl)
      as (_ & _ & Hend).
    exact Hend.
Defined.
